(** * FAQ retrieval pipeline ([rag_core.py], [mcp_server.py],
      [api_server.py]): model and properties

    A shallow embedding of the chunker, the corpus loader, the top-k
    retrieval step and the answer assembly of the FAQ RAG core, and of
    the two servers in front of it, followed by the properties of the
    design document that concern them.

    Conventions.
    - A Python [str] is a list of Unicode code points ([N]).
    - A Python [int] is a [Z]; list lengths and indices are [nat].
    - The one [float] computation on integers, [size * 1.5], is done on
      the doubles themselves, written as integers and half-integers.
    - A raised exception is the left summand of a result.
    - Module globals and the two remote services live in an explicit
      [world] threaded through a small state-and-error monad. *)

From Stdlib Require Import Ascii String.
From Stdlib Require Import List ZArith NArith Bool Lia Arith Sorted Permutation.
Import ListNotations.

(* ================================================================== *)
(** ** Python strings *)

Module PyStr.

Abbreviation char := N (only parsing).
Abbreviation str := (list N) (only parsing).

(** Literals are written as Rocq strings and read as code points. *)
Definition lit (x : String.string) : str :=
  map N_of_ascii (String.list_ascii_of_string x).
Arguments lit x%_string.

(** [str.isspace] on one code point, which is also what [\s] matches in
    a [str] pattern of [re] and what [str.strip()] removes. *)
Definition is_space (c : char) : bool :=
  (((9 <=? c) && (c <=? 13)) || ((28 <=? c) && (c <=? 32))
   || (c =? 133) || (c =? 160) || (c =? 5760)
   || ((8192 <=? c) && (c <=? 8202))
   || (c =? 8232) || (c =? 8233) || (c =? 8239) || (c =? 8287)
   || (c =? 12288))%N.

Fixpoint lstrip (s : str) : str :=
  match s with
  | [] => []
  | c :: t => if is_space c then lstrip t else s
  end.

Definition rstrip (s : str) : str := rev (lstrip (rev s)).

(** [s.strip()] *)
Definition strip (s : str) : str := rstrip (lstrip s).

(** [len(s)] *)
Definition len (s : str) : Z := Z.of_nat (length s).

(** [s[i:j]] for [0 <= i]: the end is cut at [len(s)], and the slice is
    empty when [j <= i]. *)
Definition slice (s : str) (i j : Z) : str :=
  firstn (Z.to_nat (j - i)) (skipn (Z.to_nat i) s).

(** [a == b] on [str] *)
Fixpoint str_eqb (a b : str) : bool :=
  match a, b with
  | [], [] => true
  | x :: a', y :: b' => N.eqb x y && str_eqb a' b'
  | _, _ => false
  end.

(** [a < b] on [str]: lexicographic on code points. *)
Fixpoint str_ltb (a b : str) : bool :=
  match a, b with
  | _, [] => false
  | [], _ :: _ => true
  | x :: a', y :: b' => N.ltb x y || (N.eqb x y && str_ltb a' b')
  end.

Definition str_leb (a b : str) : bool := negb (str_ltb b a).

(** [sep.join(parts)] *)
Fixpoint join (sep : str) (parts : list str) : str :=
  match parts with
  | [] => []
  | [p] => p
  | p :: rest => p ++ sep ++ join sep rest
  end.

(** [s.endswith(suffix)] *)
Definition endswith (s suffix : str) : bool :=
  str_eqb (skipn (length s - length suffix) s) suffix
  && (length suffix <=? length s)%nat.

(** The text with every whitespace code point removed. *)
Definition remove_ws (s : str) : str := filter (fun c => negb (is_space c)) s.

(** A string that does not start with whitespace. *)
Definition no_lead (s : str) : Prop :=
  match s with
  | [] => True
  | c :: _ => is_space c = false
  end.

(** A string that [strip] leaves alone. *)
Definition stripped (c : str) : Prop := strip c = c.

End PyStr.
Import PyStr.

(* ================================================================== *)
(** ** Exceptions *)

Inductive value_error :=
| QuestionRequired        (* "question is required" *)
| QuestionRequiredMcp     (* "`question` is required and cannot be empty" *)
| NoMdFiles               (* "No .md files found in ..." *)
| RangeStepZero.          (* "range() arg 3 must not be zero" *)

(** What NumPy raises in this code; each is a subclass of [ValueError]. *)
Inductive numpy_error :=
| AxisOutOfBounds         (* AxisError: axis 1 is out of bounds for array of dimension 1 *)
| MatmulMismatch          (* matmul: mismatch in the core dimension *)
| InhomogeneousShape.     (* array(): the requested array has an inhomogeneous shape *)

Inductive exn :=
| FileNotFoundError       (* "FAQ directory not found: ...", or a file that is not there *)
| ValueError (m : value_error)
| RuntimeError            (* "RAG system not initialized. ..." *)
| IndexError              (* list index out of range *)
| ServiceError            (* any failure of the OpenAI client; no ValueError *)
| OverflowError           (* int too large to convert to float *)
| AttributeError          (* 'NoneType' object has no attribute 'strip' *)
| NumpyError (e : numpy_error)
| IsADirectoryError
| PermissionError
| UnicodeDecodeError.

(** [isinstance(e, ValueError)]: what [except ValueError] catches. *)
Definition is_ValueError (e : exn) : bool :=
  match e with
  | ValueError _ | NumpyError _ | UnicodeDecodeError => true
  | _ => false
  end.

Definition result (A : Type) : Type := (exn + A)%type.

(* ================================================================== *)
(** ** Python floats, as far as [size * 1.5] needs them *)

Module PyFloat.

(** The integer nearest to [n] among those with at most 53 significant
    bits, ties going to the even significand: the value of the double
    nearest to [n]. *)
Definition round53 (n : Z) : Z :=
  let a := Z.abs n in
  let s := (Z.log2 a + 1 - 53)%Z in
  if (s <=? 0)%Z then n
  else
    let q := (a / 2 ^ s)%Z in
    let r := (a mod 2 ^ s)%Z in
    let half := (2 ^ (s - 1))%Z in
    let q' := if (half <? r)%Z || ((r =? half)%Z && Z.odd q)
              then (q + 1)%Z else q in
    (Z.sgn n * (q' * 2 ^ s))%Z.

(** The doubles that occur: [Half m] is the finite double [m / 2]. *)
Inductive pyfloat :=
| Half (m : Z)
| PosInf
| NegInf.

(** [float(n)], the conversion Python applies to the [int] operand of
    [n * 1.5]: the nearest double, or [OverflowError] beyond the largest
    one.  The result is the integer value of that double. *)
Definition float_of_int (n : Z) : result Z :=
  let v := round53 n in
  if (2 ^ 1024 <=? Z.abs v)%Z then inl OverflowError else inr v.

(** [x * 1.5] on the double of integer value [v]: the product is rounded
    to the nearest double and overflows to an infinity without raising. *)
Definition times_1_5 (v : Z) : pyfloat :=
  let m := round53 (3 * v) in
  if (2 ^ 1025 <=? m)%Z then PosInf
  else if (m <=? - 2 ^ 1025)%Z then NegInf
  else Half m.

(** [n <= x] for an [int] [n] and a float [x]: Python compares the exact
    values. *)
Definition int_le_float (n : Z) (x : pyfloat) : bool :=
  match x with
  | Half m => (2 * n <=? m)%Z
  | PosInf => true
  | NegInf => false
  end.

(** [n <= size * 1.5] *)
Definition le_size_times_1_5 (n size : Z) : result bool :=
  match float_of_int size with
  | inl e => inl e
  | inr v => inr (int_le_float n (times_1_5 v))
  end.

End PyFloat.
Import PyFloat.

(* ================================================================== *)
(** ** Chunker: [_chunk_text] *)

Module Chunker.

(** The lookbehind class [[.!?\n]]. *)
Definition is_boundary (c : char) : bool :=
  ((c =? 46) || (c =? 33) || (c =? 63) || (c =? 10))%N.

(** [re.split(r'(?<=[.!?\n])\s+', text)].

    The scan goes left to right.  A separator starts at a whitespace
    code point whose predecessor is in the lookbehind class, and runs
    greedily to the end of that whitespace run; [in_sep] says that the
    scan is inside such a separator, [prev] is the code point just
    before the current position and [cur] the piece collected so far
    (reversed). *)
Fixpoint re_split_aux (in_sep : bool) (prev : option char) (cur : str)
         (s : str) : list str :=
  match s with
  | [] => [rev cur]
  | c :: t =>
      if is_space c && in_sep then re_split_aux true (Some c) cur t
      else if is_space c && match prev with
                            | Some p => is_boundary p
                            | None => false
                            end
           then rev cur :: re_split_aux true (Some c) [] t
           else re_split_aux false (Some c) (c :: cur) t
  end.

Definition re_split (text : str) : list str :=
  re_split_aux false None [] text.

(** The state of the accumulation loop: the closed chunks and
    [current_chunk]. *)
Definition acc_state := (list str * str)%type.

(** One iteration of [for sentence in sentences]. *)
Definition acc_step (size : Z) (st : acc_state) (sentence : str) : acc_state :=
  let '(chunks, current_chunk) := st in
  let sentence := strip sentence in
  match sentence with
  | [] => st                                            (* continue *)
  | _ =>
      match current_chunk with
      | _ :: _ =>
          if (len current_chunk + len sentence + 1 >? size)%Z
          then (chunks ++ [strip current_chunk], sentence)
          else (chunks, current_chunk ++ lit " " ++ sentence)
      | [] => (chunks, sentence)
      end
  end.

Definition accumulate (size : Z) (sentences : list str) : list str :=
  let '(chunks, current_chunk) := fold_left (acc_step size) sentences ([], []) in
  match strip current_chunk with
  | [] => chunks
  | last => chunks ++ [last]
  end.

(** [range(0, stop, step)] as a list, for [0 <= stop] (the stop is a
    length here): a zero step raises [ValueError], a negative step
    gives the empty range. *)
Definition py_range0 (stop step : Z) : result (list Z) :=
  if (step =? 0)%Z then inl (ValueError RangeStepZero)
  else if (step <? 0)%Z then inr []
  else inr (map (fun j => Z.of_nat j * step)%Z
                (seq 0 (Z.to_nat ((stop + step - 1) / step)))).

(** The body of the second loop for one chunk. *)
Definition post_chunk (size : Z) (chunk : str) : result (list str) :=
  match le_size_times_1_5 (len chunk) size with
  | inl e => inl e
  | inr true => inr [chunk]
  | inr false =>
      match py_range0 (len chunk) size with
      | inl e => inl e
      | inr idx => inr (map (fun i => strip (slice chunk i (i + size))) idx)
      end
  end.

(** The hard split as the design document words it: the chunk cut into
    consecutive slices of [size] characters, each trimmed. *)
Fixpoint fixed_slices (fuel size : nat) (chunk : str) : list str :=
  match fuel with
  | O => []
  | S fuel' =>
      match chunk with
      | [] => []
      | _ :: _ => firstn size chunk :: fixed_slices fuel' size (skipn size chunk)
      end
  end.

Definition hard_split_spec (size : Z) (chunk : str) : list str :=
  map strip (fixed_slices (length chunk) (Z.to_nat size) chunk).

(** The second loop as the design document words it: a chunk that passes
    the test is kept, any other is replaced by its hard split. *)
Definition post_pass_spec (size : Z) (chunks : list str) : list str :=
  flat_map (fun c => match le_size_times_1_5 (len c) size with
                     | inr false => hard_split_spec size c
                     | _ => [c]
                     end) chunks.

Fixpoint post_pass (size : Z) (chunks : list str) : result (list str) :=
  match chunks with
  | [] => inr []
  | c :: rest =>
      match post_chunk size c with
      | inl e => inl e
      | inr cs => match post_pass size rest with
                  | inl e => inl e
                  | inr more => inr (cs ++ more)
                  end
      end
  end.

Definition nonempty (c : str) : bool :=
  match c with [] => false | _ :: _ => true end.

Definition _chunk_text (text : str) (size : Z) : result (list str) :=
  match strip text with
  | [] => inr []
  | text =>
      let sentences := re_split text in
      let chunks := accumulate size sentences in
      match post_pass size chunks with
      | inl e => inl e
      | inr final_chunks => inr (filter nonempty final_chunks)
      end
  end.

End Chunker.
Import Chunker.

(* ================================================================== *)
(** ** Corpus loader: [_load_and_chunk_faqs] *)

Module Loader.

(** What [read_text(encoding="utf-8")] raises on an entry that [glob]
    has listed and that cannot be read as text. *)
Inductive read_error :=
| NoSuchFile          (* FileNotFoundError: a link to nothing *)
| IsADirectory        (* IsADirectoryError: the entry is a directory *)
| PermissionDenied    (* PermissionError *)
| NotUtf8.            (* UnicodeDecodeError *)

Definition exn_of_read_error (e : read_error) : exn :=
  match e with
  | NoSuchFile => FileNotFoundError
  | IsADirectory => IsADirectoryError
  | PermissionDenied => PermissionError
  | NotUtf8 => UnicodeDecodeError
  end.

(** A directory as the loader sees it: the entries it holds, each a name
    with what [read_text(encoding="utf-8")] gives for it, the text or
    the error. *)
Definition directory := list (str * (read_error + str)).

(** What a path names: a directory, or something else for which
    [exists()] is true and [glob] finds nothing (a regular file). *)
Inductive node :=
| NotADirectory
| Directory (d : directory).

(** The file system: what a path names, if anything ([None] when
    [exists()] is false). *)
Definition filesystem := str -> option node.

Definition entries (n : node) : directory :=
  match n with
  | NotADirectory => []
  | Directory d => d
  end.

(** [glob("*.md")] on the entries: those whose name ends in [.md]. *)
Definition glob_md (d : directory) : directory :=
  filter (fun e => endswith (fst e) (lit ".md")) d.

Fixpoint insert_path (e : str * (read_error + str)) (l : directory) : directory :=
  match l with
  | [] => [e]
  | y :: t => if str_leb (fst e) (fst y) then e :: l else y :: insert_path e t
  end.

(** [sorted(paths)]: entries of one directory are ordered by name. *)
Definition sorted_paths (d : directory) : directory :=
  fold_right insert_path [] d.

(** The loop over [md_files], extending [all_chunks] and [all_sources]. *)
Fixpoint load_files (size : Z) (md_files : directory)
         (all_chunks all_sources : list str) : result (list str * list str) :=
  match md_files with
  | [] => inr (all_chunks, all_sources)
  | (filename, read_text) :: rest =>
      match read_text with
      | inl e => inl (exn_of_read_error e)
      | inr content =>
          match _chunk_text content size with
          | inl e => inl e
          | inr chunks =>
              load_files size rest (all_chunks ++ chunks)
                         (all_sources ++ repeat filename (length chunks))
          end
      end
  end.

(** [CHUNK_SIZE] is read from the environment; it is an argument here. *)
Definition _load_and_chunk_faqs (fs : filesystem) (CHUNK_SIZE : Z)
           (faq_dir : str) : result (list str * list str) :=
  match fs faq_dir with
  | None => inl FileNotFoundError
  | Some n =>
      let md_files := sorted_paths (glob_md (entries n)) in
      match md_files with
      | [] => inl (ValueError NoMdFiles)
      | _ => load_files CHUNK_SIZE md_files [] []
      end
  end.

(** An entry that [read_text] reads. *)
Definition readable (e : str * (read_error + str)) : Prop :=
  exists text, snd e = inr text.

(** An entry that [read_text] reads as nothing but whitespace. *)
Definition blank (e : str * (read_error + str)) : Prop :=
  exists text, snd e = inr text /\ strip text = [].

End Loader.
Import Loader.

(* ================================================================== *)
(** ** Top-k normalisation *)

(** [TOP_K_DEFAULT], as configured when the environment does not set it. *)
Definition TOP_K_DEFAULT : Z := 4.

(** [top_k or default]: [None] and [0] are falsy. *)
Definition py_or (top_k : option Z) (default : Z) : Z :=
  match top_k with
  | None => default
  | Some n => if (n =? 0)%Z then default else n
  end.

(** [max(1, min(10, top_k or TOP_K_DEFAULT))] in [ask_faq_core]. *)
Definition clamp_top_k (default : Z) (top_k : option Z) : Z :=
  Z.max 1 (Z.min 10 (py_or top_k default)).

(** The adjustment in the MCP tool [ask_faq], before it calls the core:
    [if top_k is None or top_k <= 0 or top_k > 10: top_k = 4]. *)
Definition mcp_top_k (top_k : option Z) : Z :=
  match top_k with
  | None => 4
  | Some n => if ((n <=? 0) || (n >? 10))%Z then 4 else n
  end.

(* ================================================================== *)
(** ** Distinct sorted sources: [sorted(set(top_sources))] *)

Fixpoint py_set (l : list str) : list str :=
  match l with
  | [] => []
  | x :: t => if existsb (str_eqb x) t then py_set t else x :: py_set t
  end.

Fixpoint insert_str (x : str) (l : list str) : list str :=
  match l with
  | [] => [x]
  | y :: t => if str_leb x y then x :: l else y :: insert_str x t
  end.

Definition sorted (l : list str) : list str := fold_right insert_str [] l.

Definition str_lt (a b : str) : Prop := str_ltb a b = true.

(* ================================================================== *)
(** ** Retrieval: [np.argsort(similarities)[-top_k:][::-1]] *)

Module Retriever.

Section Ranking.

Context {A : Type} (leb : A -> A -> bool).

(** [np.argsort] promises an ascending order; the order it leaves equal
    values in is a matter of the sort kind, and the default kind is not
    stable.  That order is an argument here: [tie a i] is the rank of
    index [i] among the indices of [a] that hold an equal value (indices
    of equal value and equal rank stay in index order).  Every ascending
    arrangement of the indices is the argsort for some [tie]
    ([argsort_any_order] below). *)
Context (tie : list A -> nat -> nat).

(** [before a p q]: the indexed value [p] goes before [q] in the argsort
    of [a]: its value is smaller, or equal with a tie that goes to [p]. *)
Definition before (a : list A) (p q : nat * A) : bool :=
  if leb (snd q) (snd p)
  then leb (snd p) (snd q)
       && ((tie a (fst p) <? tie a (fst q))%nat
           || ((tie a (fst p) =? tie a (fst q))%nat && (fst p <=? fst q)%nat))
  else true.

Fixpoint insert_idx (a : list A) (x : nat * A) (l : list (nat * A))
  : list (nat * A) :=
  match l with
  | [] => [x]
  | y :: t => if before a x y then x :: l else y :: insert_idx a x t
  end.

(** [enumerate(a)] *)
Definition enumerate (a : list A) : list (nat * A) :=
  combine (seq 0 (length a)) a.

(** The indices of [a] with their values, in ascending order of value. *)
Definition argsort_pairs (a : list A) : list (nat * A) :=
  fold_right (insert_idx a) [] (enumerate a).

(** [np.argsort(a)] *)
Definition argsort (a : list A) : list nat := map fst (argsort_pairs a).

(** [l[-k:]]: the last [k] elements for a positive [k] (all of [l] when
    [k] exceeds its length); [l[-0:]] is [l[0:]], and a negative [k]
    makes [-k] a start index from the front. *)
Definition last_slice {B : Type} (k : Z) (l : list B) : list B :=
  if (k <=? 0)%Z then skipn (Z.to_nat (- k)) l
  else skipn (length l - Z.to_nat k) l.

(** [top_indices = np.argsort(similarities)[-top_k:][::-1]] *)
Definition top_indices (similarities : list A) (top_k : Z) : list nat :=
  rev (last_slice top_k (argsort similarities)).

End Ranking.

(** Ties left in index order: what a stable sort does. *)
Definition index_order {A : Type} (_ : list A) (i : nat) : nat := i.

(** Ties ranked by a given list of indices, earliest first. *)
Fixpoint position (p : list nat) (i : nat) : nat :=
  match p with
  | [] => 0
  | j :: rest => if (j =? i)%nat then 0 else S (position rest i)
  end.

End Retriever.
Import Retriever.

(* ================================================================== *)
(** ** The world of [rag_core]: globals and remote services *)

(** Floating-point vectors and the two OpenAI endpoints are outside the
    model; what the core needs of them is this interface.  Similarity
    scores are compared with [score_leb] ([<=] on floats). *)
Class Platform := {
  vec : Type;
  score : Type;
  score_leb : score -> score -> bool;
  (** the number of components of a vector *)
  dim : vec -> nat;
  (** [v / (np.linalg.norm(v) + 1e-9)] *)
  l2_normalize : vec -> vec;
  (** the dot product of two vectors of one dimension *)
  dot : vec -> vec -> score;
  (** the order the sort kind of [np.argsort] leaves equal scores in *)
  argsort_tie : list score -> nat -> nat
}.

(** A request sent to a remote service. *)
Inductive call :=
| EmbeddingsCreate (input : list str)
| ChatCompletionsCreate (system_prompt user_prompt : str).

(** The remote services.  A reply may depend on everything sent so far;
    [None] is a raised client error.  The reply of the embeddings
    endpoint is [response.data], as the list of its [item.embedding];
    the reply of the chat endpoint is [response.choices], as the list of
    its [choice.message.content], [None] for a null content. *)
Class Services `{Platform} := {
  embeddings_create : list call -> list str -> option (list vec);
  chat_completions_create : list call -> str -> str -> option (list (option str))
}.

Section Core.

Context `{Services}.

(** The module globals [_CHUNKS], [_SOURCES] and [_CHUNK_EMBEDS]. *)
Record store := {
  _CHUNKS : list str;
  _SOURCES : list str;
  _CHUNK_EMBEDS : option (list vec)
}.

Record world := {
  globals : store;
  sent : list call     (* requests sent so far, oldest first *)
}.

(** Computations of the core: they read and write the world and may
    raise. *)
Definition M (X : Type) : Type := world -> result X * world.

Definition ret {X} (x : X) : M X := fun w => (inr x, w).

Definition raise {X} (e : exn) : M X := fun w => (inl e, w).

Definition bind {X Y} (m : M X) (f : X -> M Y) : M Y :=
  fun w => match m w with
           | (inl e, w') => (inl e, w')
           | (inr x, w') => f x w'
           end.

Notation "x <- m ;; k" := (bind m (fun x => k))
  (at level 61, m at next level, right associativity).

(** Reading a module global. *)
Definition read {X} (g : store -> X) : M X := fun w => (inr (g (globals w)), w).

(** [client.embeddings.create(model=EMBED_MODEL, input=texts)] *)
Definition call_embeddings (texts : list str) : M (list vec) :=
  fun w =>
    let w' := {| globals := globals w;
                 sent := sent w ++ [EmbeddingsCreate texts] |} in
    match embeddings_create (sent w) texts with
    | None => (inl ServiceError, w')
    | Some vs => (inr vs, w')
    end.

(** [client.chat.completions.create(...)], giving [response.choices]. *)
Definition call_chat (system_prompt user_prompt : str) : M (list (option str)) :=
  fun w =>
    let w' := {| globals := globals w;
                 sent := sent w ++ [ChatCompletionsCreate system_prompt user_prompt] |} in
    match chat_completions_create (sent w) system_prompt user_prompt with
    | None => (inl ServiceError, w')
    | Some choices => (inr choices, w')
    end.

(** A pure computation that may raise. *)
Definition lift {X} (r : result X) : M X :=
  match r with
  | inl e => raise e
  | inr x => ret x
  end.

(** [xs[i]] on a Python list. *)
Definition index {X} (xs : list X) (i : nat) : M X :=
  match nth_error xs i with
  | Some x => ret x
  | None => raise IndexError
  end.

(** A comprehension [[f(i) for i in idx]] whose body may raise. *)
Fixpoint for_each {X Y} (f : X -> M Y) (idx : list X) : M (list Y) :=
  match idx with
  | [] => ret []
  | i :: rest => y <- f i ;; ys <- for_each f rest ;; ret (y :: ys)
  end.

Definition _embed_query (query : str) : M vec :=
  data <- call_embeddings [query] ;;
  index data 0.

(** [np.array(rows, dtype=np.float32)] on a list of vectors: the matrix
    of these rows, which is the list itself; the empty list gives the
    one-dimensional empty array, and rows of different lengths are
    refused. *)
Definition np_array (rows : list vec) : result (list vec) :=
  match rows with
  | [] => inr []
  | r :: rest =>
      if forallb (fun x => (dim x =? dim r)%nat) rest then inr rows
      else inl (NumpyError InhomogeneousShape)
  end.

(** [_cosine_similarity]: [np.linalg.norm(embeddings, axis=1, ...)] has
    no axis 1 to work on when [embeddings] is the one-dimensional empty
    array, and [emb_norm @ query_norm] needs rows of the dimension of the
    query. *)
Definition _cosine_similarity (embeddings : list vec) (query_vec : vec)
  : result (list score) :=
  match embeddings with
  | [] => inl (NumpyError AxisOutOfBounds)
  | _ :: _ =>
      let query_norm := l2_normalize query_vec in
      if forallb (fun row => (dim row =? dim query_vec)%nat) embeddings
      then inr (map (fun row => dot (l2_normalize row) query_norm) embeddings)
      else inl (NumpyError MatmulMismatch)
  end.

Definition system_prompt : str :=
  lit "You are a helpful assistant that answers questions based ONLY on the provided context.

Rules:
1. Answer the question using ONLY information from the context below.
2. If the context doesn't contain enough information, say so.
3. Always cite the source files in your answer (mention them by filename).
4. Be concise and direct.
5. If multiple sources are relevant, mention all of them.".

Definition nl : str := [10%N].

Definition _generate_answer (context question : str) (source_files : list str)
  : M str :=
  let user_prompt :=
    lit "Context:" ++ nl ++ context ++ nl ++ nl
    ++ lit "Question: " ++ question ++ nl ++ nl
    ++ lit "Available source files: "
    ++ join (lit ", ") (sorted (py_set source_files)) ++ nl ++ nl
    ++ lit "Please answer the question and cite the relevant source file(s)." in
  choices <- call_chat system_prompt user_prompt ;;
  content <- index choices 0 ;;
  match content with
  | None => raise AttributeError
  | Some content => ret (strip content)
  end.

(** What [ask_faq_core] returns: the dict with keys [answer] and
    [sources]. *)
Record answer_dict := {
  answer : str;
  sources : list str
}.

Definition ask_faq_core (question : option str) (top_k : option Z)
  : M answer_dict :=
  let q := strip (match question with Some s => s | None => [] end) in
  match q with
  | [] => raise (ValueError QuestionRequired)
  | _ =>
      let top_k := clamp_top_k TOP_K_DEFAULT top_k in
      embeds <- read _CHUNK_EMBEDS ;;
      chunks <- read _CHUNKS ;;
      match embeds, chunks with
      | None, _ | _, [] => raise RuntimeError
      | Some embeds, _ :: _ =>
          query_emb <- _embed_query q ;;
          similarities <- lift (_cosine_similarity embeds query_emb) ;;
          let top_indices := top_indices score_leb argsort_tie similarities top_k in
          top_sources <-
            for_each (fun i => srcs <- read _SOURCES ;; index srcs i) top_indices ;;
          context_parts <-
            for_each (fun i =>
                        srcs <- read _SOURCES ;; s <- index srcs i ;;
                        chs <- read _CHUNKS ;; c <- index chs i ;;
                        ret (lit "[From " ++ s ++ lit "]" ++ nl ++ c))
                     top_indices ;;
          let context := join (nl ++ nl ++ lit "---" ++ nl ++ nl) context_parts in
          answer <- _generate_answer context q top_sources ;;
          let distinct_sources := sorted (py_set top_sources) in
          ret {| answer := answer; sources := distinct_sources |}
      end
  end.

(** Assigning module globals (the [global] statement of [_preload]). *)
Definition write (f : store -> store) : M unit :=
  fun w => (inr tt, {| globals := f (globals w); sent := sent w |}).

(** [_embed_texts]: no request is made for an empty list. *)
Definition _embed_texts (texts : list str) : M (list vec) :=
  match texts with
  | [] => lift (np_array [])
  | _ =>
      embeddings <- call_embeddings texts ;;
      lift (np_array embeddings)
  end.

(** [_preload], run once when the module is imported. *)
Definition _preload (fs : filesystem) (CHUNK_SIZE : Z) (FAQ_DIR : str) : M unit :=
  match _load_and_chunk_faqs fs CHUNK_SIZE FAQ_DIR with
  | inl e => raise e
  | inr (chunks, sources) =>
      _ <- write (fun st => {| _CHUNKS := chunks; _SOURCES := sources;
                               _CHUNK_EMBEDS := _CHUNK_EMBEDS st |}) ;;
      texts <- read _CHUNKS ;;
      embeds <- _embed_texts texts ;;
      write (fun st => {| _CHUNKS := _CHUNKS st; _SOURCES := _SOURCES st;
                          _CHUNK_EMBEDS := Some embeds |})
  end.

(** The MCP tool [ask_faq] of [mcp_server.py]. *)
Definition ask_faq (question : option str) (top_k : option Z) : M answer_dict :=
  let q := strip (match question with Some s => s | None => [] end) in
  match q with
  | [] => raise (ValueError QuestionRequiredMcp)
  | _ =>
      let top_k := mcp_top_k top_k in
      result <- ask_faq_core (Some q) (Some top_k) ;;
      ret {| answer := answer result; sources := sources result |}
  end.

End Core.

(* ================================================================== *)
(** ** Effects of a computation *)

Section Effects.

Context `{Services}.

(** [m] leaves the module globals as they are. *)
Definition keeps_globals {X} (m : M X) : Prop :=
  forall w, globals (snd (m w)) = globals w.

(** Every exception [m] can raise satisfies [P]. *)
Definition raises_only {X} (P : exn -> Prop) (m : M X) : Prop :=
  forall w e, fst (m w) = inl e -> P e.

(** The question as [ask_faq_core] and [ask_faq] read it:
    [(question or "").strip()]. *)
Definition trimmed_question (question : option str) : str :=
  strip (match question with Some s => s | None => [] end).

(** The store is aligned: one embedding row per chunk. *)
Definition aligned (st : store) : Prop :=
  forall embeds, _CHUNK_EMBEDS st = Some embeds ->
                 length embeds = length (_CHUNKS st).

End Effects.

(* ================================================================== *)
(** ** A small concrete world

    Integer stand-ins for the vectors and scripted replies for the two
    services, on which the definitions above can be run. *)

Module Demo.

Definition platform : Platform := {|
  vec := list Z;
  score := Z;
  score_leb := Z.leb;
  dim := @length Z;
  l2_normalize := fun v => v;
  dot := fun u v => fold_right Z.add 0%Z (map (fun p => (fst p * snd p)%Z) (combine u v));
  argsort_tie := index_order
|}.

Definition embed_reply (_ : list call) (texts : list str) : option (list (list Z)) :=
  Some (map (fun t => [len t]) texts).

Definition chat_reply (_ : list call) (_ _ : str) : option (list (option str)) :=
  Some [Some (lit " See a.md and b.md. ")].

Definition services : @Services platform :=
  Build_Services platform embed_reply chat_reply.

Definition corpus : @store platform :=
  @Build_store platform
    [lit "Returns take 30 days."; lit "Plans start at $5.";
     lit "Annual plans are cheaper."]
    [lit "b.md"; lit "a.md"; lit "a.md"]
    (Some [[3]; [5]; [5]]%Z).

Definition start : @world platform := @Build_world platform corpus [].

(** The world before [_preload] has run. *)
Definition fresh : @world platform :=
  @Build_world platform (@Build_store platform [] [] None) [].

(** Services that fail on every request. *)
Definition no_embed (_ : list call) (_ : list str) : option (list (list Z)) := None.

Definition no_chat (_ : list call) (_ _ : str) : option (list (option str)) := None.

Definition offline : @Services platform :=
  Build_Services platform no_embed no_chat.

(** A chat service whose reply holds no choice. *)
Definition no_choice (_ : list call) (_ _ : str) : option (list (option str)) :=
  Some [].

Definition speechless : @Services platform :=
  Build_Services platform embed_reply no_choice.

(** A store whose embeddings have two components where the replies of
    [embed_reply] have one. *)
Definition misfit : @world platform :=
  @Build_world platform
    (@Build_store platform [lit "Plans start at $5."] [lit "a.md"]
                  (Some [[3; 4]]%Z)) [].

(** What [ask_faq_core] answers in [start] to the question [" price? "]
    with no [top_k]. *)
Definition expected : @answer_dict :=
  {| answer := lit "See a.md and b.md.";
     sources := [lit "a.md"; lit "b.md"] |}.

Definition faq_fs : filesystem := fun path =>
  if str_eqb path (lit "faqs")
  then Some (Directory
               [(lit "b.md", inr (lit "Returns take 30 days. Keep the receipt."));
                (lit "notes.txt", inr (lit "not part of the corpus"));
                (lit "a.md", inr (lit "Plans start at $5."))])
  else if str_eqb path (lit "empty")
  then Some (Directory [(lit "notes.txt", inr (lit "x"))])
  else if str_eqb path (lit "faqs/notes.txt") then Some NotADirectory
  else if str_eqb path (lit "links")
  then Some (Directory [(lit "gone.md", inl NoSuchFile)])
  else None.

(** A directory whose markdown files hold nothing but whitespace. *)
Definition blank_fs : filesystem := fun path =>
  if str_eqb path (lit "faqs")
  then Some (Directory [(lit "a.md", inr (lit "   ")); (lit "b.md", inr [])])
  else None.

End Demo.

(* ================================================================== *)
(** ** Ranking order *)

(** [by_value leb p q]: the value of the indexed value [p] is at most
    that of [q]. *)
Definition by_value {A : Type} (leb : A -> A -> bool) (p q : nat * A) : Prop :=
  leb (snd p) (snd q) = true.

(* ================================================================== *)
(** ** Computations without effect *)

Section Silent.

Context `{Services}.

(** [m] changes nothing in the world: no global is written and no
    request is sent, whether it returns or raises. *)
Definition silent {X} (m : M X) : Prop :=
  forall w, snd (m w) = w.

(** The store is well formed: one source label per chunk and, once the
    embeddings are there, one row per chunk. *)
Definition well_formed (st : store) : Prop :=
  length (_SOURCES st) = length (_CHUNKS st) /\ aligned st.

End Silent.

(* ================================================================== *)
(** ** HTTP endpoint: [ask] of [api_server.py] *)

Module Api.

(** The request body [AskRequest], once parsed. *)
Record AskRequest := {
  question : str;
  top_k : option Z
}.

(** The [Field] constraints of [AskRequest]: [question] has 1 to 1000
    characters, and [top_k], when it is not null, lies in [1,10]. *)
Definition valid (body : AskRequest) : bool :=
  ((1 <=? len (question body)) && (len (question body) <=? 1000))%Z
  && match top_k body with
     | None => true
     | Some n => ((1 <=? n) && (n <=? 10))%Z
     end.

(** The [detail] of an [HTTPException]: [str(e)] of the [ValueError]
    caught, or the fixed text. *)
Inductive detail :=
| StrOfValueError (m : value_error)
| StrOfNumpyError (e : numpy_error)
| StrOfUnicodeDecodeError
| InternalServerError.            (* "Internal server error" *)

Inductive http_exception :=
| HTTPException (status_code : Z) (d : detail).

Section Handler.

Context `{Services}.

(** [ask(body)]: the core is called with the trimmed question and
    [body.top_k or 4]; a [ValueError] becomes status 400 with its
    message, any other exception status 500 with the fixed text.  The
    log lines are not part of the model. *)
Definition ask (body : AskRequest) (w : world)
  : (http_exception + answer_dict) * world :=
  match ask_faq_core (Some (strip (question body)))
                     (Some (py_or (top_k body) 4)) w with
  | (inr result, w') =>
      (inr {| answer := answer result; sources := sources result |}, w')
  | (inl (ValueError m), w') =>
      (inl (HTTPException 400 (StrOfValueError m)), w')
  | (inl (NumpyError e), w') =>
      (inl (HTTPException 400 (StrOfNumpyError e)), w')
  | (inl UnicodeDecodeError, w') =>
      (inl (HTTPException 400 StrOfUnicodeDecodeError), w')
  | (inl _, w') =>
      (inl (HTTPException 500 InternalServerError), w')
  end.

End Handler.

End Api.

(* ================================================================== *)
(** ** API key: [_get_api_key] *)

Module ApiKey.

(** What [_get_api_key] raises: [RuntimeError("API key cannot be empty")]. *)
Inductive key_error := KeyEmpty.

(** The outcome of [_get_api_key]: the key or the error, the value of
    [OPENAI_API_KEY] in the environment afterwards, and whether the user
    was prompted. *)
Record outcome := {
  returned : key_error + str;
  environ_after : option str;
  prompted : bool
}.

(** [environ] is the value of [OPENAI_API_KEY] ([None] when unset) and
    [typed] what [getpass] reads if it is called. *)
Definition _get_api_key (environ : option str) (typed : str) : outcome :=
  match environ with
  | Some (c :: k) =>
      {| returned := inr (c :: k); environ_after := environ; prompted := false |}
  | _ =>
      match strip typed with
      | [] => {| returned := inl KeyEmpty; environ_after := environ;
                 prompted := true |}
      | key => {| returned := inr key; environ_after := Some key;
                  prompted := true |}
      end
  end.

End ApiKey.

(* ================================================================== *)
(** ** Facts about [strip] and whitespace removal *)

Section StripFacts.

Lemma lstrip_no_lead s : no_lead (lstrip s).
Proof.
  induction s as [|c t IH]; simpl; [exact I|].
  destruct (is_space c) eqn:E; [exact IH | simpl; exact E].
Qed.

Lemma lstrip_id s : no_lead s -> lstrip s = s.
Proof.
  destruct s as [|c t]; simpl; intros H; [reflexivity|].
  now rewrite H.
Qed.

Lemma lstrip_split s :
  exists ws, s = ws ++ lstrip s /\ forallb is_space ws = true.
Proof.
  induction s as [|c t [ws [Hs Hw]]]; simpl.
  - exists []; auto.
  - destruct (is_space c) eqn:E.
    + exists (c :: ws); simpl; rewrite E, Hw; split; [now f_equal | reflexivity].
    + exists []; auto.
Qed.

Lemma lstrip_length s : (length (lstrip s) <= length s)%nat.
Proof.
  destruct (lstrip_split s) as [ws [Hs _]].
  rewrite Hs at 2. rewrite length_app. lia.
Qed.

Lemma strip_length s : (length (strip s) <= length s)%nat.
Proof.
  unfold strip, rstrip. rewrite length_rev.
  etransitivity; [apply lstrip_length|].
  rewrite length_rev. apply lstrip_length.
Qed.

Lemma strip_idem s : strip (strip s) = strip s.
Proof.
  unfold strip, rstrip.
  set (t := lstrip s). set (u := lstrip (rev t)).
  assert (Ht : no_lead t) by apply lstrip_no_lead.
  assert (Hu : no_lead u) by apply lstrip_no_lead.
  assert (Hr : no_lead (rev u)).
  { destruct (lstrip_split (rev t)) as [ws [Hs _]]. fold u in Hs.
    apply (f_equal (@rev _)) in Hs. rewrite rev_involutive, rev_app_distr in Hs.
    destruct (rev u) as [|c r]; [exact I|].
    rewrite Hs in Ht. exact Ht. }
  rewrite (lstrip_id _ Hr), rev_involutive, (lstrip_id _ Hu). reflexivity.
Qed.

Lemma remove_ws_app a b : remove_ws (a ++ b) = remove_ws a ++ remove_ws b.
Proof. apply filter_app. Qed.

Lemma remove_ws_all_space ws : forallb is_space ws = true -> remove_ws ws = [].
Proof.
  induction ws as [|c t IH]; simpl; [reflexivity|].
  destruct (is_space c); simpl; [exact IH | discriminate].
Qed.

Lemma remove_ws_lstrip s : remove_ws (lstrip s) = remove_ws s.
Proof.
  destruct (lstrip_split s) as [ws [Hs Hw]].
  rewrite Hs at 2. rewrite remove_ws_app, (remove_ws_all_space _ Hw). reflexivity.
Qed.

Lemma remove_ws_rev s : remove_ws (rev s) = rev (remove_ws s).
Proof.
  induction s as [|c t IH]; simpl; [reflexivity|].
  rewrite remove_ws_app, IH. simpl.
  destruct (is_space c); simpl; [now rewrite app_nil_r | reflexivity].
Qed.

Lemma remove_ws_strip s : remove_ws (strip s) = remove_ws s.
Proof.
  unfold strip, rstrip.
  rewrite remove_ws_rev, remove_ws_lstrip, remove_ws_rev, rev_involutive.
  apply remove_ws_lstrip.
Qed.

Lemma strip_nil_remove_ws s : strip s = [] -> remove_ws s = [].
Proof. intros H. rewrite <- remove_ws_strip, H. reflexivity. Qed.

End StripFacts.

(* ================================================================== *)
(** ** Facts about the chunker *)

Section ChunkerFacts.

Lemma stripped_strip s : stripped (strip s).
Proof. apply strip_idem. Qed.

Lemma remove_ws_concat_strip l :
  remove_ws (concat (map strip l)) = remove_ws (concat l).
Proof.
  induction l as [|x l IH]; simpl; [reflexivity|].
  now rewrite !remove_ws_app, remove_ws_strip, IH.
Qed.

Lemma concat_filter_nonempty l : concat (filter nonempty l) = concat l.
Proof.
  induction l as [|x l IH]; simpl; [reflexivity|].
  destruct x; simpl; [exact IH | now rewrite IH].
Qed.

(** *** The sentence split only drops whitespace *)

Lemma re_split_aux_remove_ws s : forall in_sep prev cur,
  remove_ws (concat (re_split_aux in_sep prev cur s)) = remove_ws (rev cur ++ s).
Proof.
  induction s as [|c t IH]; intros in_sep prev cur; simpl.
  - reflexivity.
  - destruct (is_space c) eqn:Ec; simpl.
    + assert (Hc : remove_ws (rev cur ++ c :: t) = remove_ws (rev cur ++ t)).
      { rewrite !remove_ws_app. simpl. now rewrite Ec. }
      destruct in_sep; simpl.
      * now rewrite IH.
      * destruct (match prev with Some p => is_boundary p | None => false end).
        -- cbn [concat]. rewrite remove_ws_app, IH, Hc. simpl.
           now rewrite remove_ws_app.
        -- rewrite IH. simpl. rewrite <- app_assoc. simpl.
           rewrite !remove_ws_app. simpl. now rewrite Ec.
    + rewrite IH. simpl. now rewrite <- app_assoc.
Qed.

Lemma re_split_remove_ws text :
  remove_ws (concat (re_split text)) = remove_ws text.
Proof. unfold re_split. now rewrite re_split_aux_remove_ws. Qed.

(** *** The accumulation loop *)

Lemma space_is_space : remove_ws (lit " ") = [].
Proof. reflexivity. Qed.

Lemma acc_step_remove_ws size (chunks : list str) (cur : str) sentence :
  remove_ws (concat (fst (acc_step size (chunks, cur) sentence))
             ++ snd (acc_step size (chunks, cur) sentence))
  = remove_ws (concat chunks ++ cur) ++ remove_ws sentence.
Proof.
  unfold acc_step.
  rewrite <- (remove_ws_strip sentence).
  destruct (strip sentence) as [|a sent]; [simpl; now rewrite app_nil_r|].
  destruct cur as [|b cur]; [simpl; now rewrite app_nil_r, remove_ws_app|].
  destruct (len (b :: cur) + len (a :: sent) + 1 >? size)%Z; cbn [fst snd].
  - rewrite concat_app. cbn [concat]. rewrite app_nil_r.
    rewrite !remove_ws_app, remove_ws_strip. reflexivity.
  - rewrite !remove_ws_app, space_is_space. simpl. now rewrite <- app_assoc.
Qed.

Lemma acc_step_stripped size (chunks : list str) (cur : str) sentence :
  Forall stripped chunks ->
  Forall stripped (fst (acc_step size (chunks, cur) sentence)).
Proof.
  intros H. unfold acc_step.
  destruct (strip sentence) as [|a sent]; [exact H|].
  destruct cur as [|b cur]; [exact H|].
  destruct (len (b :: cur) + len (a :: sent) + 1 >? size)%Z; cbn [fst]; [|exact H].
  apply Forall_app. split; [exact H|].
  constructor; [apply stripped_strip | constructor].
Qed.

Lemma fold_acc_step size sentences : forall (chunks : list str) (cur : list char),
  remove_ws (concat (fst (fold_left (acc_step size) sentences (chunks, cur)))
             ++ snd (fold_left (acc_step size) sentences (chunks, cur)))
  = remove_ws (concat chunks ++ cur) ++ remove_ws (concat sentences)
  /\ (Forall stripped chunks ->
      Forall stripped (fst (fold_left (acc_step size) sentences (chunks, cur)))).
Proof.
  induction sentences as [|x rest IH]; intros chunks cur; cbn [fold_left concat].
  - cbn [fst snd]. now rewrite app_nil_r.
  - pose proof (acc_step_remove_ws size chunks cur x) as Hs.
    pose proof (acc_step_stripped size chunks cur x) as Hf.
    destruct (acc_step size (chunks, cur) x) as [chunks1 cur1].
    cbn [fst snd] in Hs, Hf.
    destruct (IH chunks1 cur1) as [H1 H2]. split.
    + rewrite H1, Hs, (remove_ws_app x), app_assoc. reflexivity.
    + intros H. apply H2, Hf, H.
Qed.

Lemma accumulate_remove_ws size sentences :
  remove_ws (concat (accumulate size sentences)) = remove_ws (concat sentences).
Proof.
  unfold accumulate.
  destruct (fold_acc_step size sentences (@nil str) (@nil char)) as [H _]. revert H.
  destruct (fold_left (acc_step size) sentences ([], [])) as [chunks cur].
  intros H. cbn [fst snd concat app] in H.
  change (remove_ws []) with (@nil char) in H. cbn [app] in H.
  rewrite <- H, remove_ws_app.
  destruct (strip cur) as [|a l] eqn:E.
  - now rewrite (strip_nil_remove_ws _ E), app_nil_r.
  - rewrite concat_app. cbn [concat]. rewrite app_nil_r, remove_ws_app.
    now rewrite <- E, remove_ws_strip.
Qed.

Lemma accumulate_stripped size sentences :
  Forall stripped (accumulate size sentences).
Proof.
  unfold accumulate.
  destruct (fold_acc_step size sentences (@nil str) (@nil char)) as [_ H]. revert H.
  destruct (fold_left (acc_step size) sentences ([], [])) as [chunks cur].
  intros H. cbn [fst] in H. specialize (H (Forall_nil _)).
  destruct (strip cur) as [|a l] eqn:E; [exact H|].
  apply Forall_app. split; [exact H|].
  constructor; [rewrite <- E; apply stripped_strip | constructor].
Qed.

End ChunkerFacts.


(* ================================================================== *)
(** ** Facts about the float comparison *)

Section FloatFacts.

Local Open Scope Z_scope.

Lemma round53_small n : Z.abs n < 2 ^ 53 -> round53 n = n.
Proof.
  intros Hn. unfold round53.
  destruct (Z.leb_spec (Z.log2 (Z.abs n) + 1 - 53) 0) as [_|Hs]; [reflexivity|].
  exfalso.
  assert (Hpos : 0 < Z.abs n).
  { destruct (Z.eq_dec (Z.abs n) 0) as [E|E]; [rewrite E in Hs; simpl in Hs; lia | lia]. }
  apply Z.log2_lt_pow2 in Hn; lia.
Qed.

Lemma round53_opp n : round53 (- n) = - round53 n.
Proof.
  unfold round53. rewrite Z.abs_opp, Z.sgn_opp. cbv zeta.
  destruct (Z.log2 (Z.abs n) + 1 - 53 <=? 0); lia.
Qed.

(** For a positive [n] the rounded value is [q' * 2 ^ s] with
    [q <= q' <= q + 1], [n = q * 2 ^ s + r], [r < 2 ^ s] and
    [2 ^ 52 <= q]. *)
Lemma round53_pos_cases n :
  0 < n ->
  round53 n = n
  \/ exists s q r q',
       0 < s /\ n = q * 2 ^ s + r /\ 0 <= r < 2 ^ s /\ 2 ^ 52 <= q
       /\ q <= q' <= q + 1 /\ round53 n = q' * 2 ^ s
       /\ 2 ^ (Z.log2 n) = 2 ^ 52 * 2 ^ s.
Proof.
  intros Hn. unfold round53. rewrite (Z.abs_eq n) by lia.
  rewrite (Z.sgn_pos n) by lia. cbv zeta.
  destruct (Z.leb_spec (Z.log2 n + 1 - 53) 0) as [_|Hs]; [now left|].
  right. set (s := Z.log2 n + 1 - 53) in *.
  assert (Hp : 0 < 2 ^ s) by (apply Z.pow_pos_nonneg; lia).
  pose proof (Z.div_mod n (2 ^ s) ltac:(lia)) as Hdm.
  pose proof (Z.mod_pos_bound n (2 ^ s) Hp) as Hr.
  pose proof (Z.log2_spec n Hn) as [Hlo _].
  assert (Hpow : 2 ^ Z.log2 n = 2 ^ 52 * 2 ^ s).
  { rewrite <- Z.pow_add_r by lia. f_equal. unfold s. lia. }
  assert (Hq : 2 ^ 52 <= n / 2 ^ s).
  { apply Z.div_le_lower_bound; [exact Hp|]. rewrite Hpow in Hlo. lia. }
  exists s, (n / 2 ^ s), (n mod 2 ^ s),
    (if (2 ^ (s - 1) <? n mod 2 ^ s) || ((n mod 2 ^ s =? 2 ^ (s - 1)) && Z.odd (n / 2 ^ s))
     then n / 2 ^ s + 1 else n / 2 ^ s).
  split; [lia|]. split; [lia|]. split; [lia|]. split; [exact Hq|].
  split; [destruct (_ || _); lia|].
  split; [now rewrite Z.mul_1_l | exact Hpow].
Qed.

Lemma round53_lower n : 0 <= n -> 7 * n <= 8 * round53 n.
Proof.
  intros Hn. destruct (Z.eq_dec n 0) as [->|Hn0]; [reflexivity|].
  destruct (round53_pos_cases n ltac:(lia)) as [-> | (s & q & r & q' & Hs & -> & Hr & Hq & Hq' & -> & _)];
    [lia|].
  assert (Hp : 0 < 2 ^ s) by (apply Z.pow_pos_nonneg; lia).
  assert (2 ^ 52 = 4503599627370496) by reflexivity. nia.
Qed.

Lemma round53_upper n : 0 <= n -> round53 n <= 2 * n.
Proof.
  intros Hn. destruct (Z.eq_dec n 0) as [->|Hn0]; [reflexivity|].
  destruct (round53_pos_cases n ltac:(lia)) as [-> | (s & q & r & q' & Hs & -> & Hr & Hq & Hq' & -> & _)];
    [lia|].
  assert (Hp : 0 < 2 ^ s) by (apply Z.pow_pos_nonneg; lia).
  assert (2 ^ 52 = 4503599627370496) by reflexivity. nia.
Qed.

Lemma round53_ge_pow2 n : 0 < n -> 2 ^ (Z.log2 n) <= round53 n.
Proof.
  intros Hn.
  destruct (round53_pos_cases n Hn) as [-> | (s & q & r & q' & Hs & E & Hr & Hq & Hq' & -> & ->)].
  - apply Z.log2_spec, Hn.
  - assert (Hp : 0 < 2 ^ s) by (apply Z.pow_pos_nonneg; lia). nia.
Qed.

(** [float(size)] exists for every size below [2 ^ 1023] in magnitude. *)
Lemma float_of_int_fits size :
  Z.abs size < 2 ^ 1023 -> float_of_int size = inr (round53 size).
Proof.
  intros Hs. unfold float_of_int. cbv zeta.
  destruct (Z.leb_spec (2 ^ 1024) (Z.abs (round53 size))) as [Hbig|_]; [|reflexivity].
  exfalso. assert (E : 2 ^ 1024 = 2 * 2 ^ 1023) by reflexivity.
  destruct (Z.le_gt_cases 0 size) as [Hpos|Hneg].
  - pose proof (round53_upper size Hpos). pose proof (round53_lower size Hpos). lia.
  - pose proof (round53_upper (- size) ltac:(lia)).
    pose proof (round53_lower (- size) ltac:(lia)).
    rewrite round53_opp in *. lia.
Qed.

(** [float(size)] raises from [2 ^ 1024] on. *)
Lemma float_of_int_overflow size :
  2 ^ 1024 <= size -> float_of_int size = inl OverflowError.
Proof.
  intros Hs. unfold float_of_int. cbv zeta.
  assert (Hpos : 0 < size).
  { assert (0 < 2 ^ 1024) by reflexivity. lia. }
  pose proof (round53_ge_pow2 size Hpos) as Hr.
  assert (Hl : 2 ^ 1024 <= 2 ^ Z.log2 size).
  { apply Z.pow_le_mono_r; [lia|]. apply Z.log2_le_pow2; [exact Hpos | exact Hs]. }
  destruct (Z.leb_spec (2 ^ 1024) (Z.abs (round53 size))); [reflexivity | lia].
Qed.

(** Within [2 ^ 51] the comparison is the exact one. *)
Lemma le_size_times_1_5_exact n size :
  Z.abs size <= 2 ^ 51 ->
  le_size_times_1_5 n size = inr (2 * n <=? 3 * size).
Proof.
  intros Hs. assert (E51 : 2 ^ 51 = 2251799813685248) by reflexivity.
  assert (E53 : 2 ^ 53 = 9007199254740992) by reflexivity.
  unfold le_size_times_1_5. rewrite float_of_int_fits.
  2:{ assert (2 ^ 53 < 2 ^ 1023) by reflexivity. lia. }
  rewrite (round53_small size) by lia.
  unfold times_1_5. cbv zeta. rewrite (round53_small (3 * size)) by lia.
  assert (E : 2 ^ 53 < 2 ^ 1025) by reflexivity.
  destruct (Z.leb_spec (2 ^ 1025) (3 * size)); [lia|].
  destruct (Z.leb_spec (3 * size) (- 2 ^ 1025)); [lia|]. reflexivity.
Qed.

(** A length up to [size] passes the test whenever [float(size)]
    exists. *)
Lemma le_size_times_1_5_within n size v :
  0 < size -> float_of_int size = inr v -> n <= size ->
  le_size_times_1_5 n size = inr true.
Proof.
  intros Hs Hv Hn. unfold le_size_times_1_5. rewrite Hv.
  unfold float_of_int in Hv. cbv zeta in Hv.
  destruct (2 ^ 1024 <=? Z.abs (round53 size)); [discriminate|].
  injection Hv as <-.
  pose proof (round53_lower size ltac:(lia)) as H1.
  pose proof (round53_lower (3 * round53 size) ltac:(lia)) as H2.
  unfold times_1_5. cbv zeta.
  destruct (Z.leb_spec (2 ^ 1025) (round53 (3 * round53 size))); [reflexivity|].
  destruct (Z.leb_spec (round53 (3 * round53 size)) (- 2 ^ 1025)) as [Hneg|_].
  - assert (0 < 2 ^ 1025) by reflexivity. lia.
  - cbn [int_le_float]. f_equal. apply Z.leb_le. lia.
Qed.

(** No length passes the test for a negative size. *)
Lemma le_size_times_1_5_negative n size v :
  size < 0 -> float_of_int size = inr v -> 0 <= n ->
  le_size_times_1_5 n size = inr false.
Proof.
  intros Hs Hv Hn. unfold le_size_times_1_5. rewrite Hv.
  unfold float_of_int in Hv. cbv zeta in Hv.
  destruct (2 ^ 1024 <=? Z.abs (round53 size)); [discriminate|].
  injection Hv as <-.
  pose proof (round53_lower (- size) ltac:(lia)) as H1.
  rewrite round53_opp in H1.
  pose proof (round53_lower (- (3 * round53 size)) ltac:(lia)) as H2.
  rewrite round53_opp in H2.
  unfold times_1_5. cbv zeta.
  destruct (Z.leb_spec (2 ^ 1025) (round53 (3 * round53 size))) as [Hbig|_].
  - assert (0 < 2 ^ 1025) by reflexivity. lia.
  - destruct (Z.leb_spec (round53 (3 * round53 size)) (- 2 ^ 1025)); [reflexivity|].
    cbn [int_le_float]. f_equal. apply Z.leb_gt. lia.
Qed.

Lemma le_size_times_1_5_error n size e :
  le_size_times_1_5 n size = inl e ->
  e = OverflowError /\ float_of_int size = inl OverflowError.
Proof.
  unfold le_size_times_1_5.
  destruct (float_of_int size) as [e'|v] eqn:E; [|discriminate].
  intros H0. injection H0 as <-. unfold float_of_int in E. cbv zeta in E.
  destruct (2 ^ 1024 <=? Z.abs (round53 size)); [|discriminate].
  injection E as <-. split; reflexivity.
Qed.

End FloatFacts.

(* ================================================================== *)
(** ** Facts about the hard split *)

Section HardSplit.

(** Consecutive slices of width [sz] cover the string once [n] of them
    reach its end. *)
Lemma slices_concat (sz : nat) : forall (n : nat) (s : str),
  (length s <= n * sz)%nat ->
  concat (map (fun j => firstn sz (skipn (j * sz) s)) (seq 0 n)) = s.
Proof.
  induction n as [|n IH]; intros s Hlen.
  - destruct s; [reflexivity | simpl in Hlen; lia].
  - cbn [seq map concat]. rewrite <- seq_shift, map_map.
    cbn [Nat.mul skipn].
    rewrite (map_ext _ (fun j => firstn sz (skipn (j * sz) (skipn sz s)))).
    + rewrite IH; [apply firstn_skipn|].
      rewrite length_skipn. simpl in Hlen. lia.
    + intros j. rewrite skipn_skipn. do 2 f_equal. simpl. lia.
Qed.

(** The slices taken at the indices of the range are the slices cut one
    after the other. *)
Lemma slices_fixed (sz : nat) : forall (n fuel : nat) (s : str),
  (0 < sz)%nat -> (n <= fuel)%nat ->
  (length s <= n * sz)%nat ->
  (n = 0 \/ (n - 1) * sz < length s)%nat ->
  map (fun j => firstn sz (skipn (j * sz) s)) (seq 0 n) = fixed_slices fuel sz s.
Proof.
  induction n as [|n IH]; intros fuel s Hsz Hfuel Hup Hlo.
  - destruct s; [|simpl in Hup; lia]. destruct fuel; reflexivity.
  - destruct fuel as [|fuel]; [lia|].
    destruct s as [|c s]; [destruct Hlo as [Hlo|Hlo]; [lia | simpl in Hlo; lia]|].
    cbn [seq map fixed_slices]. cbn [Nat.mul skipn]. f_equal.
    rewrite <- seq_shift, map_map.
    rewrite (map_ext _ (fun j => firstn sz (skipn (j * sz) (skipn sz (c :: s))))).
    + apply IH; [exact Hsz | lia | |].
      * rewrite length_skipn. rewrite Nat.mul_succ_l in Hup. lia.
      * rewrite length_skipn. destruct n as [|n]; [now left|]. right.
        destruct Hlo as [Hlo|Hlo]; [lia|].
        replace (S (S n) - 1)%nat with (S n) in Hlo by lia.
        replace (S n - 1)%nat with n by lia.
        rewrite Nat.mul_succ_l in Hlo. lia.
    + intros j. rewrite skipn_skipn. do 2 f_equal. simpl. lia.
Qed.

Lemma slice_at (chunk : str) (j : nat) (size : Z) :
  (0 < size)%Z ->
  slice chunk (Z.of_nat j * size) (Z.of_nat j * size + size)
  = firstn (Z.to_nat size) (skipn (j * Z.to_nat size) chunk).
Proof.
  intros Hs. unfold slice. f_equal.
  - f_equal. lia.
  - f_equal. rewrite Z2Nat.inj_mul by lia. now rewrite Nat2Z.id.
Qed.

Lemma range_covers (L size : Z) :
  (0 <= L)%Z -> (0 < size)%Z ->
  (Z.to_nat L <= Z.to_nat ((L + size - 1) / size) * Z.to_nat size)%nat
  /\ (Z.to_nat ((L + size - 1) / size) = 0
      \/ (Z.to_nat ((L + size - 1) / size) - 1) * Z.to_nat size < Z.to_nat L)%nat
  /\ (Z.to_nat ((L + size - 1) / size) <= Z.to_nat L)%nat.
Proof.
  intros HL Hs.
  pose proof (Z.div_mod (L + size - 1) size ltac:(lia)) as Hdm.
  pose proof (Z.mod_pos_bound (L + size - 1) size Hs) as Hm.
  assert (Hq : (0 <= (L + size - 1) / size)%Z) by (apply Z.div_pos; lia).
  set (q := ((L + size - 1) / size)%Z) in *.
  split; [|split].
  - rewrite <- Z2Nat.inj_mul by lia. apply Z2Nat.inj_le; nia.
  - destruct (Z.eq_dec q 0) as [E|E]; [left; rewrite E; reflexivity | right].
    replace (Z.to_nat q - 1)%nat with (Z.to_nat (q - 1)) by lia.
    rewrite <- Z2Nat.inj_mul by lia. apply Z2Nat.inj_lt; nia.
  - apply Z2Nat.inj_le; nia.
Qed.

(** For a positive size the loop over [range(0, len(chunk), size)] is the
    hard split of the design document. *)
Lemma range_slices_spec (size : Z) (c : str) :
  (0 < size)%Z ->
  py_range0 (len c) size
  = inr (map (fun j => Z.of_nat j * size)%Z
             (seq 0 (Z.to_nat ((len c + size - 1) / size))))
  /\ map (fun i => strip (slice c i (i + size)))
         (map (fun j => Z.of_nat j * size)%Z
              (seq 0 (Z.to_nat ((len c + size - 1) / size))))
     = hard_split_spec size c.
Proof.
  intros Hs. split.
  - unfold py_range0.
    destruct (Z.eqb_spec size 0); [lia|].
    destruct (Z.ltb_spec size 0); [lia | reflexivity].
  - unfold hard_split_spec.
    rewrite <- (map_map (fun i => slice c i (i + size)) strip). f_equal.
    rewrite map_map.
    rewrite (map_ext _ (fun j => firstn (Z.to_nat size)
                                   (skipn (j * Z.to_nat size) c)))
      by (intros j; apply slice_at, Hs).
    destruct (range_covers (len c) size ltac:(unfold len; lia) Hs) as [H1 [H2 H3]].
    assert (Hlc : Z.to_nat (len c) = length c) by (unfold len; apply Nat2Z.id).
    rewrite Hlc in H1, H2, H3.
    apply slices_fixed; [lia | exact H3 | exact H1 | exact H2].
Qed.

Lemma fixed_slices_concat (sz : nat) : forall (fuel : nat) (s : str),
  (0 < sz)%nat -> (length s <= fuel)%nat ->
  concat (fixed_slices fuel sz s) = s.
Proof.
  induction fuel as [|fuel IH]; intros s Hsz Hlen.
  - destruct s; [reflexivity | simpl in Hlen; lia].
  - destruct s as [|c s]; [reflexivity|].
    cbn [fixed_slices concat]. rewrite IH; [apply firstn_skipn | exact Hsz|].
    rewrite length_skipn. cbn [length] in *. lia.
Qed.

Lemma fixed_slices_length (sz : nat) : forall (fuel : nat) (s : str),
  Forall (fun x => (length x <= sz)%nat) (fixed_slices fuel sz s).
Proof.
  induction fuel as [|fuel IH]; intros s; [constructor|].
  destruct s as [|c s]; [constructor|].
  cbn [fixed_slices]. constructor; [apply firstn_le_length | apply IH].
Qed.

Lemma hard_split_spec_facts (size : Z) (c : str) :
  (0 < size)%Z ->
  remove_ws (concat (hard_split_spec size c)) = remove_ws c
  /\ Forall (fun x => len x <= size)%Z (hard_split_spec size c)
  /\ Forall stripped (hard_split_spec size c).
Proof.
  intros Hs. unfold hard_split_spec. split; [|split].
  - rewrite remove_ws_concat_strip, fixed_slices_concat; [reflexivity | lia | lia].
  - apply Forall_map.
    eapply Forall_impl; [|apply fixed_slices_length].
    intros x Hx. cbv beta in *. pose proof (strip_length x). unfold len. lia.
  - apply Forall_map, Forall_forall. intros x _. apply stripped_strip.
Qed.

(** What one turn of the second loop returns, when it returns. *)
Lemma post_chunk_inv (size : Z) (c : str) (cs : list str) :
  (0 < size)%Z ->
  post_chunk size c = inr cs ->
  cs = post_pass_spec size [c]
  /\ remove_ws (concat cs) = remove_ws c
  /\ Forall (fun x => le_size_times_1_5 (len x) size = inr true) cs
  /\ (stripped c -> Forall stripped cs).
Proof.
  intros Hs. unfold post_chunk, post_pass_spec. cbn [flat_map].
  destruct (le_size_times_1_5 (len c) size) as [e|[|]] eqn:E; [discriminate| |].
  - intros H0. injection H0 as <-. cbn [app concat]. rewrite app_nil_r.
    split; [reflexivity|]. split; [reflexivity|].
    split; [constructor; [exact E | constructor]|].
    intros H. constructor; [exact H | constructor].
  - destruct (range_slices_spec size c Hs) as [-> Hspec].
    rewrite Hspec. intros H0. injection H0 as <-. rewrite app_nil_r.
    destruct (hard_split_spec_facts size c Hs) as [Hr [Hl Hst]].
    split; [reflexivity|]. split; [exact Hr|]. split; [|intros _; exact Hst].
    unfold le_size_times_1_5 in E.
    destruct (float_of_int size) as [e|v] eqn:Ev; [discriminate|].
    eapply Forall_impl; [|exact Hl]. intros x Hx.
    exact (le_size_times_1_5_within _ _ _ Hs Ev Hx).
Qed.

Lemma post_chunk_total (size v : Z) (c : str) :
  (0 < size)%Z -> float_of_int size = inr v ->
  exists cs, post_chunk size c = inr cs.
Proof.
  intros Hs Hv. unfold post_chunk, le_size_times_1_5. rewrite Hv.
  destruct (int_le_float (len c) (times_1_5 v)); [eexists; reflexivity|].
  destruct (range_slices_spec size c Hs) as [-> _]. eexists. reflexivity.
Qed.

Lemma post_chunk_overflow (size : Z) (c : str) :
  float_of_int size = inl OverflowError ->
  post_chunk size c = inl OverflowError.
Proof.
  intros Hv. unfold post_chunk, le_size_times_1_5. now rewrite Hv.
Qed.

Lemma post_pass_inv (size : Z) : forall (chunks final : list str),
  (0 < size)%Z ->
  post_pass size chunks = inr final ->
  final = post_pass_spec size chunks
  /\ remove_ws (concat final) = remove_ws (concat chunks)
  /\ Forall (fun x => le_size_times_1_5 (len x) size = inr true) final
  /\ (Forall stripped chunks -> Forall stripped final).
Proof.
  induction chunks as [|c rest IH]; intros final Hs E; cbn [post_pass] in E.
  - injection E as <-. repeat split; auto.
  - destruct (post_chunk size c) as [e|cs] eqn:Ec; [discriminate|].
    destruct (post_pass size rest) as [e|more] eqn:Er; [discriminate|].
    injection E as <-.
    destruct (post_chunk_inv size c cs Hs Ec) as [E1 [R1 [B1 S1]]].
    destruct (IH more Hs eq_refl) as [E2 [R2 [B2 S2]]].
    split; [|split; [|split]].
    + unfold post_pass_spec in *. cbn [flat_map] in *.
      rewrite app_nil_r in E1. now rewrite <- E1, <- E2.
    + cbn [concat]. now rewrite concat_app, !remove_ws_app, R1, R2.
    + apply Forall_app; split; assumption.
    + intros H. inversion H; subst. apply Forall_app; split; auto.
Qed.

Lemma post_pass_total (size v : Z) : forall chunks : list str,
  (0 < size)%Z -> float_of_int size = inr v ->
  exists final, post_pass size chunks = inr final.
Proof.
  intros chunks Hs Hv. induction chunks as [|c rest [more IH]]; cbn [post_pass].
  - eexists. reflexivity.
  - destruct (post_chunk_total size v c Hs Hv) as [cs ->]. rewrite IH.
    eexists. reflexivity.
Qed.

Lemma post_pass_overflow (size : Z) (chunks : list str) :
  float_of_int size = inl OverflowError -> chunks <> [] ->
  post_pass size chunks = inl OverflowError.
Proof.
  intros Hv Hne. destruct chunks as [|c rest]; [contradiction|].
  cbn [post_pass]. now rewrite post_chunk_overflow.
Qed.

End HardSplit.

(* ================================================================== *)
(** ** Properties of [_chunk_text] *)

(** The chunks of the first pass. *)
Lemma first_pass_blank (text : str) (size : Z) :
  strip text = [] -> accumulate size (re_split (strip text)) = [].
Proof. intros ->. reflexivity. Qed.

(** What [_chunk_text] returns for a positive target size, when it
    returns: the first pass followed by the second loop as the design
    document words it; it only moved whitespace; its chunks are trimmed,
    non-empty and pass the test of the second loop. *)
Lemma chunk_text_inv (text : str) (size : Z) (chunks : list str) :
  (0 < size)%Z ->
  _chunk_text text size = inr chunks ->
  chunks = filter nonempty
             (post_pass_spec size (accumulate size (re_split (strip text))))
  /\ remove_ws (concat chunks) = remove_ws text
  /\ Forall (fun c => le_size_times_1_5 (len c) size = inr true) chunks
  /\ Forall (fun c => stripped c /\ c <> []) chunks.
Proof.
  intros Hs. unfold _chunk_text.
  destruct (strip text) as [|a t] eqn:E.
  - intros H0. injection H0 as <-. repeat split; auto.
    simpl. symmetry. apply strip_nil_remove_ws, E.
  - destruct (post_pass size (accumulate size (re_split (a :: t))))
      as [e|final] eqn:Ep; [discriminate|].
    intros H0. injection H0 as <-.
    destruct (post_pass_inv size _ _ Hs Ep) as [E1 [R1 [B1 S1]]].
    split; [now rewrite E1|]. split; [|split].
    + rewrite concat_filter_nonempty, R1, accumulate_remove_ws,
        re_split_remove_ws, <- E. apply remove_ws_strip.
    + apply Forall_forall. intros c Hc. apply filter_In in Hc.
      rewrite Forall_forall in B1. apply B1, Hc.
    + specialize (S1 (accumulate_stripped _ _)).
      apply Forall_forall. intros c Hc. apply filter_In in Hc.
      destruct Hc as [Hin Hne]. rewrite Forall_forall in S1. split.
      * apply S1, Hin.
      * intros ->. discriminate.
Qed.

(** [_chunk_text] returns for every positive size that [float] can
    take. *)
Lemma chunk_text_total (text : str) (size v : Z) :
  (0 < size)%Z -> float_of_int size = inr v ->
  exists chunks, _chunk_text text size = inr chunks.
Proof.
  intros Hs Hv. unfold _chunk_text.
  destruct (strip text) as [|a t]; [eexists; reflexivity|].
  destruct (post_pass_total size v (accumulate size (re_split (a :: t))) Hs Hv)
    as [final ->].
  eexists. reflexivity.
Qed.

Lemma chunk_text_returns (text : str) (size : Z) :
  (0 < size < 2 ^ 1023)%Z ->
  exists chunks, _chunk_text text size = inr chunks.
Proof.
  intros Hs. apply (chunk_text_total text size (round53 size)); [lia|].
  apply float_of_int_fits. lia.
Qed.

Lemma accumulate_nonblank (size : Z) (text : str) :
  strip text <> [] -> accumulate size (re_split (strip text)) <> [].
Proof.
  intros Hne Hacc.
  pose proof (accumulate_remove_ws size (re_split (strip text))) as Hr.
  rewrite Hacc, re_split_remove_ws, remove_ws_strip in Hr. simpl in Hr.
  assert (Hl : lstrip text = []).
  { clear -Hr. induction text as [|c t IH]; simpl in *; [reflexivity|].
    destruct (is_space c); simpl in *; [now apply IH | discriminate]. }
  apply Hne. unfold strip. now rewrite Hl.
Qed.

(** Beyond the range of [float] the chunker raises on every text that is
    not blank. *)
Lemma chunk_text_overflow (text : str) (size : Z) :
  (2 ^ 1024 <= size)%Z -> strip text <> [] ->
  _chunk_text text size = inl OverflowError.
Proof.
  intros Hs Hne. pose proof (accumulate_nonblank size text Hne) as Hacc.
  unfold _chunk_text. destruct (strip text) as [|a t] eqn:Et; [contradiction|].
  rewrite post_pass_overflow; [reflexivity | | exact Hacc].
  apply float_of_int_overflow, Hs.
Qed.

(** *** A text without whitespace *)

Section UnbrokenText.




End UnbrokenText.




(** C6: for a positive target size the chunker returns whenever the size
    is within the range of [float], and the chunks it returns,
    concatenated in order, give back the text once whitespace is removed
    from both: nothing but whitespace is lost or added, and the order of
    the other characters is kept. *)
Theorem chunk_concat_lossless (text : str) (size : Z) :
  (0 < size)%Z ->
  ((size < 2 ^ 1023)%Z -> exists chunks, _chunk_text text size = inr chunks)
  /\ forall chunks, _chunk_text text size = inr chunks ->
       remove_ws (concat chunks) = remove_ws text.
Proof.
  intros Hs. split.
  - intros Hlt. apply chunk_text_returns. lia.
  - intros chunks E.
    now destruct (chunk_text_inv text size chunks Hs E) as [_ [R _]].
Qed.

Lemma chunk_concat_lossless_witness :
  ((12 < 2 ^ 1023)%Z ->
   exists chunks,
     _chunk_text (lit " Hello world.  How are you?  fine!   thanks ") 12
     = inr chunks)
  /\ forall chunks,
       _chunk_text (lit " Hello world.  How are you?  fine!   thanks ") 12
       = inr chunks ->
       remove_ws (concat chunks)
       = remove_ws (lit " Hello world.  How are you?  fine!   thanks ").
Proof.
  apply (chunk_concat_lossless
           (lit " Hello world.  How are you?  fine!   thanks ") 12).
  reflexivity.
Defined.

(** C7: for a positive target size the chunker returns whenever the size
    is within the range of [float]; every chunk it returns is non-empty
    after trimming, and a text that is empty or all whitespace gives no
    chunk at all. *)
Theorem chunk_nonempty_trimmed (text : str) (size : Z) :
  (0 < size)%Z ->
  ((size < 2 ^ 1023)%Z -> exists chunks, _chunk_text text size = inr chunks)
  /\ (forall chunks, _chunk_text text size = inr chunks ->
        Forall (fun c => strip c <> []) chunks)
  /\ (strip text = [] -> _chunk_text text size = inr []).
Proof.
  intros Hs. split; [|split].
  - intros Hlt. apply chunk_text_returns. lia.
  - intros chunks E.
    destruct (chunk_text_inv text size chunks Hs E) as [_ [_ [_ S]]].
    apply Forall_forall. intros c Hc. rewrite Forall_forall in S.
    destruct (S c Hc) as [Hst Hne]. now rewrite Hst.
  - intros H0. unfold _chunk_text. now rewrite H0.
Qed.

Lemma chunk_nonempty_trimmed_witness :
  ((3 < 2 ^ 1023)%Z ->
   exists chunks, _chunk_text (lit "  one.   two  ") 3 = inr chunks)
  /\ (forall chunks, _chunk_text (lit "  one.   two  ") 3 = inr chunks ->
        Forall (fun c => strip c <> []) chunks)
  /\ (strip (lit "  one.   two  ") = [] ->
      _chunk_text (lit "  one.   two  ") 3 = inr []).
Proof.
  apply (chunk_nonempty_trimmed (lit "  one.   two  ") 3).
  reflexivity.
Defined.

(* ================================================================== *)
(** ** Properties of the corpus loader *)

Section LoaderFacts.

Lemma insert_path_not_nil e l : insert_path e l <> [].
Proof. destruct l as [|y t]; simpl; [|destruct (str_leb _ _)]; discriminate. Qed.

Lemma sorted_paths_nil d : sorted_paths d = [] <-> d = [].
Proof.
  split; intros H0; [|now subst].
  destruct d as [|e d]; [reflexivity|].
  simpl in H0. now apply insert_path_not_nil in H0.
Qed.

Lemma insert_path_In e l x : In x (insert_path e l) <-> x = e \/ In x l.
Proof.
  induction l as [|y t IH]; simpl.
  - intuition.
  - destruct (str_leb (fst e) (fst y)); simpl; [intuition|].
    rewrite IH. intuition.
Qed.

Lemma sorted_paths_In d x : In x (sorted_paths d) <-> In x d.
Proof.
  induction d as [|e d IH]; simpl; [tauto|].
  rewrite insert_path_In, IH. intuition.
Qed.

(** The two exceptions of the second loop. *)
Lemma post_chunk_raises (size : Z) (c : str) (e : exn) :
  post_chunk size c = inl e ->
  e = OverflowError \/ e = ValueError RangeStepZero.
Proof.
  unfold post_chunk.
  destruct (le_size_times_1_5 (len c) size) as [e'|[|]] eqn:E.
  - intros H0. injection H0 as <-. left.
    exact (proj1 (le_size_times_1_5_error _ _ _ E)).
  - discriminate.
  - unfold py_range0. destruct (size =? 0)%Z.
    + intros H0. injection H0 as <-. now right.
    + destruct (size <? 0)%Z; discriminate.
Qed.

Lemma post_pass_raises (size : Z) (e : exn) : forall chunks : list str,
  post_pass size chunks = inl e ->
  e = OverflowError \/ e = ValueError RangeStepZero.
Proof.
  induction chunks as [|c rest IH]; cbn [post_pass]; [discriminate|].
  destruct (post_chunk size c) as [e'|cs] eqn:Ec.
  - intros H0. injection H0 as <-. exact (post_chunk_raises _ _ _ Ec).
  - destruct (post_pass size rest) as [e'|more]; [|discriminate].
    intros H0. injection H0 as <-. now apply IH.
Qed.

(** Whatever the size, the chunker raises nothing but [OverflowError]
    and the [ValueError] of a zero step. *)
Lemma chunk_text_raises (text : str) (size : Z) (e : exn) :
  _chunk_text text size = inl e ->
  e = OverflowError \/ e = ValueError RangeStepZero.
Proof.
  unfold _chunk_text. destruct (strip text) as [|a t]; [discriminate|].
  destruct (post_pass size (accumulate size (re_split (a :: t))))
    as [e'|final] eqn:Ep; [|discriminate].
  intros H0. injection H0 as <-. exact (post_pass_raises _ _ _ Ep).
Qed.

(** For a positive size it raises nothing but [OverflowError]. *)
Lemma chunk_text_error (text : str) (size : Z) (e : exn) :
  (0 < size)%Z -> _chunk_text text size = inl e -> e = OverflowError.
Proof.
  intros Hs E. destruct (chunk_text_raises _ _ _ E) as [-> | ->]; [reflexivity|].
  exfalso. revert E. unfold _chunk_text.
  destruct (strip text) as [|a t]; [discriminate|].
  destruct (post_pass size (accumulate size (re_split (a :: t))))
    as [e'|final] eqn:Ep; [|discriminate].
  intros H0. injection H0 as ->. clear -Hs Ep.
  revert Ep. generalize (accumulate size (re_split (a :: t))).
  induction l as [|c rest IH]; cbn [post_pass]; [discriminate|].
  destruct (post_chunk size c) as [e'|cs] eqn:Ec.
  - intros H0. injection H0 as ->. revert Ec. unfold post_chunk.
    destruct (le_size_times_1_5 (len c) size) as [e'|[|]] eqn:E.
    + intros H0. injection H0 as ->.
      now destruct (le_size_times_1_5_error _ _ _ E).
    + discriminate.
    + destruct (range_slices_spec size c Hs) as [-> _]. discriminate.
  - destruct (post_pass size rest) as [e'|more]; [|discriminate].
    intros H0. injection H0 as ->. now apply IH.
Qed.

Lemma load_files_lengths size : forall md_files all_chunks all_sources chunks srcs,
  load_files size md_files all_chunks all_sources = inr (chunks, srcs) ->
  length all_chunks = length all_sources ->
  length chunks = length srcs.
Proof.
  induction md_files as [|[filename [e|content]] rest IH];
    intros all_chunks all_sources chunks srcs E Hlen; cbn [load_files] in E.
  - injection E as <- <-. exact Hlen.
  - discriminate.
  - destruct (_chunk_text content size) as [e|cs]; [discriminate|].
    apply IH in E; [exact E|].
    rewrite !length_app, repeat_length. lia.
Qed.

Lemma load_files_total size : forall md_files all_chunks all_sources,
  (0 < size < 2 ^ 1023)%Z ->
  Forall readable md_files ->
  exists chunks srcs,
    load_files size md_files all_chunks all_sources = inr (chunks, srcs).
Proof.
  induction md_files as [|[filename read] rest IH];
    intros all_chunks all_sources Hs Hall; cbn [load_files].
  - eexists _, _. reflexivity.
  - inversion Hall as [|? ? [content Hc] Hrest]; subst. simpl in Hc. subst read.
    destruct (chunk_text_returns content size Hs) as [cs ->].
    apply IH; assumption.
Qed.

(** What the loop over the files raises: the error of an entry that
    cannot be read, or an exception of the chunker. *)
Lemma load_files_raises size : forall md_files all_chunks all_sources e,
  load_files size md_files all_chunks all_sources = inl e ->
  (exists filename err, In (filename, inl err) md_files
                        /\ e = exn_of_read_error err)
  \/ e = OverflowError \/ e = ValueError RangeStepZero.
Proof.
  induction md_files as [|[filename [err|content]] rest IH];
    intros all_chunks all_sources e E; cbn [load_files] in E.
  - discriminate.
  - injection E as <-. left. exists filename, err. split; [now left | reflexivity].
  - destruct (_chunk_text content size) as [e'|cs] eqn:Ec.
    + injection E as <-. right. exact (chunk_text_raises _ _ _ Ec).
    + destruct (IH _ _ _ E) as [[f [err [Hin He]]] | Hc]; [left | now right].
      exists f, err. split; [now right | exact He].
Qed.

Lemma readable_no_error (md_files : directory) filename err :
  Forall readable md_files -> ~ In (filename, inl err) md_files.
Proof.
  intros Hall Hin. rewrite Forall_forall in Hall.
  destruct (Hall _ Hin) as [text Ht]. discriminate.
Qed.

End LoaderFacts.

(** C8 (as the code has it): loading raises [FileNotFoundError] when the
    path names nothing, and the "no .md files" [ValueError] exactly when
    the path names something that yields no entry matching [*.md], be it
    a directory without such an entry or a path that is not a directory.
    When every matching entry can be read as text,
    [FileNotFoundError] is raised only for a path that names nothing,
    and with a positive chunk size within the range of [float] every
    directory with a matching entry is loaded.  Whenever loading returns,
    it returns as many source labels as chunks. *)
Theorem load_errors_and_lengths (fs : filesystem) (size : Z) (faq_dir : str) :
  (fs faq_dir = None ->
     _load_and_chunk_faqs fs size faq_dir = inl FileNotFoundError)
  /\ (_load_and_chunk_faqs fs size faq_dir = inl (ValueError NoMdFiles)
      <-> exists n, fs faq_dir = Some n /\ glob_md (entries n) = [])
  /\ ((forall n, fs faq_dir = Some n -> Forall readable (glob_md (entries n))) ->
      (_load_and_chunk_faqs fs size faq_dir = inl FileNotFoundError
         <-> fs faq_dir = None)
      /\ ((0 < size < 2 ^ 1023)%Z ->
          forall n, fs faq_dir = Some n -> glob_md (entries n) <> [] ->
          exists chunks sources,
            _load_and_chunk_faqs fs size faq_dir = inr (chunks, sources)))
  /\ (forall chunks sources,
       _load_and_chunk_faqs fs size faq_dir = inr (chunks, sources) ->
       length chunks = length sources).
Proof.
  unfold _load_and_chunk_faqs.
  destruct (fs faq_dir) as [n|] eqn:Efs.
  - destruct (sorted_paths (glob_md (entries n))) as [|e files] eqn:Esp.
    + pose proof (proj1 (sorted_paths_nil _) Esp) as Hnil.
      split; [discriminate|].
      split; [split; [intros _; exists n; split; [reflexivity | exact Hnil]
                     | reflexivity]|].
      split; [|discriminate].
      intros Hread. split; [split; discriminate|].
      intros _ n' Hn' Hne. injection Hn' as <-. contradiction.
    + assert (Hne : glob_md (entries n) <> []).
      { intros H0. apply (proj2 (sorted_paths_nil _)) in H0. congruence. }
      split; [discriminate|].
      split.
      { split.
        - intros E. exfalso.
          destruct (load_files_raises _ _ _ _ _ E)
            as [[f [[| | |] [_ He]]] | [He | He]]; discriminate.
        - intros [n' [Hn' H0]]. injection Hn' as <-. contradiction. }
      split.
      * intros Hread. specialize (Hread n eq_refl).
        assert (Hfiles : Forall readable (e :: files)).
        { rewrite <- Esp. apply Forall_forall. intros x Hx.
          apply (proj1 (sorted_paths_In _ _)) in Hx.
          rewrite Forall_forall in Hread. now apply Hread. }
        split.
        -- split; [|discriminate]. intros E. exfalso.
           destruct (load_files_raises _ _ _ _ _ E)
             as [[f [err [Hin _]]] | [He | He]]; try discriminate.
           exact (readable_no_error _ _ _ Hfiles Hin).
        -- intros Hs n' Hn' _.
           apply load_files_total; [exact Hs | exact Hfiles].
      * intros chunks sources E. exact (load_files_lengths _ _ _ _ _ _ E eq_refl).
  - split; [reflexivity|].
    split; [split; [discriminate | intros [n [Hn _]]; discriminate]|].
    split; [|discriminate].
    intros Hread. split; [split; reflexivity|].
    intros _ n Hn. discriminate.
Qed.

Lemma load_errors_and_lengths_witness :
  (_load_and_chunk_faqs Demo.faq_fs 200 (lit "faqs") = inl FileNotFoundError
     <-> Demo.faq_fs (lit "faqs") = None)
  /\ (exists chunks sources,
        _load_and_chunk_faqs Demo.faq_fs 200 (lit "faqs") = inr (chunks, sources))
  /\ (_load_and_chunk_faqs Demo.faq_fs 200 (lit "empty") = inl (ValueError NoMdFiles)
      <-> exists n, Demo.faq_fs (lit "empty") = Some n /\ glob_md (entries n) = []).
Proof.
  destruct (load_errors_and_lengths Demo.faq_fs 200 (lit "faqs"))
    as [_ [_ [H3 _]]].
  destruct (load_errors_and_lengths Demo.faq_fs 200 (lit "empty"))
    as [_ [H2 _]].
  assert (Hread : forall n, Demo.faq_fs (lit "faqs") = Some n ->
                            Forall readable (glob_md (entries n))).
  { intros n Hn. vm_compute in Hn. injection Hn as <-.
    repeat constructor; eexists; reflexivity. }
  destruct (H3 Hread) as [Hnf Hload].
  split; [exact Hnf|]. split; [|exact H2].
  apply (Hload ltac:(split; reflexivity) _ eq_refl). discriminate.
Defined.

(** C8, counterexample: a path that names a regular file, so that no
    such directory exists, gives the "no .md files" [ValueError] and not
    [FileNotFoundError]; and a directory that does exist gives
    [FileNotFoundError] when a matching entry is a link to nothing. *)
Lemma load_not_found_counterexample :
  Demo.faq_fs (lit "faqs/notes.txt") = Some NotADirectory
  /\ _load_and_chunk_faqs Demo.faq_fs 200 (lit "faqs/notes.txt")
     = inl (ValueError NoMdFiles)
  /\ Demo.faq_fs (lit "links") = Some (Directory [(lit "gone.md", inl NoSuchFile)])
  /\ _load_and_chunk_faqs Demo.faq_fs 200 (lit "links") = inl FileNotFoundError.
Proof. repeat split. Qed.

(* ================================================================== *)
(** ** Properties of the top-k normalisation *)

(** C2 (as the code has it): whatever [top_k] is, and whatever the
    configured default, the value used for retrieval lies in [1,10]; with
    the default 4, a value above 10 becomes 10, an absent or zero value
    becomes 4, a value in [1,10] is kept, and a negative value becomes 1.
    A value that went through the MCP tool first is in [1,10] as well. *)
Theorem clamp_top_k_spec (default : Z) (top_k : option Z) :
  (1 <= clamp_top_k default top_k <= 10)%Z
  /\ (forall n, top_k = Some n -> (10 < n)%Z ->
        clamp_top_k TOP_K_DEFAULT top_k = 10%Z)
  /\ (top_k = None \/ top_k = Some 0%Z ->
        clamp_top_k TOP_K_DEFAULT top_k = TOP_K_DEFAULT /\ TOP_K_DEFAULT = 4%Z)
  /\ (forall n, top_k = Some n -> (1 <= n <= 10)%Z ->
        clamp_top_k TOP_K_DEFAULT top_k = n)
  /\ (forall n, top_k = Some n -> (n < 0)%Z ->
        clamp_top_k TOP_K_DEFAULT top_k = 1%Z)
  /\ (1 <= clamp_top_k default (Some (mcp_top_k top_k)) <= 10)%Z.
Proof.
  unfold clamp_top_k, py_or, TOP_K_DEFAULT.
  split; [lia|].
  split; [intros n -> Hn; destruct (Z.eqb_spec n 0); lia|].
  split; [intros [-> | ->]; simpl; split; reflexivity|].
  split; [intros n -> Hn; destruct (Z.eqb_spec n 0); lia|].
  split; [intros n -> Hn; destruct (Z.eqb_spec n 0); lia|].
  lia.
Qed.

Lemma clamp_top_k_spec_witness :
  (1 <= clamp_top_k 4 (Some 15%Z) <= 10)%Z
  /\ clamp_top_k TOP_K_DEFAULT (Some 15%Z) = 10%Z
  /\ clamp_top_k TOP_K_DEFAULT (Some (-3)%Z) = 1%Z.
Proof.
  destruct (clamp_top_k_spec 4 (Some 15%Z)) as [H1 [H2 _]].
  destruct (clamp_top_k_spec 4 (Some (-3)%Z)) as [_ [_ [_ [_ [H5 _]]]]].
  split; [exact H1|].
  split; [apply (H2 15%Z); [reflexivity | lia]|].
  apply (H5 (-3)%Z); [reflexivity | lia].
Defined.

(** C2, counterexample: a negative [top_k] is not replaced by the
    default 4 but clamped to 1. *)
Lemma clamp_top_k_negative_counterexample :
  clamp_top_k TOP_K_DEFAULT (Some (-3)%Z) = 1%Z
  /\ clamp_top_k TOP_K_DEFAULT (Some (-3)%Z) <> TOP_K_DEFAULT.
Proof. split; [reflexivity | discriminate]. Qed.

(* ================================================================== *)
(** ** Facts about the ranking *)

Section RankingFacts.

Context {A : Type} (leb : A -> A -> bool) (tie : list A -> nat -> nat).

Lemma insert_idx_In a x l p :
  In p (insert_idx leb tie a x l) <-> p = x \/ In p l.
Proof.
  induction l as [|y t IH]; simpl.
  - intuition.
  - destruct (before leb tie a x y); simpl; [intuition|].
    rewrite IH. intuition.
Qed.

Lemma insert_idx_length a x l :
  length (insert_idx leb tie a x l) = S (length l).
Proof.
  induction l as [|y t IH]; simpl; [reflexivity|].
  destruct (before leb tie a x y); simpl; [reflexivity | now rewrite IH].
Qed.

Lemma sort_pairs_length a (l : list (nat * A)) :
  length (fold_right (insert_idx leb tie a) [] l) = length l.
Proof.
  induction l as [|x l IH]; [reflexivity|]. simpl.
  now rewrite insert_idx_length, IH.
Qed.

Lemma argsort_length (a : list A) : length (argsort leb tie a) = length a.
Proof.
  unfold argsort, argsort_pairs, enumerate.
  rewrite length_map, sort_pairs_length, length_combine, length_seq. lia.
Qed.

Lemma top_indices_count (a : list A) (k : Z) :
  (1 <= k)%Z ->
  length (top_indices leb tie a k) = Nat.min (Z.to_nat k) (length a).
Proof.
  intros Hk. unfold top_indices, last_slice.
  destruct (Z.leb_spec k 0) as [H0|_]; [lia|].
  rewrite length_rev, length_skipn, argsort_length. lia.
Qed.

Hypothesis leb_total : forall a b, leb a b = true \/ leb b a = true.
Hypothesis leb_trans : forall a b c,
  leb a b = true -> leb b c = true -> leb a c = true.

Lemma before_by_value a p q :
  before leb tie a p q = true -> by_value leb p q.
Proof.
  unfold before, by_value. destruct (leb (snd q) (snd p)) eqn:E.
  - intros Hb. now apply andb_prop in Hb.
  - intros _. destruct (leb_total (snd p) (snd q)); congruence.
Qed.

Lemma not_before_by_value a p q :
  before leb tie a p q = false -> by_value leb q p.
Proof.
  unfold before, by_value. destruct (leb (snd q) (snd p)); [reflexivity | discriminate].
Qed.

Lemma insert_idx_sorted a x l :
  StronglySorted (by_value leb) l ->
  StronglySorted (by_value leb) (insert_idx leb tie a x l).
Proof.
  intros Hs. induction Hs as [|y t Ht IH Hy]; simpl.
  - repeat constructor.
  - destruct (before leb tie a x y) eqn:E.
    + apply before_by_value in E.
      constructor; [constructor; assumption|].
      constructor; [exact E|].
      rewrite Forall_forall in *. intros q Hq.
      exact (leb_trans _ _ _ E (Hy q Hq)).
    + apply not_before_by_value in E.
      constructor; [exact IH|].
      apply Forall_forall. intros q Hq. apply insert_idx_In in Hq.
      destruct Hq as [-> | Hq]; [exact E|].
      rewrite Forall_forall in Hy. apply Hy, Hq.
Qed.

(** The argsort of a list whose indices start at [s]. *)
Lemma argsort_from_sorted (a0 a : list A) : forall s,
  let l := fold_right (insert_idx leb tie a0) [] (combine (seq s (length a)) a) in
  StronglySorted (by_value leb) l
  /\ Forall (fun q => (s <= fst q)%nat /\ nth_error a (fst q - s) = Some (snd q)) l.
Proof.
  induction a as [|x a IH]; intros s; cbn zeta.
  - simpl. repeat constructor.
  - cbn [length seq combine fold_right].
    destruct (IH (S s)) as [Hs Hf]. cbn zeta in Hs, Hf.
    split.
    + apply insert_idx_sorted, Hs.
    + apply Forall_forall. intros q Hq. apply insert_idx_In in Hq.
      destruct Hq as [-> | Hq].
      * simpl. rewrite Nat.sub_diag. auto.
      * rewrite Forall_forall in Hf. destruct (Hf q Hq) as [H1 H2]. split; [lia|].
        replace (fst q - s)%nat with (S (fst q - S s)) by lia. exact H2.
Qed.

(** [argsort] orders the indices by ascending value, whatever the order
    of the ties. *)
Lemma argsort_pairs_spec (a : list A) :
  StronglySorted (by_value leb) (argsort_pairs leb tie a)
  /\ Forall (fun q => nth_error a (fst q) = Some (snd q)) (argsort_pairs leb tie a).
Proof.
  destruct (argsort_from_sorted a a 0) as [Hs Hf]. cbn zeta in *.
  split; [exact Hs|].
  eapply Forall_impl; [|exact Hf]. simpl. intros q [_ Hq].
  now rewrite Nat.sub_0_r in Hq.
Qed.

End RankingFacts.

Section SortedLists.

Context {B : Type} (R : B -> B -> Prop).

Lemma skipn_In n (l : list B) e : In e (skipn n l) -> In e l.
Proof.
  intros He. rewrite <- (firstn_skipn n l). apply in_or_app. now right.
Qed.

Lemma StronglySorted_skipn n : forall l,
  StronglySorted R l -> StronglySorted R (skipn n l).
Proof.
  induction n as [|n IH]; intros l Hs; [exact Hs|].
  destruct l as [|x l]; [exact Hs|]. simpl. apply IH.
  now inversion Hs.
Qed.

Lemma StronglySorted_snoc l x :
  StronglySorted R l -> Forall (fun y => R y x) l -> StronglySorted R (l ++ [x]).
Proof.
  intros Hs Hx. induction Hs as [|y t Ht IH Hy]; simpl.
  - repeat constructor.
  - inversion Hx; subst. constructor; [apply IH; assumption|].
    apply Forall_app. split; [exact Hy | repeat constructor; assumption].
Qed.

Lemma StronglySorted_nth l : forall p q a b,
  StronglySorted R l -> (p < q)%nat ->
  nth_error l p = Some a -> nth_error l q = Some b -> R a b.
Proof.
  induction l as [|x l IH]; intros p q a b Hs Hpq Ha Hb.
  - destruct p; discriminate.
  - inversion Hs as [|? ? Hl Hx]; subst.
    destruct q as [|q]; [lia|]. simpl in Hb.
    destruct p as [|p]; simpl in Ha.
    + injection Ha as <-. rewrite Forall_forall in Hx.
      apply Hx. eapply nth_error_In, Hb.
    + apply (IH p q); auto. lia.
Qed.

End SortedLists.

Lemma StronglySorted_rev {B : Type} (R : B -> B -> Prop) (l : list B) :
  StronglySorted R l -> StronglySorted (fun a b => R b a) (rev l).
Proof.
  intros Hs. induction Hs as [|y t Ht IH Hy]; simpl; [constructor|].
  apply StronglySorted_snoc; [exact IH|].
  apply Forall_forall. intros z Hz. apply in_rev in Hz.
  rewrite Forall_forall in Hy. apply Hy, Hz.
Qed.

Section TopIndices.

Context {A : Type} (leb : A -> A -> bool) (tie : list A -> nat -> nat).
Hypothesis leb_total : forall a b, leb a b = true \/ leb b a = true.
Hypothesis leb_trans : forall a b c,
  leb a b = true -> leb b c = true -> leb a c = true.

(** The retrieved indices with their similarities. *)
Lemma top_indices_pairs (sims : list A) (k : Z) :
  top_indices leb tie sims k
  = map fst (rev (last_slice k (argsort_pairs leb tie sims))).
Proof.
  unfold top_indices, argsort, last_slice.
  rewrite map_rev, length_map. f_equal.
  destruct (k <=? 0)%Z; now rewrite skipn_map.
Qed.

Lemma top_indices_order (sims : list A) (k : Z) :
  forall p q i j, (p < q)%nat ->
  nth_error (top_indices leb tie sims k) p = Some i ->
  nth_error (top_indices leb tie sims k) q = Some j ->
  exists x y, nth_error sims i = Some x /\ nth_error sims j = Some y
    /\ leb y x = true.
Proof.
  intros p q i j Hpq Hi Hj. rewrite top_indices_pairs in Hi, Hj.
  rewrite nth_error_map in Hi, Hj.
  set (r := rev (last_slice k (argsort_pairs leb tie sims))) in *.
  destruct (nth_error r p) as [[i' x]|] eqn:Ep; [|discriminate].
  destruct (nth_error r q) as [[j' y]|] eqn:Eq; [|discriminate].
  simpl in Hi, Hj. injection Hi as ->. injection Hj as ->.
  destruct (argsort_pairs_spec leb tie leb_total leb_trans sims) as [Hs Hf].
  assert (Hin : forall e, In e r -> In e (argsort_pairs leb tie sims)).
  { intros e He. unfold r in He. apply in_rev in He.
    unfold last_slice in He.
    destruct (k <=? 0)%Z; eapply skipn_In, He. }
  rewrite Forall_forall in Hf.
  pose proof (Hf _ (Hin _ (nth_error_In _ _ Ep))) as Hx.
  pose proof (Hf _ (Hin _ (nth_error_In _ _ Eq))) as Hy.
  exists x, y. split; [exact Hx | split; [exact Hy|]].
  assert (Hr : StronglySorted (fun a b => by_value leb b a) r).
  { apply StronglySorted_rev. unfold last_slice.
    destruct (k <=? 0)%Z; apply StronglySorted_skipn, Hs. }
  exact (StronglySorted_nth _ r p q _ _ Hr Hpq Ep Eq).
Qed.

End TopIndices.

(* ================================================================== *)
(** ** Properties of the retrieval step *)

(** C1 (as the code has it): for similarities compared by a total,
    transitive [<=] and [k] in [1,10], the retrieval step returns
    exactly [min(k, N)] corpus indices, in descending order of
    similarity, whatever order the sort of [np.argsort] leaves equal
    similarities in.  The code sets no rule for ties. *)
Theorem top_indices_ranked {A : Type} (leb : A -> A -> bool)
        (tie : list A -> nat -> nat) (sims : list A) (k : Z) :
  (forall a b, leb a b = true \/ leb b a = true) ->
  (forall a b c, leb a b = true -> leb b c = true -> leb a c = true) ->
  (1 <= k <= 10)%Z ->
  length (top_indices leb tie sims k) = Nat.min (Z.to_nat k) (length sims)
  /\ forall p q i j, (p < q)%nat ->
       nth_error (top_indices leb tie sims k) p = Some i ->
       nth_error (top_indices leb tie sims k) q = Some j ->
       exists x y, nth_error sims i = Some x /\ nth_error sims j = Some y
         /\ leb y x = true.
Proof.
  intros Htot Htr Hk. split.
  - apply top_indices_count. lia.
  - apply top_indices_order; auto.
Qed.

Lemma Zleb_total (a b : Z) : (a <=? b)%Z = true \/ (b <=? a)%Z = true.
Proof. destruct (Z.leb_spec a b); [left; reflexivity | right; apply Z.leb_le; lia]. Qed.

Lemma Zleb_trans (a b c : Z) :
  (a <=? b)%Z = true -> (b <=? c)%Z = true -> (a <=? c)%Z = true.
Proof. rewrite !Z.leb_le. lia. Qed.

Lemma top_indices_ranked_witness :
  length (top_indices Z.leb index_order [1; 5; 3; 5; 2]%Z 3)
  = Nat.min (Z.to_nat 3) (length [1; 5; 3; 5; 2]%Z)
  /\ forall p q i j, (p < q)%nat ->
       nth_error (top_indices Z.leb index_order [1; 5; 3; 5; 2]%Z 3) p = Some i ->
       nth_error (top_indices Z.leb index_order [1; 5; 3; 5; 2]%Z 3) q = Some j ->
       exists x y, nth_error [1; 5; 3; 5; 2]%Z i = Some x
         /\ nth_error [1; 5; 3; 5; 2]%Z j = Some y
         /\ (y <=? x)%Z = true.
Proof.
  apply (top_indices_ranked Z.leb index_order [1; 5; 3; 5; 2]%Z 3
           Zleb_total Zleb_trans).
  lia.
Defined.

(** C1, counterexample: two stored chunks with the same similarity and
    [k = 2], the sort leaving the two in index order: the chunk with the
    higher corpus index is returned first.  And when the sort leaves the
    three equal similarities of [2, 2, 2, 0, 1] in the order 1, 0, 2,
    the retrieval with [k = 3] returns chunk 2, then 0, then 1. *)
Lemma top_indices_tie_counterexample :
  top_indices Z.leb index_order [5; 5]%Z 2 = [1; 0]%nat
  /\ nth_error [5; 5]%Z 1 = nth_error [5; 5]%Z 0
  /\ ~ (forall p q i j, (p < q)%nat ->
         nth_error (top_indices Z.leb index_order [5; 5]%Z 2) p = Some i ->
         nth_error (top_indices Z.leb index_order [5; 5]%Z 2) q = Some j ->
         nth_error [5; 5]%Z i = nth_error [5; 5]%Z j ->
         (i < j)%nat)
  /\ top_indices Z.leb (fun _ => position [1; 0; 2]%nat) [2; 2; 2; 0; 1]%Z 3
     = [2; 0; 1]%nat.
Proof.
  split; [reflexivity | split; [reflexivity|]]. split; [|reflexivity].
  intros H. specialize (H 0%nat 1%nat 1%nat 0%nat).
  simpl in H. specialize (H ltac:(lia) eq_refl eq_refl eq_refl). lia.
Qed.

(* ================================================================== *)
(** ** Facts about [sorted(set(...))] *)

Section SortedSetFacts.

Lemma str_eqb_eq a : forall b, str_eqb a b = true <-> a = b.
Proof.
  induction a as [|x a IH]; intros [|y b]; simpl; split; intros H0;
    try reflexivity; try discriminate.
  - apply andb_true_iff in H0. destruct H0 as [Hx Ha].
    apply N.eqb_eq in Hx. apply IH in Ha. now subst.
  - injection H0 as -> ->. rewrite N.eqb_refl. simpl. now apply IH.
Qed.

Lemma str_ltb_trans a : forall b c,
  str_ltb a b = true -> str_ltb b c = true -> str_ltb a c = true.
Proof.
  induction a as [|x a IH]; intros [|y b] [|z c]; simpl; intros Hab Hbc;
    try reflexivity; try discriminate.
  apply orb_true_iff in Hab. apply orb_true_iff in Hbc. apply orb_true_iff.
  rewrite !andb_true_iff, !N.ltb_lt, !N.eqb_eq in *.
  destruct Hab as [Hab | [-> Hab]]; destruct Hbc as [Hbc | [-> Hbc]].
  - left. lia.
  - now left.
  - now left.
  - right. split; [reflexivity | eapply IH; eassumption].
Qed.

Lemma str_ltb_trichotomy a : forall b,
  str_ltb a b = false -> str_ltb b a = false -> a = b.
Proof.
  induction a as [|x a IH]; intros [|y b]; simpl; intros Hab Hba;
    try reflexivity; try discriminate.
  apply orb_false_iff in Hab. apply orb_false_iff in Hba.
  destruct Hab as [Hxy Hab]. destruct Hba as [Hyx Hba].
  apply N.ltb_ge in Hxy. apply N.ltb_ge in Hyx.
  assert (x = y) by lia. subst y. rewrite N.eqb_refl in *. simpl in *.
  f_equal. now apply IH.
Qed.

Lemma py_set_In l : forall x, In x (py_set l) <-> In x l.
Proof.
  induction l as [|y t IH]; intros x; simpl; [tauto|].
  destruct (existsb (str_eqb y) t) eqn:E.
  - rewrite IH. split; [tauto|]. intros [<- | Hx]; [|exact Hx].
    apply existsb_exists in E. destruct E as [z [Hz Hyz]].
    apply str_eqb_eq in Hyz. now subst.
  - simpl. rewrite IH. tauto.
Qed.

Lemma py_set_NoDup l : NoDup (py_set l).
Proof.
  induction l as [|y t IH]; simpl; [constructor|].
  destruct (existsb (str_eqb y) t) eqn:E; [exact IH|].
  constructor; [|exact IH]. intros Hy. apply (proj1 (py_set_In _ _)) in Hy.
  assert (existsb (str_eqb y) t = true); [|congruence].
  apply existsb_exists. exists y. split; [exact Hy | now apply str_eqb_eq].
Qed.

Lemma insert_str_In x l : forall y, In y (insert_str x l) <-> y = x \/ In y l.
Proof.
  induction l as [|z t IH]; intros y; simpl.
  - intuition.
  - destruct (str_leb x z); simpl; [intuition|]. rewrite IH. intuition.
Qed.

Lemma sorted_In l : forall y, In y (sorted l) <-> In y l.
Proof.
  induction l as [|x t IH]; intros y; simpl; [tauto|].
  rewrite insert_str_In, IH. intuition.
Qed.

Lemma insert_str_sorted x l :
  StronglySorted str_lt l -> ~ In x l -> StronglySorted str_lt (insert_str x l).
Proof.
  intros Hs Hx. induction Hs as [|y t Ht IH Hy]; simpl.
  - repeat constructor.
  - assert (Hxy : x <> y) by (intros ->; apply Hx; now left).
    assert (Hxt : ~ In x t) by (intros Hin; apply Hx; now right).
    unfold str_leb. destruct (str_ltb y x) eqn:E; simpl.
    + constructor; [apply IH, Hxt|].
      apply Forall_forall. intros z Hz. apply insert_str_In in Hz.
      destruct Hz as [-> | Hz]; [exact E|].
      rewrite Forall_forall in Hy. apply Hy, Hz.
    + assert (Hlt : str_ltb x y = true).
      { destruct (str_ltb x y) eqn:E'; [reflexivity|].
        exfalso. apply Hxy. now apply str_ltb_trichotomy. }
      constructor; [constructor; assumption|].
      constructor; [exact Hlt|].
      rewrite Forall_forall in *. intros z Hz.
      eapply str_ltb_trans; [exact Hlt | apply Hy, Hz].
Qed.

Lemma sorted_strict l : NoDup l -> StronglySorted str_lt (sorted l).
Proof.
  induction 1 as [|x t Hx Hnd IH]; simpl; [constructor|].
  apply insert_str_sorted; [exact IH|]. now rewrite sorted_In.
Qed.

Lemma sorted_set_spec l :
  StronglySorted str_lt (sorted (py_set l))
  /\ forall s, In s (sorted (py_set l)) <-> In s l.
Proof.
  split; [apply sorted_strict, py_set_NoDup|].
  intros s. now rewrite sorted_In, py_set_In.
Qed.

End SortedSetFacts.

(* ================================================================== *)
(** ** Facts about the effects of the core *)

Section EffectFacts.

Context `{Services}.

(** *** Globals are only read *)

Lemma keeps_globals_ret X (x : X) : keeps_globals (ret x).
Proof. intros w. reflexivity. Qed.

Lemma keeps_globals_raise X (e : exn) : keeps_globals (raise (X := X) e).
Proof. intros w. reflexivity. Qed.

Lemma keeps_globals_bind X Y (m : M X) (f : X -> M Y) :
  keeps_globals m -> (forall x, keeps_globals (f x)) -> keeps_globals (bind m f).
Proof.
  intros Hm Hf w. unfold bind. specialize (Hm w).
  destruct (m w) as [[e|x] w1]; simpl in *; [exact Hm|].
  now rewrite Hf.
Qed.

Lemma keeps_globals_read X (g : store -> X) : keeps_globals (read g).
Proof. intros w. reflexivity. Qed.

Lemma keeps_globals_call_embeddings texts : keeps_globals (call_embeddings texts).
Proof.
  intros w. unfold call_embeddings.
  destruct (embeddings_create (sent w) texts); reflexivity.
Qed.

Lemma keeps_globals_call_chat sp up : keeps_globals (call_chat sp up).
Proof.
  intros w. unfold call_chat.
  destruct (chat_completions_create (sent w) sp up); reflexivity.
Qed.

Lemma keeps_globals_index X (xs : list X) i : keeps_globals (index xs i).
Proof. intros w. unfold index. destruct (nth_error xs i); reflexivity. Qed.

Lemma keeps_globals_lift X (r : result X) : keeps_globals (lift r).
Proof. intros w. destruct r; reflexivity. Qed.

Lemma keeps_globals_for_each X Y (f : X -> M Y) idx :
  (forall i, keeps_globals (f i)) -> keeps_globals (for_each f idx).
Proof.
  intros Hf. induction idx as [|i rest IH]; cbn [for_each].
  - apply keeps_globals_ret.
  - apply keeps_globals_bind; [apply Hf|]. intros y.
    apply keeps_globals_bind; [exact IH|]. intros ys. apply keeps_globals_ret.
Qed.

Ltac frame_step :=
  first [ apply keeps_globals_ret | apply keeps_globals_raise
        | apply keeps_globals_read | apply keeps_globals_call_embeddings
        | apply keeps_globals_call_chat | apply keeps_globals_index
        | apply keeps_globals_lift
        | apply keeps_globals_for_each; intros ?
        | apply keeps_globals_bind; [|intros ?]
        | match goal with
          | |- keeps_globals (match ?c with _ => _ end) => destruct c
          end ].

Lemma keeps_globals_ask_faq_core question top_k :
  keeps_globals (ask_faq_core question top_k).
Proof.
  unfold ask_faq_core.
  destruct (strip _) as [|c q]; [apply keeps_globals_raise|].
  apply keeps_globals_bind; [frame_step | intros embeds].
  apply keeps_globals_bind; [frame_step | intros chunks].
  destruct embeds as [embeds|]; [|destruct chunks; frame_step].
  destruct chunks as [|ch chunks]; [frame_step|].
  unfold _embed_query, _generate_answer. repeat frame_step.
Qed.

Lemma keeps_globals_ask_faq question top_k :
  keeps_globals (ask_faq question top_k).
Proof.
  unfold ask_faq.
  destruct (strip _) as [|c q]; [apply keeps_globals_raise|].
  apply keeps_globals_bind; [apply keeps_globals_ask_faq_core | intros r].
  apply keeps_globals_ret.
Qed.

(** *** Which exceptions can be raised *)

Lemma raises_only_ret X (P : exn -> Prop) (x : X) : raises_only P (ret x).
Proof. intros w e. discriminate. Qed.

Lemma raises_only_raise X (P : exn -> Prop) (e : exn) :
  P e -> raises_only P (raise (X := X) e).
Proof. intros He w e' E. simpl in E. now injection E as <-. Qed.

Lemma raises_only_bind X Y (P : exn -> Prop) (m : M X) (f : X -> M Y) :
  raises_only P m -> (forall x, raises_only P (f x)) -> raises_only P (bind m f).
Proof.
  intros Hm Hf w e. unfold bind. specialize (Hm w).
  destruct (m w) as [[e1|x] w1]; simpl in *.
  - intros E. injection E as <-. now apply Hm.
  - apply Hf.
Qed.

Lemma raises_only_read X (P : exn -> Prop) (g : store -> X) :
  raises_only P (read g).
Proof. intros w e. discriminate. Qed.

Lemma raises_only_call_embeddings (P : exn -> Prop) texts :
  P ServiceError -> raises_only P (call_embeddings texts).
Proof.
  intros HP w e. unfold call_embeddings.
  destruct (embeddings_create (sent w) texts); simpl; [discriminate|].
  intros E. now injection E as <-.
Qed.

Lemma raises_only_call_chat (P : exn -> Prop) sp up :
  P ServiceError -> raises_only P (call_chat sp up).
Proof.
  intros HP w e. unfold call_chat.
  destruct (chat_completions_create (sent w) sp up); simpl; [discriminate|].
  intros E. now injection E as <-.
Qed.

Lemma raises_only_index X (P : exn -> Prop) (xs : list X) i :
  P IndexError -> raises_only P (index xs i).
Proof.
  intros HP w e. unfold index.
  destruct (nth_error xs i); simpl; [discriminate|].
  intros E. now injection E as <-.
Qed.

Lemma raises_only_lift X (P : exn -> Prop) (r : result X) :
  (forall e, r = inl e -> P e) -> raises_only P (lift r).
Proof.
  intros HP w e. destruct r as [e'|x]; simpl; [|discriminate].
  intros E. injection E as <-. now apply HP.
Qed.

Lemma cosine_similarity_raises embeddings query_vec e :
  _cosine_similarity embeddings query_vec = inl e ->
  e = NumpyError AxisOutOfBounds \/ e = NumpyError MatmulMismatch.
Proof.
  unfold _cosine_similarity. destruct embeddings as [|row rows].
  - intros E. injection E as <-. now left.
  - destruct (forallb _ _); [discriminate|].
    intros E. injection E as <-. now right.
Qed.

Lemma raises_only_for_each X Y (P : exn -> Prop) (f : X -> M Y) idx :
  (forall i, raises_only P (f i)) -> raises_only P (for_each f idx).
Proof.
  intros Hf. induction idx as [|i rest IH]; cbn [for_each].
  - apply raises_only_ret.
  - apply raises_only_bind; [apply Hf|]. intros y.
    apply raises_only_bind; [exact IH|]. intros ys. apply raises_only_ret.
Qed.

Ltac raises_step :=
  first [ apply raises_only_ret | apply raises_only_read
        | apply raises_only_raise; discriminate
        | apply raises_only_call_embeddings; discriminate
        | apply raises_only_call_chat; discriminate
        | apply raises_only_index; discriminate
        | apply raises_only_lift;
          let e := fresh "e" in let E := fresh "E" in
          intros e E; destruct (cosine_similarity_raises _ _ _ E); subst e;
          discriminate
        | apply raises_only_for_each; intros ?
        | apply raises_only_bind; [|intros ?]
        | match goal with
          | |- raises_only _ (match ?c with _ => _ end) => destruct c
          end ].

(** Once the question is not empty, [ask_faq_core] raises none of the
    [ValueError]s the code builds itself. *)
Lemma ask_faq_core_no_value_error question top_k :
  trimmed_question question <> [] ->
  raises_only (fun e => forall m, e <> ValueError m) (ask_faq_core question top_k).
Proof.
  intros Hq. unfold ask_faq_core. fold (trimmed_question question).
  destruct (trimmed_question question) as [|c q]; [contradiction|].
  apply raises_only_bind; [raises_step | intros embeds].
  apply raises_only_bind; [raises_step | intros chunks].
  destruct embeds as [embeds|]; [|destruct chunks; raises_step].
  destruct chunks as [|ch chunks]; [raises_step|].
  unfold _embed_query, _generate_answer. repeat raises_step.
Qed.

End EffectFacts.

(* ================================================================== *)
(** ** Facts about a successful [ask_faq_core] *)

Section AskFacts.

Context `{Services}.

Lemma bind_inr X Y (m : M X) (f : X -> M Y) w y w' :
  bind m f w = (inr y, w') ->
  exists x w1, m w = (inr x, w1) /\ f x w1 = (inr y, w').
Proof.
  unfold bind. destruct (m w) as [[e|x] w1]; [discriminate|].
  intros E. exists x, w1. split; [reflexivity | exact E].
Qed.

Lemma for_each_index_inv X (g : store -> list X) idx : forall w xs w',
  for_each (fun i => bind (read g) (fun l => index l i)) idx w = (inr xs, w') ->
  w' = w /\ Forall2 (fun i x => nth_error (g (globals w)) i = Some x) idx xs.
Proof.
  induction idx as [|i rest IH]; intros w xs w' E; cbn [for_each] in E.
  - injection E as <- <-. split; [reflexivity | constructor].
  - apply bind_inr in E. destruct E as (x & w1 & E1 & E).
    apply bind_inr in E. destruct E as (ys & w2 & E2 & E).
    injection E as <- <-.
    unfold bind, read, index in E1.
    destruct (nth_error (g (globals w)) i) as [x'|] eqn:En; [|discriminate].
    injection E1 as <- <-.
    apply IH in E2. destruct E2 as [-> HF]. split; [reflexivity|].
    constructor; assumption.
Qed.

Lemma lift_inr X (r : result X) w x w' :
  lift r w = (inr x, w') -> r = inr x /\ w' = w.
Proof.
  destruct r as [e|x']; simpl; [discriminate|].
  intros E. injection E as <- <-. split; reflexivity.
Qed.

(** The similarities, when they are computed: one score per row. *)
Lemma cosine_similarity_inv embeddings query_vec similarities :
  _cosine_similarity embeddings query_vec = inr similarities ->
  similarities
  = map (fun row => dot (l2_normalize row) (l2_normalize query_vec)) embeddings
  /\ length similarities = length embeddings
  /\ embeddings <> []
  /\ Forall (fun row => dim row = dim query_vec) embeddings.
Proof.
  unfold _cosine_similarity. destruct embeddings as [|row rows]; [discriminate|].
  destruct (forallb _ _) eqn:Ef; [|discriminate].
  intros E. injection E as <-.
  split; [reflexivity|]. split; [cbn [length]; now rewrite length_map|].
  split; [discriminate|].
  apply Forall_forall. intros x Hx.
  rewrite forallb_forall in Ef. now apply Nat.eqb_eq, Ef.
Qed.

Lemma clamp_top_k_range default top_k : (1 <= clamp_top_k default top_k <= 10)%Z.
Proof. unfold clamp_top_k. lia. Qed.

(** What a normal return of [ask_faq_core] tells about the run. *)
Lemma ask_faq_core_inv question top_k w r w' :
  ask_faq_core question top_k w = (inr r, w') ->
  exists embeds data query_emb similarities top_sources,
    trimmed_question question <> []
    /\ _CHUNK_EMBEDS (globals w) = Some embeds
    /\ _CHUNKS (globals w) <> []
    /\ embeddings_create (sent w) [trimmed_question question] = Some data
    /\ nth_error data 0 = Some query_emb
    /\ _cosine_similarity embeds query_emb = inr similarities
    /\ Forall2 (fun i s => nth_error (_SOURCES (globals w)) i = Some s)
         (top_indices score_leb argsort_tie similarities
                      (clamp_top_k TOP_K_DEFAULT top_k))
         top_sources
    /\ sources r = sorted (py_set top_sources).
Proof.
  unfold ask_faq_core. fold (trimmed_question question).
  destruct (trimmed_question question) as [|c q] eqn:Eq; [discriminate|].
  intros E.
  apply bind_inr in E. destruct E as (embeds & w1 & E1 & E).
  injection E1 as <- <-.
  apply bind_inr in E. destruct E as (chunks & w1 & E2 & E).
  injection E2 as <- <-.
  destruct (_CHUNK_EMBEDS (globals w)) as [embeds|] eqn:Ee;
    [|destruct (_CHUNKS (globals w)); discriminate].
  destruct (_CHUNKS (globals w)) as [|ch chunks] eqn:Ec; [discriminate|].
  apply bind_inr in E. destruct E as (query_emb & w1 & E3 & E).
  unfold _embed_query in E3.
  apply bind_inr in E3. destruct E3 as (data & w0 & E4 & E5).
  unfold call_embeddings in E4.
  destruct (embeddings_create (sent w) [c :: q]) as [data'|] eqn:Ed; [|discriminate].
  injection E4 as <- <-.
  unfold index in E5.
  destruct (nth_error data' 0) as [v|] eqn:En; [|discriminate].
  injection E5 as <- <-.
  apply bind_inr in E. destruct E as (sims & w2 & Es & E).
  apply lift_inr in Es. destruct Es as [Es ->].
  apply bind_inr in E. destruct E as (top_sources & w2 & E6 & E).
  apply for_each_index_inv in E6. destruct E6 as [-> HF].
  apply bind_inr in E. destruct E as (context_parts & w3 & E7 & E).
  apply bind_inr in E. destruct E as (ans & w4 & E8 & E).
  injection E as <- <-.
  exists embeds, data', v, sims, top_sources.
  split; [discriminate|]. split; [reflexivity|]. split; [discriminate|].
  split; [reflexivity|]. split; [exact En|]. split; [exact Es|].
  split; [exact HF | reflexivity].
Qed.

Lemma np_array_inv (rows m : list vec) :
  np_array rows = inr m -> m = rows.
Proof.
  unfold np_array. destruct rows as [|r rest]; [now intros [= <-]|].
  destruct (forallb _ _); [now intros [= <-] | discriminate].
Qed.

(** What a normal return of [_embed_texts] tells about the run. *)
Lemma embed_texts_inv texts w embeds w' :
  _embed_texts texts w = (inr embeds, w') ->
  (texts = [] /\ embeds = [] /\ w' = w)
  \/ (texts <> [] /\ embeddings_create (sent w) texts = Some embeds
      /\ w' = {| globals := globals w;
                 sent := sent w ++ [EmbeddingsCreate texts] |}).
Proof.
  unfold _embed_texts. destruct texts as [|t ts].
  - simpl. intros E. injection E as <- <-. left. repeat split.
  - intros E. apply bind_inr in E. destruct E as (vs & w1 & E1 & E2).
    unfold call_embeddings in E1.
    destruct (embeddings_create (sent w) (t :: ts)) as [vs'|] eqn:Ev;
      [|discriminate].
    injection E1 as <- <-.
    apply lift_inr in E2. destruct E2 as [E2 ->].
    apply np_array_inv in E2. subst embeds.
    right. split; [discriminate|]. split; reflexivity.
Qed.

(** [_preload] builds an aligned store when the embedding service
    answers with one vector per text. *)
Lemma preload_aligned fs size faq_dir w w' :
  (forall tr texts vs, embeddings_create tr texts = Some vs ->
                       length vs = length texts) ->
  _preload fs size faq_dir w = (inr tt, w') ->
  aligned (globals w').
Proof.
  intros Hsvc. unfold _preload.
  destruct (_load_and_chunk_faqs fs size faq_dir) as [e|[chunks srcs]];
    [discriminate|].
  intros E.
  apply bind_inr in E. destruct E as (u & w1 & E1 & E).
  unfold write in E1. injection E1 as <- <-.
  apply bind_inr in E. destruct E as (texts & w1 & E2 & E).
  unfold read in E2. cbn [globals _CHUNKS] in E2. injection E2 as <- <-.
  apply bind_inr in E. destruct E as (embeds & w2 & E3 & E).
  unfold write in E. injection E as <-.
  assert (Hw2 : globals w2 = {| _CHUNKS := chunks; _SOURCES := srcs;
                                _CHUNK_EMBEDS := _CHUNK_EMBEDS (globals w) |}
                /\ length embeds = length chunks).
  { apply embed_texts_inv in E3. cbn [sent globals] in E3.
    destruct E3 as [(-> & -> & ->) | (_ & Ev & ->)].
    - split; reflexivity.
    - split; [reflexivity | apply (Hsvc _ _ _ Ev)]. }
  destruct Hw2 as [Hg Hl]. intros embeds' He. cbn [globals _CHUNK_EMBEDS _CHUNKS] in *.
  injection He as <-. rewrite Hg. exact Hl.
Qed.

End AskFacts.

(* ================================================================== *)
(** ** Properties of [ask_faq_core] *)

(** C3: a question that is empty after trimming makes [ask_faq_core]
    (and the MCP tool [ask_faq]) raise its "question is required"
    [ValueError] in an unchanged world: nothing was sent to a service
    and the store is as before.  A question that is not empty after
    trimming never raises that error, nor any other [ValueError] the
    code builds itself. *)
Theorem empty_question_rejected `{Services}
        (question : option str) (top_k : option Z) (w : world) :
  (trimmed_question question = [] ->
     ask_faq_core question top_k w = (inl (ValueError QuestionRequired), w)
     /\ ask_faq question top_k w = (inl (ValueError QuestionRequiredMcp), w))
  /\ (trimmed_question question <> [] ->
      forall m, fst (ask_faq_core question top_k w) <> inl (ValueError m)
                /\ fst (ask_faq question top_k w) <> inl (ValueError m)).
Proof.
  split.
  - intros Hq. unfold ask_faq_core, ask_faq. fold (trimmed_question question).
    rewrite Hq. split; reflexivity.
  - intros Hq m. split.
    + intros E.
      exact (ask_faq_core_no_value_error question top_k Hq w _ E m eq_refl).
    + unfold ask_faq. fold (trimmed_question question).
      destruct (trimmed_question question) as [|c q] eqn:Eq; [contradiction|].
      assert (Hq' : trimmed_question (Some (c :: q)) <> []).
      { unfold trimmed_question in *. rewrite <- Eq, strip_idem, Eq. discriminate. }
      pose proof (ask_faq_core_no_value_error (Some (c :: q))
                    (Some (mcp_top_k top_k)) Hq' w) as Hcore.
      unfold bind.
      destruct (ask_faq_core (Some (c :: q)) (Some (mcp_top_k top_k)) w)
        as [[e|r] w1] eqn:Er; simpl.
      * intros E. injection E as ->.
        exact (Hcore (ValueError m) eq_refl m eq_refl).
      * discriminate.
Qed.

Lemma empty_question_rejected_witness :
  @ask_faq_core Demo.platform Demo.services (Some (lit "   ")) (Some 4%Z) Demo.start
  = (inl (ValueError QuestionRequired), Demo.start)
  /\ fst (@ask_faq_core Demo.platform Demo.services (Some (lit " price? "))
                        (Some 4%Z) Demo.start)
     <> inl (ValueError QuestionRequired).
Proof.
  split.
  - apply (proj1 (@empty_question_rejected Demo.platform Demo.services
                    (Some (lit "   ")) (Some 4%Z) Demo.start)).
    reflexivity.
  - apply (proj2 (@empty_question_rejected Demo.platform Demo.services
                    (Some (lit " price? ")) (Some 4%Z) Demo.start)).
    vm_compute. discriminate.
Defined.

(** C4: when [ask_faq_core] returns, its [sources] are the labels of the
    retrieved chunks without repetition, in strictly ascending
    lexicographic order; labels [b.md, a.md, a.md] give [a.md, b.md]. *)
Theorem sources_sorted_distinct `{Services}
        (question : option str) (top_k : option Z) (w : world) (r : answer_dict) :
  fst (ask_faq_core question top_k w) = inr r ->
  (exists embeds data query_emb similarities top_sources,
      _CHUNK_EMBEDS (globals w) = Some embeds
      /\ embeddings_create (sent w) [trimmed_question question] = Some data
      /\ nth_error data 0 = Some query_emb
      /\ _cosine_similarity embeds query_emb = inr similarities
      /\ Forall2 (fun i s => nth_error (_SOURCES (globals w)) i = Some s)
           (top_indices score_leb argsort_tie similarities
                        (clamp_top_k TOP_K_DEFAULT top_k))
           top_sources
      /\ StronglySorted str_lt (sources r)
      /\ forall s, In s (sources r) <-> In s top_sources)
  /\ sorted (py_set [lit "b.md"; lit "a.md"; lit "a.md"]) = [lit "a.md"; lit "b.md"].
Proof.
  intros E. split; [|reflexivity].
  destruct (ask_faq_core question top_k w) as [res w'] eqn:Ea.
  simpl in E. subst res.
  destruct (ask_faq_core_inv question top_k w r w' Ea)
    as (embeds & data & query_emb & sims & top_sources
        & _ & He & _ & Hd & Hn & Hc & HF & Hs).
  exists embeds, data, query_emb, sims, top_sources.
  rewrite Hs. destruct (sorted_set_spec top_sources) as [H1 H2].
  repeat (split; [assumption|]). exact H2.
Qed.

Lemma sources_sorted_distinct_witness :
  (exists embeds data query_emb similarities top_sources,
      _CHUNK_EMBEDS (globals Demo.start) = Some embeds
      /\ @embeddings_create Demo.platform Demo.services (sent Demo.start)
           [trimmed_question (Some (lit " price? "))] = Some data
      /\ nth_error data 0 = Some query_emb
      /\ @_cosine_similarity Demo.platform embeds query_emb = inr similarities
      /\ Forall2 (fun i s => nth_error (_SOURCES (globals Demo.start)) i = Some s)
           (top_indices (@score_leb Demo.platform) (@argsort_tie Demo.platform)
              similarities (clamp_top_k TOP_K_DEFAULT None))
           top_sources
      /\ StronglySorted str_lt (sources Demo.expected)
      /\ forall s, In s (sources Demo.expected) <-> In s top_sources)
  /\ sorted (py_set [lit "b.md"; lit "a.md"; lit "a.md"]) = [lit "a.md"; lit "b.md"].
Proof.
  apply (@sources_sorted_distinct Demo.platform Demo.services
           (Some (lit " price? ")) None Demo.start Demo.expected).
  reflexivity.
Defined.

(** C9: whatever the question and [top_k], and whether it returns or
    raises, [ask_faq_core] (and the MCP tool [ask_faq]) leaves the
    globals [_CHUNKS], [_SOURCES] and [_CHUNK_EMBEDS] as they were. *)
Theorem ask_leaves_store_unchanged `{Services}
        (question : option str) (top_k : option Z) (w : world) :
  globals (snd (ask_faq_core question top_k w)) = globals w
  /\ globals (snd (ask_faq question top_k w)) = globals w.
Proof.
  split.
  - apply keeps_globals_ask_faq_core.
  - apply keeps_globals_ask_faq.
Qed.

(** C10: on an aligned store (one embedding row per chunk), a normal
    return of [ask_faq_core] carries at least one source. *)
Theorem sources_nonempty `{Services}
        (question : option str) (top_k : option Z) (w : world) (r : answer_dict) :
  aligned (globals w) ->
  fst (ask_faq_core question top_k w) = inr r ->
  sources r <> [].
Proof.
  intros Hal E.
  destruct (ask_faq_core question top_k w) as [res w'] eqn:Ea.
  simpl in E. subst res.
  destruct (ask_faq_core_inv question top_k w r w' Ea)
    as (embeds & data & query_emb & sims & top_sources
        & _ & He & Hc & _ & _ & Hsim & HF & Hs).
  apply Forall2_length in HF.
  rewrite top_indices_count in HF by apply clamp_top_k_range.
  destruct (cosine_similarity_inv _ _ _ Hsim) as [_ [Hlen _]].
  rewrite Hlen, (Hal embeds He) in HF.
  pose proof (clamp_top_k_range TOP_K_DEFAULT top_k) as Hk.
  destruct top_sources as [|s rest].
  - destruct (_CHUNKS (globals w)); [contradiction | simpl in HF; lia].
  - rewrite Hs. intros Hnil.
    assert (Hin : In s (sorted (py_set (s :: rest)))).
    { apply sorted_In, py_set_In. now left. }
    rewrite Hnil in Hin. exact Hin.
Qed.

Lemma sources_nonempty_witness : sources Demo.expected <> [].
Proof.
  apply (@sources_nonempty Demo.platform Demo.services
           (Some (lit " price? ")) None Demo.start Demo.expected).
  - intros embeds E. injection E as <-. reflexivity.
  - reflexivity.
Defined.

(* ================================================================== *)
(** ** More on the retrieval step *)

Section RetrievedIndices.

Context {A : Type} (leb : A -> A -> bool) (tie : list A -> nat -> nat).

Lemma enumerate_from_fst (a : list A) : forall s,
  map fst (combine (seq s (length a)) a) = seq s (length a).
Proof.
  induction a as [|x a IH]; intros s; simpl; [reflexivity|].
  now rewrite IH.
Qed.

Lemma enumerate_from_In (a : list A) : forall s j y,
  nth_error a j = Some y -> In ((s + j)%nat, y) (combine (seq s (length a)) a).
Proof.
  induction a as [|x a IH]; intros s j y Hj; [destruct j; discriminate|].
  destruct j as [|j]; simpl in *.
  - injection Hj as ->. left. f_equal. lia.
  - right. replace (s + S j)%nat with (S s + j)%nat by lia. now apply IH.
Qed.

Lemma insert_idx_NoDup_fst a x l :
  NoDup (map fst l) -> ~ In (fst x) (map fst l) ->
  NoDup (map fst (insert_idx leb tie a x l)).
Proof.
  induction l as [|y t IH]; simpl; intros Hnd Hx.
  - constructor; [tauto | constructor].
  - destruct (before leb tie a x y); simpl.
    + constructor; [exact Hx | exact Hnd].
    + inversion Hnd as [|? ? Hy Ht]; subst. constructor.
      * intros Hin. apply in_map_iff in Hin. destruct Hin as [p [Hp Hin]].
        apply (proj1 (insert_idx_In _ _ _ _ _ _)) in Hin.
        destruct Hin as [-> | Hin].
        -- apply Hx. now left.
        -- apply Hy. rewrite <- Hp. now apply in_map.
      * apply IH; [exact Ht | tauto].
Qed.

Lemma sort_pairs_In a (l : list (nat * A)) p :
  In p (fold_right (insert_idx leb tie a) [] l) <-> In p l.
Proof.
  induction l as [|x l IH]; simpl; [tauto|].
  rewrite insert_idx_In, IH. intuition.
Qed.

Lemma sort_pairs_NoDup_fst a (l : list (nat * A)) :
  NoDup (map fst l) -> NoDup (map fst (fold_right (insert_idx leb tie a) [] l)).
Proof.
  induction l as [|x l IH]; simpl; intros Hnd; [constructor|].
  inversion Hnd as [|? ? Hx Hl]; subst.
  apply insert_idx_NoDup_fst; [apply IH, Hl|].
  intros Hin. apply Hx. apply in_map_iff in Hin. destruct Hin as [p [Hp Hin]].
  apply (proj1 (sort_pairs_In _ _ _)) in Hin. rewrite <- Hp. now apply in_map.
Qed.

Lemma argsort_NoDup (a : list A) : NoDup (argsort leb tie a).
Proof.
  unfold argsort, argsort_pairs, enumerate. apply sort_pairs_NoDup_fst.
  rewrite enumerate_from_fst. apply seq_NoDup.
Qed.

Lemma argsort_In (a : list A) i :
  In i (argsort leb tie a) <-> (i < length a)%nat.
Proof.
  unfold argsort, argsort_pairs, enumerate. rewrite in_map_iff. split.
  - intros [p [Hp Hin]]. apply (proj1 (sort_pairs_In _ _ _)) in Hin.
    apply (in_map fst) in Hin. rewrite enumerate_from_fst, in_seq in Hin.
    subst i. lia.
  - intros Hi. destruct (nth_error a i) as [y|] eqn:E.
    + exists (i, y). split; [reflexivity|]. apply sort_pairs_In.
      apply (enumerate_from_In a 0 i y E).
    + apply nth_error_None in E. lia.
Qed.

Lemma NoDup_skipn {B : Type} n (l : list B) : NoDup l -> NoDup (skipn n l).
Proof.
  intros Hnd. rewrite <- (firstn_skipn n l) in Hnd.
  now apply NoDup_app_remove_l in Hnd.
Qed.

Lemma last_slice_incl {B : Type} (k : Z) (l : list B) e :
  In e (last_slice k l) -> In e l.
Proof. unfold last_slice. destruct (k <=? 0)%Z; apply skipn_In. Qed.

End RetrievedIndices.

Lemma top_indices_valid_distinct_aux {A : Type} (leb : A -> A -> bool)
      (tie : list A -> nat -> nat) (sims : list A) (k : Z) :
  NoDup (top_indices leb tie sims k)
  /\ forall i, In i (top_indices leb tie sims k) -> (i < length sims)%nat.
Proof.
  unfold top_indices. split.
  - apply NoDup_rev. unfold last_slice.
    destruct (k <=? 0)%Z; apply NoDup_skipn, argsort_NoDup.
  - intros i Hi. apply in_rev, last_slice_incl in Hi.
    now apply (proj1 (argsort_In _ _ _ _)) in Hi.
Qed.

(** X1: whatever the similarities and [top_k], and whatever order the
    sort leaves equal similarities in, the retrieved indices are
    positions of the corpus ([< N]) and no position is retrieved
    twice. *)
Theorem top_indices_valid_distinct {A : Type} (leb : A -> A -> bool)
        (tie : list A -> nat -> nat) (sims : list A) (k : Z) :
  NoDup (top_indices leb tie sims k)
  /\ forall i, In i (top_indices leb tie sims k) -> (i < length sims)%nat.
Proof. apply top_indices_valid_distinct_aux. Qed.

Lemma top_indices_valid_distinct_witness :
  NoDup (top_indices Z.leb index_order [1; 5; 3; 5; 2]%Z 3)
  /\ forall i, In i (top_indices Z.leb index_order [1; 5; 3; 5; 2]%Z 3) ->
                (i < length [1; 5; 3; 5; 2]%Z)%nat.
Proof.
  apply (top_indices_valid_distinct Z.leb index_order [1; 5; 3; 5; 2]%Z 3).
Defined.

Lemma StronglySorted_app_inv {B : Type} (R : B -> B -> Prop) (l1 l2 : list B) :
  StronglySorted R (l1 ++ l2) ->
  forall a b, In a l1 -> In b l2 -> R a b.
Proof.
  induction l1 as [|x l1 IH]; simpl; intros Hs a b Ha Hb; [contradiction|].
  inversion Hs as [|? ? Hl Hx]; subst. destruct Ha as [<- | Ha].
  - rewrite Forall_forall in Hx. apply Hx, in_or_app. now right.
  - now apply IH.
Qed.

(** X2: for a total, transitive [<=] on similarities and [top_k >= 1],
    the retrieved chunks are the best ones, whatever order the sort
    leaves equal similarities in: a chunk that is not retrieved has a
    similarity no higher than any retrieved chunk. *)
Theorem top_indices_best {A : Type} (leb : A -> A -> bool)
        (tie : list A -> nat -> nat) (sims : list A) (k : Z) :
  (forall a b, leb a b = true \/ leb b a = true) ->
  (forall a b c, leb a b = true -> leb b c = true -> leb a c = true) ->
  (1 <= k)%Z ->
  forall i j x y,
    In i (top_indices leb tie sims k) -> ~ In j (top_indices leb tie sims k) ->
    nth_error sims i = Some x -> nth_error sims j = Some y ->
    leb y x = true.
Proof.
  intros Htot Htr Hk i j x y Hi Hj Hx Hy.
  rewrite top_indices_pairs in Hi, Hj. unfold last_slice in Hi, Hj.
  destruct (Z.leb_spec k 0) as [Hk0|_]; [lia|].
  set (ps := argsort_pairs leb tie sims) in *.
  set (m := (length ps - Z.to_nat k)%nat) in *.
  destruct (argsort_pairs_spec leb tie Htot Htr sims) as [Hs Hf]. fold ps in Hs, Hf.
  rewrite Forall_forall in Hf.
  apply in_map_iff in Hi. destruct Hi as [[i' x'] [Hfst Hi]]. simpl in Hfst. subst i'.
  apply in_rev in Hi.
  pose proof (Hf _ (skipn_In _ _ _ Hi)) as Hx'. simpl in Hx'.
  assert (x' = x) by congruence. subst x'.
  assert (Hjy : In (j, y) ps).
  { unfold ps, argsort_pairs, enumerate. apply sort_pairs_In.
    apply (enumerate_from_In sims 0 j y Hy). }
  rewrite <- (firstn_skipn m ps) in Hjy, Hs.
  apply in_app_or in Hjy. destruct Hjy as [Hjy | Hjy].
  - exact (StronglySorted_app_inv _ _ _ Hs _ _ Hjy Hi).
  - exfalso. apply Hj. apply in_map_iff. exists (j, y).
    split; [reflexivity | now apply in_rev in Hjy].
Qed.

Lemma top_indices_best_witness : (3 <=? 5)%Z = true.
Proof.
  apply (top_indices_best Z.leb index_order [1; 5; 3; 5; 2]%Z 2
           Zleb_total Zleb_trans ltac:(lia) 1%nat 2%nat 5%Z 3%Z).
  - vm_compute. auto.
  - vm_compute. intros [E | [E | []]]; discriminate.
  - reflexivity.
  - reflexivity.
Defined.

(* ================================================================== *)
(** ** Every order of the ties is an argsort *)

Section TieOrders.

Context {A : Type} (leb : A -> A -> bool).
Hypothesis leb_total : forall a b, leb a b = true \/ leb b a = true.
Hypothesis leb_trans : forall a b c,
  leb a b = true -> leb b c = true -> leb a c = true.

Lemma before_spec tie (a : list A) p q :
  before leb tie a p q = true
  <-> leb (snd q) (snd p) = false
      \/ (leb (snd p) (snd q) = true /\ leb (snd q) (snd p) = true
          /\ (tie a (fst p) < tie a (fst q)
              \/ (tie a (fst p) = tie a (fst q) /\ fst p <= fst q))%nat).
Proof.
  unfold before. destruct (leb (snd q) (snd p)) eqn:Eqp.
  - rewrite andb_true_iff, orb_true_iff, andb_true_iff,
      Nat.ltb_lt, Nat.eqb_eq, Nat.leb_le.
    split; [intros [H1 H2]; right; auto | intros [H1 | [H1 [_ H2]]]; [discriminate | auto]].
  - split; [intros _; now left | reflexivity].
Qed.

Lemma before_total tie (a : list A) p q :
  before leb tie a p q = false -> before leb tie a q p = true.
Proof.
  intros Hf. apply before_spec.
  destruct (leb (snd p) (snd q)) eqn:Epq; [right | now left].
  destruct (leb (snd q) (snd p)) eqn:Eqp.
  - split; [reflexivity|]. split; [reflexivity|].
    destruct (Nat.lt_trichotomy (tie a (fst q)) (tie a (fst p))) as [Hlt | [Heq | Hgt]].
    + now left.
    + destruct (Nat.le_gt_cases (fst q) (fst p)) as [Hle | Hgt]; [right; now split|].
      exfalso. assert (Ht : before leb tie a p q = true); [|congruence].
      apply before_spec. right. repeat split; auto. right. split; lia.
    + exfalso. assert (Ht : before leb tie a p q = true); [|congruence].
      apply before_spec. right. repeat split; auto.
  - exfalso. assert (Ht : before leb tie a p q = true); [|congruence].
    apply before_spec. now left.
Qed.

Lemma before_trans tie (a : list A) p q r :
  before leb tie a p q = true -> before leb tie a q r = true ->
  before leb tie a p r = true.
Proof.
  rewrite !before_spec.
  intros [Hpq | (Hpq & Hqp & Hk1)] [Hqr | (Hqr & Hrq & Hk2)].
  - left. destruct (leb (snd r) (snd p)) eqn:E; [|reflexivity].
    destruct (leb_total (snd p) (snd q)) as [H1 | H1]; [|congruence].
    pose proof (leb_trans _ _ _ E H1). congruence.
  - left. destruct (leb (snd r) (snd p)) eqn:E; [|reflexivity].
    pose proof (leb_trans _ _ _ Hqr E). congruence.
  - left. destruct (leb (snd r) (snd p)) eqn:E; [|reflexivity].
    pose proof (leb_trans _ _ _ E Hpq). congruence.
  - right. split; [eapply leb_trans; eassumption|].
    split; [eapply leb_trans; eassumption|]. lia.
Qed.

Lemma insert_idx_sorted_before tie (a : list A) x l :
  StronglySorted (fun p q => before leb tie a p q = true) l ->
  StronglySorted (fun p q => before leb tie a p q = true) (insert_idx leb tie a x l).
Proof.
  intros Hs. induction Hs as [|y t Ht IH Hy]; simpl.
  - repeat constructor.
  - destruct (before leb tie a x y) eqn:E.
    + constructor; [constructor; assumption|].
      constructor; [exact E|].
      rewrite Forall_forall in *. intros q Hq.
      exact (before_trans _ _ _ _ _ E (Hy q Hq)).
    + apply before_total in E.
      constructor; [exact IH|].
      apply Forall_forall. intros q Hq. apply insert_idx_In in Hq.
      destruct Hq as [-> | Hq]; [exact E|].
      rewrite Forall_forall in Hy. apply Hy, Hq.
Qed.

Lemma argsort_pairs_sorted_before tie (a : list A) :
  StronglySorted (fun p q => before leb tie a p q = true) (argsort_pairs leb tie a).
Proof.
  unfold argsort_pairs. induction (enumerate a) as [|x l IH]; simpl.
  - constructor.
  - apply insert_idx_sorted_before, IH.
Qed.

(** Two sorted arrangements of the same elements under an antisymmetric
    order are the same list. *)
Lemma sorted_unique {B : Type} (R : B -> B -> Prop) : forall l1 l2 : list B,
  (forall x y, In x l1 -> In y l1 -> R x y -> R y x -> x = y) ->
  StronglySorted R l1 -> StronglySorted R l2 -> Permutation l1 l2 ->
  l1 = l2.
Proof.
  induction l1 as [|x l1 IH]; intros l2 Hanti H1 H2 Hp.
  - apply Permutation_nil in Hp. now subst.
  - destruct l2 as [|y l2]; [apply Permutation_sym, Permutation_nil in Hp; discriminate|].
    inversion H1 as [|? ? Hs1 Hx]; subst. inversion H2 as [|? ? Hs2 Hy]; subst.
    rewrite Forall_forall in Hx, Hy.
    assert (Hxy : x = y).
    { assert (Hin1 : In x (y :: l2)) by (eapply Permutation_in; [exact Hp | now left]).
      assert (Hin2 : In y (x :: l1))
        by (eapply Permutation_in; [apply Permutation_sym, Hp | now left]).
      destruct Hin1 as [-> | Hin1]; [reflexivity|].
      destruct Hin2 as [-> | Hin2]; [reflexivity|].
      apply Hanti; [now left | now right | apply Hx, Hin2 | apply Hy, Hin1]. }
    subst y. f_equal. apply IH; auto.
    + intros a b Ha Hb. apply Hanti; now right.
    + eapply Permutation_cons_inv, Hp.
Qed.

Lemma StronglySorted_weaken {B : Type} (R R' : B -> B -> Prop) (l : list B) :
  (forall a b, In a l -> In b l -> R a b -> R' a b) ->
  StronglySorted R l -> StronglySorted R' l.
Proof.
  intros Himp Hs. induction Hs as [|x t Ht IH Hx]; constructor.
  - apply IH. intros a b Ha Hb. apply Himp; now right.
  - rewrite Forall_forall in *. intros b Hb.
    apply Himp; [now left | now right | apply Hx, Hb].
Qed.

Lemma StronglySorted_map_fst {B : Type} (R : nat * B -> nat * B -> Prop)
      (R' : nat -> nat -> Prop) (l : list (nat * B)) :
  (forall p q, In p l -> In q l -> R p q -> R' (fst p) (fst q)) ->
  StronglySorted R l -> StronglySorted R' (map fst l).
Proof.
  intros Himp Hs. induction Hs as [|x t Ht IH Hx]; simpl; constructor.
  - apply IH. intros p q Hp Hq. apply Himp; now right.
  - apply Forall_forall. intros i Hi. apply in_map_iff in Hi.
    destruct Hi as [q [<- Hq]]. rewrite Forall_forall in Hx.
    apply Himp; [now left | now right | apply Hx, Hq].
Qed.

Lemma StronglySorted_conj {B : Type} (R1 R2 : B -> B -> Prop) (l : list B) :
  StronglySorted R1 l -> StronglySorted R2 l ->
  StronglySorted (fun a b => R1 a b /\ R2 a b) l.
Proof.
  induction 1 as [|x t Ht IH Hx]; intros H2; [constructor|].
  inversion H2 as [|? ? Ht2 Hx2]; subst. constructor; [now apply IH|].
  rewrite Forall_forall in *. intros b Hb. split; [apply Hx, Hb | apply Hx2, Hb].
Qed.

(** In a list without repetition, positions grow along the list. *)
Lemma position_sorted (p : list nat) :
  NoDup p -> StronglySorted (fun i j => position p i < position p j)%nat p.
Proof.
  induction 1 as [|x p Hx Hnd IH]; constructor.
  - apply (StronglySorted_weaken
             (fun i j => position p i < position p j)%nat); [|exact IH].
    intros a b Ha Hb Hlt. cbn [position].
    destruct (Nat.eqb_spec x a) as [->|_]; [contradiction|].
    destruct (Nat.eqb_spec x b) as [->|_]; [contradiction|]. lia.
  - apply Forall_forall. intros j Hj. cbn [position].
    rewrite Nat.eqb_refl.
    destruct (Nat.eqb_spec x j) as [->|_]; [contradiction | lia].
Qed.

(** Whatever ascending arrangement [p] of the indices a sort may return,
    it is the argsort for the tie order that ranks the indices by their
    place in [p]. *)
Lemma argsort_any_order (a : list A) (p : list nat) :
  Permutation p (seq 0 (length a)) ->
  StronglySorted (fun i j => forall x y, nth_error a i = Some x ->
                                         nth_error a j = Some y ->
                                         leb x y = true) p ->
  argsort leb (fun _ => position p) a = p.
Proof.
  intros Hperm Hasc.
  set (tie := fun _ : list A => position p).
  set (R := fun i j => forall x y, nth_error a i = Some x ->
                                   nth_error a j = Some y ->
                                   before leb tie a (i, x) (j, y) = true).
  assert (Hnd : NoDup p).
  { eapply Permutation_NoDup; [apply Permutation_sym, Hperm | apply seq_NoDup]. }
  assert (Hval : Forall (fun q => nth_error a (fst q) = Some (snd q))
                        (argsort_pairs leb tie a)).
  { exact (proj2 (argsort_pairs_spec leb tie leb_total leb_trans a)). }
  rewrite Forall_forall in Hval.
  apply (sorted_unique R).
  - intros i j Hi Hj Hij Hji.
    apply (proj1 (argsort_In _ _ _ _)) in Hi, Hj.
    destruct (nth_error a i) as [x|] eqn:Ex; [|apply nth_error_None in Ex; lia].
    destruct (nth_error a j) as [y|] eqn:Ey; [|apply nth_error_None in Ey; lia].
    specialize (Hij x y Ex Ey). specialize (Hji y x Ey Ex).
    apply before_spec in Hij, Hji. cbn [fst snd] in Hij, Hji.
    destruct Hij as [Hij | (H1 & H2 & Hk1)], Hji as [Hji | (H3 & H4 & Hk2)];
      try congruence.
    + destruct (leb_total x y); congruence.
    + lia.
  - unfold argsort. apply (StronglySorted_map_fst
      (fun p q => before leb tie a p q = true)); [|apply argsort_pairs_sorted_before].
    intros [i x] [j y] Hp Hq Hb x' y' Hx' Hy'. cbn [fst] in *.
    pose proof (Hval _ Hp) as Hx. pose proof (Hval _ Hq) as Hy.
    cbn [fst snd] in Hx, Hy. congruence.
  - apply (StronglySorted_weaken
             (fun i j => (forall x y, nth_error a i = Some x ->
                                      nth_error a j = Some y ->
                                      leb x y = true)
                         /\ (position p i < position p j)%nat)).
    + intros i j _ _ [Hij Hpos] x y Hx Hy. apply before_spec. cbn [fst snd].
      destruct (leb y x) eqn:Eyx; [right | now left].
      split; [exact (Hij x y Hx Hy)|]. split; [reflexivity|]. now left.
    + apply StronglySorted_conj; [exact Hasc | apply position_sorted, Hnd].
  - apply NoDup_Permutation; [apply argsort_NoDup | exact Hnd|].
    intros i. rewrite argsort_In. split.
    + intros Hi. eapply Permutation_in; [apply Permutation_sym, Hperm|].
      apply in_seq. lia.
    + intros Hi. eapply Permutation_in in Hi; [|exact Hperm].
      apply in_seq in Hi. lia.
Qed.

(** So the retrieval can return the last [k] of any ascending
    arrangement, reversed. *)
Lemma top_indices_any_order (a : list A) (p : list nat) (k : Z) :
  Permutation p (seq 0 (length a)) ->
  StronglySorted (fun i j => forall x y, nth_error a i = Some x ->
                                         nth_error a j = Some y ->
                                         leb x y = true) p ->
  top_indices leb (fun _ => position p) a k = rev (last_slice k p).
Proof.
  intros Hperm Hasc. unfold top_indices.
  now rewrite (argsort_any_order a p Hperm Hasc).
Qed.

End TieOrders.

(* ================================================================== *)
(** ** The requests [ask_faq_core] sends *)

Section AskTrace.

Context `{Services}.

Lemma silent_ret X (x : X) : silent (ret x).
Proof. intros w. reflexivity. Qed.

Lemma silent_read X (g : store -> X) : silent (read g).
Proof. intros w. reflexivity. Qed.

Lemma silent_index X (xs : list X) i : silent (index xs i).
Proof. intros w. unfold index. destruct (nth_error xs i); reflexivity. Qed.

Lemma silent_bind X Y (m : M X) (f : X -> M Y) :
  silent m -> (forall x, silent (f x)) -> silent (bind m f).
Proof.
  intros Hm Hf w. unfold bind. specialize (Hm w).
  destruct (m w) as [[e|x] w1]; simpl in *; [exact Hm|].
  rewrite Hf. exact Hm.
Qed.

Lemma silent_for_each X Y (f : X -> M Y) idx :
  (forall i, silent (f i)) -> silent (for_each f idx).
Proof.
  intros Hf. induction idx as [|i rest IH]; cbn [for_each].
  - apply silent_ret.
  - apply silent_bind; [apply Hf|]. intros y.
    apply silent_bind; [exact IH|]. intros ys. apply silent_ret.
Qed.

Lemma silent_inv X (m : M X) w res w' : silent m -> m w = (res, w') -> w' = w.
Proof. intros Hm E. specialize (Hm w). rewrite E in Hm. exact Hm. Qed.

Lemma silent_context_parts idx :
  silent (for_each
            (fun i : nat =>
               bind (read _SOURCES) (fun srcs =>
               bind (index srcs i) (fun s =>
               bind (read _CHUNKS) (fun chs =>
               bind (index chs i) (fun c =>
               ret (lit "[From " ++ s ++ lit "]" ++ nl ++ c))))))
            idx).
Proof.
  apply silent_for_each. intros i.
  apply silent_bind; [apply silent_read | intros srcs].
  apply silent_bind; [apply silent_index | intros s].
  apply silent_bind; [apply silent_read | intros chs].
  apply silent_bind; [apply silent_index | intros c].
  apply silent_ret.
Qed.

(** What a normal return tells about the requests sent and the answer. *)
Lemma ask_faq_core_trace question top_k w r w' :
  ask_faq_core question top_k w = (inr r, w') ->
  exists user_prompt content rest,
    let q := trimmed_question question in
    chat_completions_create (sent w ++ [EmbeddingsCreate [q]])
                            system_prompt user_prompt = Some (Some content :: rest)
    /\ answer r = strip content
    /\ globals w' = globals w
    /\ sent w' = sent w ++ [EmbeddingsCreate [q];
                            ChatCompletionsCreate system_prompt user_prompt].
Proof.
  unfold ask_faq_core. fold (trimmed_question question).
  destruct (trimmed_question question) as [|c q] eqn:Eq; [discriminate|].
  intros E.
  apply bind_inr in E. destruct E as (embeds & w1 & E1 & E).
  injection E1 as <- <-.
  apply bind_inr in E. destruct E as (chunks & w1 & E2 & E).
  injection E2 as <- <-.
  destruct (_CHUNK_EMBEDS (globals w)) as [embeds|] eqn:Ee;
    [|destruct (_CHUNKS (globals w)); discriminate].
  destruct (_CHUNKS (globals w)) as [|ch chunks] eqn:Ec; [discriminate|].
  apply bind_inr in E. destruct E as (query_emb & w1 & E3 & E).
  unfold _embed_query in E3.
  apply bind_inr in E3. destruct E3 as (data & w0 & E4 & E5).
  unfold call_embeddings in E4.
  destruct (embeddings_create (sent w) [c :: q]) as [data'|] eqn:Ed; [|discriminate].
  injection E4 as <- <-.
  unfold index in E5.
  destruct (nth_error data' 0) as [v|] eqn:En; [|discriminate].
  injection E5 as <- <-.
  apply bind_inr in E. destruct E as (sims & w2 & Es & E).
  apply lift_inr in Es. destruct Es as [Es ->].
  apply bind_inr in E. destruct E as (top_sources & w2 & E6 & E).
  apply for_each_index_inv in E6. destruct E6 as [-> _].
  apply bind_inr in E. destruct E as (context_parts & w3 & E7 & E).
  apply (silent_inv _ _ _ _ _ (silent_context_parts _)) in E7. subst w3.
  apply bind_inr in E. destruct E as (ans & w4 & E8 & E).
  injection E as <- <-.
  unfold _generate_answer in E8.
  apply bind_inr in E8. destruct E8 as (choices & w5 & E9 & E8).
  apply bind_inr in E8. destruct E8 as (content & w6 & E10 & E8).
  unfold call_chat in E9. cbn [sent globals] in E9.
  match type of E9 with
  | context [chat_completions_create _ _ ?up] => set (user_prompt := up) in *
  end.
  destruct (chat_completions_create (sent w ++ [EmbeddingsCreate [c :: q]])
              system_prompt user_prompt) as [choices'|] eqn:Ech; [|discriminate].
  injection E9 as <- <-.
  unfold index in E10. destruct choices' as [|first rest]; [discriminate|].
  injection E10 as <- <-.
  destruct first as [content'|]; [|discriminate].
  injection E8 as <- <-.
  exists user_prompt, content', rest. cbn zeta. cbn [answer globals sent].
  split; [exact Ech|]. split; [reflexivity|]. split; [reflexivity|].
  rewrite <- app_assoc. reflexivity.
Qed.

End AskTrace.

(* ================================================================== *)
(** ** Running [ask_faq_core] forward *)

Section AskForward.

Context `{Services}.

Lemma bind_ok X Y (m : M X) (f : X -> M Y) w x w1 :
  m w = (inr x, w1) -> bind m f w = f x w1.
Proof. intros E. unfold bind. now rewrite E. Qed.

Lemma bind_err X Y (m : M X) (f : X -> M Y) w e w1 :
  m w = (inl e, w1) -> bind m f w = (inl e, w1).
Proof. intros E. unfold bind. now rewrite E. Qed.

Lemma for_each_index_ok X (g : store -> list X) idx w :
  Forall (fun i => (i < length (g (globals w)))%nat) idx ->
  exists xs,
    for_each (fun i => bind (read g) (fun l => index l i)) idx w = (inr xs, w)
    /\ length xs = length idx.
Proof.
  induction 1 as [|i rest Hi Hrest [xs [IH Hl]]]; cbn [for_each].
  - exists []. split; reflexivity.
  - destruct (nth_error (g (globals w)) i) as [x|] eqn:En;
      [|apply nth_error_None in En; lia].
    exists (x :: xs). split; [|simpl; now rewrite Hl].
    rewrite (bind_ok _ _ _ _ w x w).
    + rewrite (bind_ok _ _ _ _ w xs w IH). reflexivity.
    + unfold bind, read, index. now rewrite En.
Qed.

Lemma for_each_context_ok idx w :
  Forall (fun i => (i < length (_SOURCES (globals w)))%nat
                   /\ (i < length (_CHUNKS (globals w)))%nat) idx ->
  exists parts,
    for_each
      (fun i : nat =>
         bind (read _SOURCES) (fun srcs =>
         bind (index srcs i) (fun s =>
         bind (read _CHUNKS) (fun chs =>
         bind (index chs i) (fun c =>
         ret (lit "[From " ++ s ++ lit "]" ++ nl ++ c))))))
      idx w = (inr parts, w).
Proof.
  induction 1 as [|i rest [Hs Hc] Hrest [parts IH]]; cbn [for_each].
  - exists []. reflexivity.
  - destruct (nth_error (_SOURCES (globals w)) i) as [s|] eqn:Es;
      [|apply nth_error_None in Es; lia].
    destruct (nth_error (_CHUNKS (globals w)) i) as [c|] eqn:Ec;
      [|apply nth_error_None in Ec; lia].
    eexists.
    rewrite (bind_ok _ _ _ _ w (lit "[From " ++ s ++ lit "]" ++ nl ++ c) w).
    + rewrite (bind_ok _ _ _ _ w parts w IH). reflexivity.
    + unfold bind, read, index. rewrite Es. cbn [ret globals]. now rewrite Ec.
Qed.

Lemma embed_query_run query w :
  _embed_query query w
  = let w1 := {| globals := globals w;
                 sent := sent w ++ [EmbeddingsCreate [query]] |} in
    match embeddings_create (sent w) [query] with
    | None => (inl ServiceError, w1)
    | Some [] => (inl IndexError, w1)
    | Some (v :: _) => (inr v, w1)
    end.
Proof.
  unfold _embed_query, bind, call_embeddings, index.
  destruct (embeddings_create (sent w) [query]) as [[|v data]|]; reflexivity.
Qed.

Lemma generate_answer_run context question source_files w :
  exists user_prompt,
    _generate_answer context question source_files w
    = let w1 := {| globals := globals w;
                   sent := sent w ++ [ChatCompletionsCreate system_prompt user_prompt] |} in
      match chat_completions_create (sent w) system_prompt user_prompt with
      | None => (inl ServiceError, w1)
      | Some [] => (inl IndexError, w1)
      | Some (None :: _) => (inl AttributeError, w1)
      | Some (Some content :: _) => (inr (strip content), w1)
      end.
Proof.
  unfold _generate_answer, bind, call_chat, index. eexists. cbn zeta.
  destruct (chat_completions_create (sent w) system_prompt _)
    as [[|[content|] rest]|] eqn:E; rewrite E; reflexivity.
Qed.

(** When the similarities cannot be computed: the stored array has no
    row, or a row whose dimension is not that of the query. *)
Lemma cosine_similarity_error embeddings query_vec e :
  _cosine_similarity embeddings query_vec = inl e ->
  (e = NumpyError AxisOutOfBounds /\ embeddings = [])
  \/ (e = NumpyError MatmulMismatch
      /\ exists row, In row embeddings /\ dim row <> dim query_vec).
Proof.
  unfold _cosine_similarity. destruct embeddings as [|row rows].
  - intros E. injection E as <-. left. split; reflexivity.
  - destruct (forallb _ _) eqn:Ef; [discriminate|].
    intros E. injection E as <-. right. split; [reflexivity|].
    destruct (forallb_forall (fun r => (dim r =? dim query_vec)%nat) (row :: rows))
      as [_ Hall].
    destruct (Exists_dec (fun r => dim r <> dim query_vec) (row :: rows)) as [Hex|Hno].
    + intros r. destruct (Nat.eq_dec (dim r) (dim query_vec)); [right | left]; auto.
    + apply Exists_exists in Hex. exact Hex.
    + exfalso. rewrite Hall in Ef; [discriminate|].
      intros r Hr. apply Nat.eqb_eq.
      destruct (Nat.eq_dec (dim r) (dim query_vec)) as [Heq|Hneq]; [exact Heq|].
      exfalso. apply Hno, Exists_exists. exists r. split; assumption.
Qed.

(** The exceptions of [ask_faq_core], on any store: its own two, those of
    the services and of the subscripts, the missing [strip] of a null
    content, and what NumPy raises when the similarities cannot be
    computed. *)
Lemma ask_faq_core_raises question top_k w e :
  fst (ask_faq_core question top_k w) = inl e ->
  (e = ValueError QuestionRequired /\ trimmed_question question = [])
  \/ e = RuntimeError \/ e = ServiceError \/ e = IndexError \/ e = AttributeError
  \/ (exists embeds query_emb data,
        _CHUNK_EMBEDS (globals w) = Some embeds
        /\ embeddings_create (sent w) [trimmed_question question]
           = Some (query_emb :: data)
        /\ _cosine_similarity embeds query_emb = inl e).
Proof.
  unfold ask_faq_core. fold (trimmed_question question).
  destruct (trimmed_question question) as [|c q] eqn:Eq.
  { simpl. intros E. injection E as <-. left. split; reflexivity. }
  unfold bind at 1, read at 1. unfold bind at 1, read at 1.
  destruct (_CHUNK_EMBEDS (globals w)) as [embeds|] eqn:Ee.
  2:{ destruct (_CHUNKS (globals w)); simpl; intros E; injection E as <-; auto. }
  destruct (_CHUNKS (globals w)) as [|ch chunks] eqn:Ec.
  { simpl. intros E. injection E as <-. auto. }
  unfold bind at 1. rewrite embed_query_run. cbn zeta.
  destruct (embeddings_create (sent w) [c :: q]) as [[|v data]|] eqn:Ed.
  { simpl. intros E. injection E as <-. auto. }
  2:{ simpl. intros E. injection E as <-. auto. }
  unfold bind at 1.
  destruct (_cosine_similarity embeds v) as [e'|sims] eqn:Es.
  { simpl. intros E. injection E as <-. do 5 right.
    exists embeds, v, data. repeat split; assumption. }
  cbn [lift ret].
  match goal with
  | |- fst (?m ?w1) = inl e -> _ =>
      assert (Hrest : raises_only
                        (fun e => e = IndexError \/ e = ServiceError
                                  \/ e = AttributeError) m)
  end.
  { unfold _generate_answer.
    repeat first [ apply raises_only_ret | apply raises_only_read
                 | apply raises_only_raise; auto
                 | apply raises_only_call_chat; auto
                 | apply raises_only_index; auto
                 | apply raises_only_for_each; intros ?
                 | apply raises_only_bind; [|intros ?]
                 | match goal with
                   | |- raises_only _ (match ?c with _ => _ end) => destruct c
                   end ]. }
  intros E. destruct (Hrest _ _ E) as [-> | [-> | ->]]; auto 10.
Qed.

(** On a well-formed store the subscripts [_SOURCES[i]] and [_CHUNKS[i]]
    are in range: [ask_faq_core] raises [IndexError] only on an empty
    reply of a service, and NumPy objects only to a query of another
    dimension than the stored rows. *)
Lemma ask_faq_core_forward question top_k w :
  well_formed (globals w) ->
  forall e, fst (ask_faq_core question top_k w) = inl e ->
    e = ValueError QuestionRequired \/ e = RuntimeError \/ e = ServiceError
    \/ (e = IndexError
        /\ embeddings_create (sent w) [trimmed_question question] = Some [])
    \/ (e = IndexError
        /\ exists user_prompt,
             chat_completions_create
               (sent w ++ [EmbeddingsCreate [trimmed_question question]])
               system_prompt user_prompt = Some [])
    \/ (e = AttributeError
        /\ exists user_prompt rest,
             chat_completions_create
               (sent w ++ [EmbeddingsCreate [trimmed_question question]])
               system_prompt user_prompt = Some (None :: rest))
    \/ (e = NumpyError MatmulMismatch
        /\ exists embeds query_emb data row,
             _CHUNK_EMBEDS (globals w) = Some embeds
             /\ embeddings_create (sent w) [trimmed_question question]
                = Some (query_emb :: data)
             /\ In row embeds /\ dim row <> dim query_emb).
Proof.
  intros [Hsrc Hal] e. unfold ask_faq_core. fold (trimmed_question question).
  destruct (trimmed_question question) as [|c q] eqn:Eq.
  { simpl. intros E. injection E as <-. now left. }
  unfold bind at 1, read at 1. unfold bind at 1, read at 1.
  destruct (_CHUNK_EMBEDS (globals w)) as [embeds|] eqn:Ee.
  2:{ destruct (_CHUNKS (globals w)); simpl; intros E; injection E as <-; auto. }
  destruct (_CHUNKS (globals w)) as [|ch chunks] eqn:Ec.
  { simpl. intros E. injection E as <-. auto. }
  unfold bind at 1. rewrite embed_query_run. cbn zeta.
  destruct (embeddings_create (sent w) [c :: q]) as [[|v data]|] eqn:Ed.
  { simpl. intros E. injection E as <-. right. right. right. auto. }
  2:{ simpl. intros E. injection E as <-. auto. }
  set (w1 := {| globals := globals w;
                sent := sent w ++ [EmbeddingsCreate [c :: q]] |}).
  unfold bind at 1.
  destruct (_cosine_similarity embeds v) as [e'|sims] eqn:Es.
  { simpl. intros E. injection E as <-.
    destruct (cosine_similarity_error _ _ _ Es) as [[_ Hnil] | [-> [row [Hin Hd]]]].
    - exfalso. pose proof (Hal embeds Ee) as Hl. rewrite Ec, Hnil in Hl.
      discriminate.
    - do 6 right. split; [reflexivity|].
      exists embeds, v, data, row. repeat split; assumption. }
  cbn [lift ret].
  destruct (cosine_similarity_inv _ _ _ Es) as [_ [Hlen _]].
  set (idx := top_indices score_leb argsort_tie sims
                          (clamp_top_k TOP_K_DEFAULT top_k)).
  assert (Hidx : forall i, In i idx -> (i < length (ch :: chunks))%nat).
  { intros i Hi.
    apply (proj2 (top_indices_valid_distinct_aux score_leb _ _ _)) in Hi.
    pose proof (Hal embeds Ee) as Hl. rewrite Ec in Hl. lia. }
  destruct (for_each_index_ok _ _SOURCES idx w1) as [top_sources [Ets _]].
  { apply Forall_forall. intros i Hi. unfold w1. cbn [globals].
    rewrite Hsrc. auto. }
  rewrite (bind_ok _ _ _ _ _ _ _ Ets).
  destruct (for_each_context_ok idx w1) as [parts Eparts].
  { apply Forall_forall. intros i Hi. unfold w1. cbn [globals].
    rewrite Hsrc, Ec. auto. }
  rewrite (bind_ok _ _ _ _ _ _ _ Eparts).
  destruct (generate_answer_run
              (join (nl ++ nl ++ lit "---" ++ nl ++ nl) parts) (c :: q)
              top_sources w1) as [up Egen].
  unfold bind. rewrite Egen. cbn zeta.
  destruct (chat_completions_create (sent w1) system_prompt up)
    as [[|[content|] rest]|] eqn:Ech; simpl.
  - intros E. injection E as <-. do 4 right. left. split; [reflexivity|].
    exists up. exact Ech.
  - discriminate.
  - intros E. injection E as <-. do 5 right. left. split; [reflexivity|].
    exists up, rest. exact Ech.
  - intros E. injection E as <-. auto.
Qed.

Lemma ask_faq_core_uninit question top_k w :
  trimmed_question question <> [] ->
  _CHUNK_EMBEDS (globals w) = None \/ _CHUNKS (globals w) = [] ->
  ask_faq_core question top_k w = (inl RuntimeError, w).
Proof.
  intros Hq Hinit. unfold ask_faq_core. fold (trimmed_question question).
  destruct (trimmed_question question) as [|c q]; [contradiction|].
  unfold bind, read.
  destruct Hinit as [-> | ->].
  - destruct (_CHUNKS (globals w)); reflexivity.
  - destruct (_CHUNK_EMBEDS (globals w)); reflexivity.
Qed.

End AskForward.

(* ================================================================== *)
(** ** More properties of [ask_faq_core] and [ask_faq] *)

Section SourceCount.

Lemma insert_str_length x l : length (insert_str x l) = S (length l).
Proof.
  induction l as [|y t IH]; simpl; [reflexivity|].
  destruct (str_leb x y); simpl; [reflexivity | now rewrite IH].
Qed.

Lemma sorted_length l : length (sorted l) = length l.
Proof.
  induction l as [|x t IH]; simpl; [reflexivity|].
  now rewrite insert_str_length, IH.
Qed.

Lemma py_set_length l : (length (py_set l) <= length l)%nat.
Proof.
  induction l as [|x t IH]; simpl; [lia|].
  destruct (existsb (str_eqb x) t); simpl; lia.
Qed.

End SourceCount.

(** X3: a call of [ask_faq_core] that returns has sent exactly two
    requests, in this order: the embedding of the trimmed question alone,
    then one chat completion under the fixed system prompt. *)
Theorem ask_sends_two_requests `{Services}
        (question : option str) (top_k : option Z) (w : world) (r : answer_dict) :
  fst (ask_faq_core question top_k w) = inr r ->
  exists user_prompt,
    sent (snd (ask_faq_core question top_k w))
    = sent w ++ [EmbeddingsCreate [trimmed_question question];
                 ChatCompletionsCreate system_prompt user_prompt].
Proof.
  intros E. destruct (ask_faq_core question top_k w) as [res w'] eqn:Ea.
  simpl in E. subst res.
  destruct (ask_faq_core_trace question top_k w r w' Ea)
    as (up & content & rest & _ & _ & _ & Hs).
  exists up. exact Hs.
Qed.

Lemma ask_sends_two_requests_witness :
  exists user_prompt,
    sent (snd (@ask_faq_core Demo.platform Demo.services
                 (Some (lit " price? ")) None Demo.start))
    = sent Demo.start
      ++ [EmbeddingsCreate [trimmed_question (Some (lit " price? "))];
          ChatCompletionsCreate system_prompt user_prompt].
Proof.
  apply (@ask_sends_two_requests Demo.platform Demo.services
           (Some (lit " price? ")) None Demo.start Demo.expected).
  reflexivity.
Defined.

(** X4: with a question that is not blank, [ask_faq_core] on a store
    that has no embeddings or no chunk raises [RuntimeError] and sends
    nothing. *)
Theorem ask_not_initialized `{Services}
        (question : option str) (top_k : option Z) (w : world) :
  trimmed_question question <> [] ->
  _CHUNK_EMBEDS (globals w) = None \/ _CHUNKS (globals w) = [] ->
  ask_faq_core question top_k w = (inl RuntimeError, w).
Proof. apply ask_faq_core_uninit. Qed.

Lemma ask_not_initialized_witness :
  @ask_faq_core Demo.platform Demo.services (Some (lit " price? ")) None
    Demo.fresh
  = (inl RuntimeError, Demo.fresh).
Proof.
  apply (@ask_not_initialized Demo.platform Demo.services
           (Some (lit " price? ")) None Demo.fresh).
  - vm_compute. discriminate.
  - left. reflexivity.
Defined.

(** X5: when the embedding request fails, [ask_faq_core] raises
    [ServiceError] having sent that one request: no chat completion is
    asked for. *)
Theorem ask_embedding_failure `{Services}
        (question : option str) (top_k : option Z) (w : world) :
  trimmed_question question <> [] ->
  _CHUNK_EMBEDS (globals w) <> None -> _CHUNKS (globals w) <> [] ->
  embeddings_create (sent w) [trimmed_question question] = None ->
  ask_faq_core question top_k w
  = (inl ServiceError,
     {| globals := globals w;
        sent := sent w ++ [EmbeddingsCreate [trimmed_question question]] |}).
Proof.
  intros Hq He Hc Hfail. unfold ask_faq_core. fold (trimmed_question question).
  destruct (trimmed_question question) as [|c q]; [contradiction|].
  unfold bind at 1, read at 1. unfold bind at 1, read at 1.
  destruct (_CHUNK_EMBEDS (globals w)) as [embeds|]; [|contradiction].
  destruct (_CHUNKS (globals w)) as [|ch chunks]; [contradiction|].
  unfold bind at 1. rewrite embed_query_run. cbn zeta. now rewrite Hfail.
Qed.

Lemma ask_embedding_failure_witness :
  @ask_faq_core Demo.platform Demo.offline (Some (lit " price? ")) None Demo.start
  = (inl ServiceError,
     {| globals := globals Demo.start;
        sent := sent Demo.start
                ++ [EmbeddingsCreate [trimmed_question (Some (lit " price? "))]] |}).
Proof.
  apply (@ask_embedding_failure Demo.platform Demo.offline
           (Some (lit " price? ")) None Demo.start).
  - vm_compute. discriminate.
  - discriminate.
  - discriminate.
  - reflexivity.
Defined.

(** X6: on a well-formed store (one label and one embedding row per
    chunk), [ask_faq_core] raises [IndexError] only when a service
    answered with an empty list: the embedding service with no vector
    ([response.data[0]]), or the chat service with no choice
    ([response.choices[0]]).  The subscripts [_SOURCES[i]] and
    [_CHUNKS[i]] are always in range there. *)
Theorem ask_no_index_error `{Services}
        (question : option str) (top_k : option Z) (w : world) :
  well_formed (globals w) ->
  fst (ask_faq_core question top_k w) = inl IndexError ->
  embeddings_create (sent w) [trimmed_question question] = Some []
  \/ exists user_prompt,
       chat_completions_create
         (sent w ++ [EmbeddingsCreate [trimmed_question question]])
         system_prompt user_prompt = Some [].
Proof.
  intros Hwf E.
  destruct (ask_faq_core_forward question top_k w Hwf _ E)
    as [H1 | [H1 | [H1 | [[_ H1] | [[_ H1] | [[H1 _] | [H1 _]]]]]]];
    try discriminate; auto.
Qed.

Lemma ask_no_index_error_witness :
  @embeddings_create Demo.platform Demo.speechless (sent Demo.start)
    [trimmed_question (Some (lit " price? "))] = Some []
  \/ exists user_prompt,
       @chat_completions_create Demo.platform Demo.speechless
         (sent Demo.start
          ++ [EmbeddingsCreate [trimmed_question (Some (lit " price? "))]])
         system_prompt user_prompt = Some [].
Proof.
  apply (@ask_no_index_error Demo.platform Demo.speechless
           (Some (lit " price? ")) None Demo.start).
  - split; [reflexivity|]. intros embeds E. injection E as <-. reflexivity.
  - reflexivity.
Defined.

(** X7: the sources returned are never more than ten, and never more
    than the rows of the embedding matrix. *)
Theorem sources_at_most_top_k `{Services}
        (question : option str) (top_k : option Z) (w : world) (r : answer_dict) :
  fst (ask_faq_core question top_k w) = inr r ->
  (length (sources r) <= 10)%nat
  /\ forall embeds, _CHUNK_EMBEDS (globals w) = Some embeds ->
                    (length (sources r) <= length embeds)%nat.
Proof.
  intros E. destruct (ask_faq_core question top_k w) as [res w'] eqn:Ea.
  simpl in E. subst res.
  destruct (ask_faq_core_inv question top_k w r w' Ea)
    as (embeds & data & query_emb & sims & top_sources
        & _ & He & _ & _ & _ & Hsim & HF & Hs).
  apply Forall2_length in HF.
  rewrite top_indices_count in HF by apply clamp_top_k_range.
  destruct (cosine_similarity_inv _ _ _ Hsim) as [_ [Hlen _]].
  rewrite Hlen in HF.
  pose proof (clamp_top_k_range TOP_K_DEFAULT top_k) as Hk.
  pose proof (py_set_length top_sources) as Hp.
  rewrite Hs, sorted_length. split; [lia|].
  intros embeds' He'. rewrite He in He'. injection He' as <-. lia.
Qed.

Lemma sources_at_most_top_k_witness :
  (length (sources Demo.expected) <= 10)%nat
  /\ forall embeds, _CHUNK_EMBEDS (globals Demo.start) = Some embeds ->
                    (length (sources Demo.expected) <= length embeds)%nat.
Proof.
  apply (@sources_at_most_top_k Demo.platform Demo.services
           (Some (lit " price? ")) None Demo.start Demo.expected).
  reflexivity.
Defined.

(** X8: the answer returned is trimmed: it is the content of the first
    choice in the reply of the chat service, without leading or trailing
    whitespace. *)
Theorem answer_is_trimmed `{Services}
        (question : option str) (top_k : option Z) (w : world) (r : answer_dict) :
  fst (ask_faq_core question top_k w) = inr r ->
  strip (answer r) = answer r
  /\ exists user_prompt content rest,
       chat_completions_create
         (sent w ++ [EmbeddingsCreate [trimmed_question question]])
         system_prompt user_prompt = Some (Some content :: rest)
       /\ answer r = strip content.
Proof.
  intros E. destruct (ask_faq_core question top_k w) as [res w'] eqn:Ea.
  simpl in E. subst res.
  destruct (ask_faq_core_trace question top_k w r w' Ea)
    as (up & content & rest & Hc & Ha & _ & _).
  split; [rewrite Ha; apply strip_idem|].
  exists up, content, rest. split; assumption.
Qed.

Lemma answer_is_trimmed_witness :
  strip (answer Demo.expected) = answer Demo.expected
  /\ exists user_prompt content rest,
       @chat_completions_create Demo.platform Demo.services
         (sent Demo.start
          ++ [EmbeddingsCreate [trimmed_question (Some (lit " price? "))]])
         system_prompt user_prompt = Some (Some content :: rest)
       /\ answer Demo.expected = strip content.
Proof.
  apply (@answer_is_trimmed Demo.platform Demo.services
           (Some (lit " price? ")) None Demo.start Demo.expected).
  reflexivity.
Defined.

(* ================================================================== *)
(** ** The MCP tool and the core *)

Section McpFacts.

Context `{Services}.

(** [ask_faq_core] depends on the question through its trimmed form
    only. *)
Lemma ask_faq_core_trimmed q1 q2 top_k w :
  trimmed_question q1 = trimmed_question q2 ->
  ask_faq_core q1 top_k w = ask_faq_core q2 top_k w.
Proof.
  intros Hq. unfold ask_faq_core.
  fold (trimmed_question q1). fold (trimmed_question q2). now rewrite Hq.
Qed.

Lemma bind_ret_dict (m : M answer_dict) w :
  bind m (fun r => ret {| answer := answer r; sources := sources r |}) w = m w.
Proof.
  unfold bind, ret. destruct (m w) as [[e|[a s]] w1]; reflexivity.
Qed.

End McpFacts.

(** X9: for a question that is not blank, the MCP tool [ask_faq] does
    exactly what [ask_faq_core] does on the same question with [top_k]
    replaced by 4 when it is absent or outside [1,10]: same result, same
    requests, same world. *)
Theorem mcp_is_core `{Services}
        (question : option str) (top_k : option Z) (w : world) :
  trimmed_question question <> [] ->
  ask_faq question top_k w
  = ask_faq_core question (Some (mcp_top_k top_k)) w.
Proof.
  intros Hq. unfold ask_faq. fold (trimmed_question question).
  destruct (trimmed_question question) as [|c q] eqn:Eq; [contradiction|].
  rewrite bind_ret_dict. apply ask_faq_core_trimmed.
  unfold trimmed_question in *. rewrite <- Eq. apply strip_idem.
Qed.

Lemma mcp_is_core_witness :
  @ask_faq Demo.platform Demo.services (Some (lit " price? ")) (Some 15%Z) Demo.start
  = @ask_faq_core Demo.platform Demo.services (Some (lit " price? "))
      (Some (mcp_top_k (Some 15%Z))) Demo.start.
Proof.
  apply (@mcp_is_core Demo.platform Demo.services
           (Some (lit " price? ")) (Some 15%Z) Demo.start).
  vm_compute. discriminate.
Defined.

(** X10: through the MCP tool the number of chunks asked for is [top_k]
    itself when it lies in [1,10] and 4 in every other case (absent,
    zero, negative, above 10); the clamp of the core then changes
    nothing, whatever default is configured. *)
Theorem mcp_top_k_spec (default : Z) (top_k : option Z) :
  (forall n, top_k = Some n -> (1 <= n <= 10)%Z -> mcp_top_k top_k = n)
  /\ (top_k = None -> mcp_top_k top_k = 4%Z)
  /\ (forall n, top_k = Some n -> (n <= 0 \/ 10 < n)%Z -> mcp_top_k top_k = 4%Z)
  /\ clamp_top_k default (Some (mcp_top_k top_k)) = mcp_top_k top_k.
Proof.
  unfold mcp_top_k, clamp_top_k, py_or.
  split; [intros n -> Hn|split; [intros ->; reflexivity|split; [intros n -> Hn|]]].
  - destruct (Z.leb_spec n 0); [lia|]. destruct (Z.gtb_spec n 10); [lia|]. reflexivity.
  - destruct (Z.leb_spec n 0); [reflexivity|].
    destruct (Z.gtb_spec n 10); [reflexivity | lia].
  - destruct top_k as [n|]; [|reflexivity].
    destruct (Z.leb_spec n 0); [reflexivity|].
    destruct (Z.gtb_spec n 10); [reflexivity|]. simpl.
    destruct (Z.eqb_spec n 0); lia.
Qed.

Lemma mcp_top_k_spec_witness :
  mcp_top_k (Some 7%Z) = 7%Z /\ mcp_top_k (Some 15%Z) = 4%Z
  /\ clamp_top_k 9 (Some (mcp_top_k (Some (-2)%Z))) = mcp_top_k (Some (-2)%Z).
Proof.
  split; [|split].
  - apply (proj1 (mcp_top_k_spec 9 (Some 7%Z)) 7%Z); [reflexivity | lia].
  - apply (proj1 (proj2 (proj2 (mcp_top_k_spec 9 (Some 15%Z)))) 15%Z);
      [reflexivity | lia].
  - apply (proj2 (proj2 (proj2 (mcp_top_k_spec 9 (Some (-2)%Z))))).
Defined.

(* ================================================================== *)
(** ** Edge cases of the chunker *)

Section ChunkerEdges.

Lemma remove_ws_nil_lstrip s : remove_ws s = [] -> lstrip s = [].
Proof.
  induction s as [|c t IH]; simpl; [reflexivity|].
  destruct (is_space c); simpl; [exact IH | discriminate].
Qed.

Lemma strip_remove_ws_nonempty s : strip s <> [] -> remove_ws s <> [].
Proof.
  intros Hs Hr. apply Hs. unfold strip.
  now rewrite (remove_ws_nil_lstrip _ Hr).
Qed.

Lemma concat_nonempty_Exists (l : list str) :
  concat l <> [] -> Exists (fun c => c <> []) l.
Proof.
  induction l as [|x l IH]; simpl; intros Hc; [contradiction|].
  destruct x as [|a x]; [right; apply IH, Hc | left; discriminate].
Qed.

(** *** A non-positive size *)

Lemma float_of_int_raises size e :
  float_of_int size = inl e -> e = OverflowError.
Proof.
  unfold float_of_int. cbv zeta.
  destruct (2 ^ 1024 <=? Z.abs (round53 size))%Z; [|discriminate].
  now intros [= <-].
Qed.

(** [float(size)] raises from [- 2 ^ 1024] down. *)
Lemma float_of_int_overflow_neg size :
  (size <= - 2 ^ 1024)%Z -> float_of_int size = inl OverflowError.
Proof.
  intros Hs. pose proof (float_of_int_overflow (- size) ltac:(lia)) as Ho.
  unfold float_of_int in *. cbv zeta in *.
  rewrite round53_opp, Z.abs_opp in Ho.
  destruct (2 ^ 1024 <=? Z.abs (round53 size))%Z; [reflexivity | discriminate].
Qed.

(** Where [float(size)] raises, so does the chunker on every text that
    is not blank. *)
Lemma chunk_text_no_float (text : str) (size : Z) :
  float_of_int size = inl OverflowError -> strip text <> [] ->
  _chunk_text text size = inl OverflowError.
Proof.
  intros Hv Hne. pose proof (accumulate_nonblank size text Hne) as Hacc.
  unfold _chunk_text. destruct (strip text) as [|a t] eqn:Et; [contradiction|].
  rewrite post_pass_overflow; [reflexivity | exact Hv | exact Hacc].
Qed.

(** When the chunker returns on a text that is not blank, [float(size)]
    exists. *)
Lemma chunk_text_float (text : str) (size : Z) (chunks : list str) :
  strip text <> [] -> _chunk_text text size = inr chunks ->
  exists v, float_of_int size = inr v.
Proof.
  intros Hne E. destruct (float_of_int size) as [e|v] eqn:Ev; [|now exists v].
  pose proof (float_of_int_raises _ _ Ev). subst e.
  rewrite (chunk_text_no_float text size Ev Hne) in E. discriminate.
Qed.

Lemma post_pass_negative size v chunks :
  (size < 0)%Z -> float_of_int size = inr v -> post_pass size chunks = inr [].
Proof.
  intros Hs Hv. induction chunks as [|c rest IH]; cbn [post_pass]; [reflexivity|].
  rewrite IH. unfold post_chunk, py_range0.
  rewrite (le_size_times_1_5_negative (len c) size v Hs Hv)
    by (unfold len; lia).
  destruct (Z.eqb_spec size 0); [lia|].
  destruct (Z.ltb_spec size 0); [reflexivity | lia].
Qed.

Lemma post_chunk_zero c :
  post_chunk 0 c = match c with
                   | [] => inr [c]
                   | _ :: _ => inl (ValueError RangeStepZero)
                   end.
Proof.
  unfold post_chunk. rewrite le_size_times_1_5_exact by (simpl; lia).
  destruct c as [|a c]; [reflexivity|].
  destruct (Z.leb_spec (2 * len (a :: c)) (3 * 0)) as [Hle|_];
    [unfold len in Hle; cbn [length] in Hle; lia | reflexivity].
Qed.

Lemma post_pass_zero chunks :
  Exists (fun c => c <> []) chunks ->
  post_pass 0 chunks = inl (ValueError RangeStepZero).
Proof.
  induction 1 as [c rest Hc | c rest Hrest IH]; cbn [post_pass];
    rewrite post_chunk_zero.
  - destruct c; [contradiction | reflexivity].
  - destruct c; [now rewrite IH | reflexivity].
Qed.

(** *** A text that fits in one chunk *)

Lemma re_split_aux_weight s : forall in_sep prev cur,
  (length (concat (re_split_aux in_sep prev cur s))
   + length (re_split_aux in_sep prev cur s)
   <= length cur + length s + 1)%nat.
Proof.
  induction s as [|c t IH]; intros in_sep prev cur; cbn [re_split_aux].
  - simpl. rewrite app_nil_r, length_rev. lia.
  - destruct (is_space c && in_sep).
    + specialize (IH true (Some c) cur). simpl. lia.
    + destruct (is_space c && match prev with
                              | Some p => is_boundary p
                              | None => false
                              end).
      * specialize (IH true (Some c) []). cbn [concat length] in *.
        rewrite length_app, length_rev. lia.
      * specialize (IH false (Some c) (c :: cur)). cbn [length] in *. lia.
Qed.

Lemma fold_acc_step_short size rest : forall cur : list char,
  (Z.of_nat (match cur with [] => 0 | _ :: _ => S (length cur) end
             + (length (concat rest) + length rest)) <= size + 1)%Z ->
  exists cur',
    fold_left (acc_step size) rest ([], cur) = ([], cur')
    /\ (match cur' with [] => 0 | _ :: _ => S (length cur') end
        <= match cur with [] => 0 | _ :: _ => S (length cur) end
           + (length (concat rest) + length rest))%nat.
Proof.
  induction rest as [|p rest IH]; intros cur Hw; cbn [fold_left].
  - exists cur. split; [reflexivity | lia].
  - cbn [concat length] in *. rewrite length_app in *.
    pose proof (strip_length p) as Hp.
    unfold acc_step at 2.
    destruct (strip p) as [|a s] eqn:Es.
    + destruct (IH cur) as [cur' [E Hc]]; [lia|].
      exists cur'. split; [exact E | lia].
    + destruct cur as [|b cur].
      * destruct (IH (a :: s)) as [cur' [E Hc]]; [cbn [length] in *; lia|].
        exists cur'. split; [exact E | cbn [length] in *; lia].
      * destruct (Z.gtb_spec (len (b :: cur) + len (a :: s) + 1) size) as [Hgt|Hle].
        { unfold len in Hgt. cbn [length] in *. lia. }
        assert (Hl : length ((b :: cur) ++ lit " " ++ a :: s)
                     = (length (b :: cur) + 1 + length (a :: s))%nat).
        { rewrite !length_app. simpl. lia. }
        destruct (IH ((b :: cur) ++ lit " " ++ a :: s)) as [cur' [E Hc]].
        { change ((b :: cur) ++ lit " " ++ a :: s)
            with (b :: (cur ++ lit " " ++ a :: s)) at 1.
          cbv iota. rewrite Hl. cbn [length] in *. lia. }
        exists cur'. split; [exact E|].
        change ((b :: cur) ++ lit " " ++ a :: s)
          with (b :: (cur ++ lit " " ++ a :: s)) in Hc at 1.
        cbv iota in Hc. rewrite Hl in Hc. cbn [length] in *. lia.
Qed.

End ChunkerEdges.

(** A text that fits in the target size, chunked with a size that
    [float] can take. *)
Lemma short_text_one_chunk (text : str) (size v : Z) :
  strip text <> [] ->
  (len (strip text) <= size)%Z ->
  float_of_int size = inr v ->
  exists c, _chunk_text text size = inr [c]
    /\ remove_ws c = remove_ws text
    /\ (len c <= len (strip text))%Z.
Proof.
  intros Hne Hlen Hv. unfold _chunk_text.
  destruct (strip text) as [|a t] eqn:Et; [contradiction|].
  pose proof (re_split_aux_weight (a :: t) false None []) as Hw.
  fold (re_split (a :: t)) in Hw.
  destruct (fold_acc_step_short size (re_split (a :: t)) [])
    as [cur [Ef Hc]]; [unfold len in Hlen; cbn [length] in *; lia|].
  pose proof (accumulate_remove_ws size (re_split (a :: t))) as Hr.
  rewrite re_split_remove_ws in Hr.
  unfold accumulate in *. rewrite Ef in *.
  pose proof (strip_length cur) as Hsl.
  assert (Hra : remove_ws (a :: t) <> []).
  { apply strip_remove_ws_nonempty. rewrite <- Et, strip_idem, Et. discriminate. }
  destruct (strip cur) as [|b c] eqn:Ec.
  - exfalso. apply Hra. rewrite <- Hr. reflexivity.
  - cbn [app post_pass]. unfold post_chunk.
    assert (Hb : (len (b :: c) <= len (a :: t))%Z).
    { unfold len. destruct cur; cbn [length] in *; lia. }
    rewrite (le_size_times_1_5_within (len (b :: c)) size v);
      [| unfold len in *; cbn [length] in *; lia | exact Hv | lia].
    cbn [app filter nonempty]. exists (b :: c).
    split; [reflexivity|]. split; [|exact Hb].
    cbn [app concat] in Hr. rewrite app_nil_r in Hr. rewrite Hr.
    rewrite <- Et. apply remove_ws_strip.
Qed.

(** X11: a text whose trimmed form is not empty and no longer than the
    target size comes back as exactly one chunk, which has the text's
    non-whitespace characters and is no longer than the trimmed text:
    the chunker returns it for every such size below [2 ^ 1023], and
    returns nothing else whenever it returns; from [2 ^ 1024] on it
    raises [OverflowError] at [size * 1.5]. *)
Theorem short_text_single_chunk (text : str) (size : Z) :
  strip text <> [] ->
  (len (strip text) <= size)%Z ->
  ((size < 2 ^ 1023)%Z ->
   exists c, _chunk_text text size = inr [c]
     /\ remove_ws c = remove_ws text
     /\ (len c <= len (strip text))%Z)
  /\ ((2 ^ 1024 <= size)%Z -> _chunk_text text size = inl OverflowError)
  /\ (forall chunks, _chunk_text text size = inr chunks ->
        exists c, chunks = [c]
          /\ remove_ws c = remove_ws text
          /\ (len c <= len (strip text))%Z).
Proof.
  intros Hne Hlen.
  assert (Hpos : (0 < size)%Z).
  { destruct (strip text) as [|a t]; [contradiction|].
    unfold len in Hlen. cbn [length] in Hlen. lia. }
  split; [|split].
  - intros Hlt.
    apply (short_text_one_chunk text size (round53 size) Hne Hlen).
    apply float_of_int_fits. lia.
  - intros Hbig. now apply chunk_text_overflow.
  - intros chunks E.
    destruct (chunk_text_float text size chunks Hne E) as [v Hv].
    destruct (short_text_one_chunk text size v Hne Hlen Hv) as [c [Ec [Hr Hl]]].
    exists c. split; [congruence|]. split; assumption.
Qed.

Lemma short_text_single_chunk_witness :
  ((200 < 2 ^ 1023)%Z ->
   exists c, _chunk_text (lit "  Plans start at $5.  See the pricing page. ") 200
             = inr [c]
     /\ remove_ws c = remove_ws (lit "  Plans start at $5.  See the pricing page. ")
     /\ (len c <= len (strip (lit "  Plans start at $5.  See the pricing page. ")))%Z)
  /\ ((2 ^ 1024 <= 200)%Z ->
      _chunk_text (lit "  Plans start at $5.  See the pricing page. ") 200
      = inl OverflowError)
  /\ (forall chunks,
        _chunk_text (lit "  Plans start at $5.  See the pricing page. ") 200
        = inr chunks ->
        exists c, chunks = [c]
          /\ remove_ws c = remove_ws (lit "  Plans start at $5.  See the pricing page. ")
          /\ (len c <= len (strip (lit "  Plans start at $5.  See the pricing page. ")))%Z).
Proof.
  apply (short_text_single_chunk
           (lit "  Plans start at $5.  See the pricing page. ") 200).
  - vm_compute. discriminate.
  - vm_compute. discriminate.
Defined.

(** X12: with a negative target size the chunker returns no chunk at
    all, whatever the text: every chunk is dropped by the hard split.
    It returns for every negative size above [- 2 ^ 1023], and with no
    chunk whenever it returns; from [- 2 ^ 1024] down it raises
    [OverflowError] at [size * 1.5] on a text that is not blank. *)
Theorem negative_size_no_chunk (text : str) (size : Z) :
  (size < 0)%Z ->
  ((- 2 ^ 1023 < size)%Z -> _chunk_text text size = inr [])
  /\ ((size <= - 2 ^ 1024)%Z -> strip text <> [] ->
      _chunk_text text size = inl OverflowError)
  /\ (forall chunks, _chunk_text text size = inr chunks -> chunks = []).
Proof.
  intros Hs.
  assert (Hret : forall v, float_of_int size = inr v ->
                           _chunk_text text size = inr []).
  { intros v Hv. unfold _chunk_text.
    destruct (strip text) as [|a t]; [reflexivity|].
    now rewrite (post_pass_negative size v). }
  split; [|split].
  - intros Hlo. apply (Hret (round53 size)), float_of_int_fits. lia.
  - intros Hbig Hne. apply chunk_text_no_float; [|exact Hne].
    now apply float_of_int_overflow_neg.
  - intros chunks E. destruct (strip text) as [|a t] eqn:Et.
    + unfold _chunk_text in E. rewrite Et in E. now injection E as <-.
    + assert (Hne : strip text <> []) by (rewrite Et; discriminate).
      destruct (chunk_text_float text size chunks Hne E) as [v Hv].
      rewrite (Hret v Hv) in E. now injection E as <-.
Qed.

Lemma negative_size_no_chunk_witness :
  ((- 2 ^ 1023 < -1)%Z -> _chunk_text (lit "Plans start at $5.") (-1) = inr [])
  /\ ((-1 <= - 2 ^ 1024)%Z -> strip (lit "Plans start at $5.") <> [] ->
      _chunk_text (lit "Plans start at $5.") (-1) = inl OverflowError)
  /\ (forall chunks, _chunk_text (lit "Plans start at $5.") (-1) = inr chunks ->
        chunks = []).
Proof.
  apply (negative_size_no_chunk (lit "Plans start at $5.") (-1)).
  reflexivity.
Defined.

(** X13: with target size 0 the chunker raises [ValueError] (the zero
    step of [range]) on every text that is not blank. *)
Theorem zero_size_raises (text : str) :
  strip text <> [] ->
  _chunk_text text 0 = inl (ValueError RangeStepZero).
Proof.
  intros Hne. unfold _chunk_text.
  destruct (strip text) as [|a t] eqn:Et; [contradiction|].
  rewrite post_pass_zero; [reflexivity|].
  apply concat_nonempty_Exists. intros Hc.
  pose proof (accumulate_remove_ws 0 (re_split (a :: t))) as Hr.
  rewrite Hc, re_split_remove_ws in Hr.
  apply (strip_remove_ws_nonempty (a :: t)); [|now rewrite <- Hr].
  rewrite <- Et, strip_idem, Et. discriminate.
Qed.

Lemma zero_size_raises_witness :
  _chunk_text (lit " Plans start at $5. ") 0 = inl (ValueError RangeStepZero).
Proof.
  apply (zero_size_raises (lit " Plans start at $5. ")).
  vm_compute. discriminate.
Defined.

(** X14: for a positive target size every chunk the chunker returns is
    already trimmed: it neither starts nor ends with whitespace ([strip]
    leaves it unchanged).  The chunker returns for every such size below
    [2 ^ 1023]. *)
Theorem chunks_are_trimmed (text : str) (size : Z) :
  (0 < size)%Z ->
  ((size < 2 ^ 1023)%Z -> exists chunks, _chunk_text text size = inr chunks)
  /\ forall chunks, _chunk_text text size = inr chunks ->
       Forall (fun c => strip c = c) chunks.
Proof.
  intros Hs. split.
  - intros Hlt. apply chunk_text_returns. lia.
  - intros chunks E.
    destruct (chunk_text_inv text size chunks Hs E) as [_ [_ [_ S]]].
    eapply Forall_impl; [|exact S]. intros c [Hc _]. exact Hc.
Qed.

Lemma chunks_are_trimmed_witness :
  ((3 < 2 ^ 1023)%Z ->
   exists chunks, _chunk_text (lit "  one.   two  ") 3 = inr chunks)
  /\ forall chunks, _chunk_text (lit "  one.   two  ") 3 = inr chunks ->
       Forall (fun c => strip c = c) chunks.
Proof.
  apply (chunks_are_trimmed (lit "  one.   two  ") 3).
  reflexivity.
Defined.

(* ================================================================== *)
(** ** More on the corpus loader *)

Section LoaderOrder.

Lemma str_ltb_irrefl a : str_ltb a a = false.
Proof.
  induction a as [|x a IH]; simpl; [reflexivity|].
  rewrite N.ltb_irrefl, N.eqb_refl, IH. reflexivity.
Qed.

Lemma str_leb_refl a : str_leb a a = true.
Proof. unfold str_leb. now rewrite str_ltb_irrefl. Qed.

Lemma str_leb_total a b : str_leb a b = true \/ str_leb b a = true.
Proof.
  unfold str_leb. destruct (str_ltb b a) eqn:Eba; [right | now left].
  destruct (str_ltb a b) eqn:Eab; [|reflexivity].
  pose proof (str_ltb_trans _ _ _ Eab Eba) as Haa.
  now rewrite str_ltb_irrefl in Haa.
Qed.

Lemma str_leb_trans a b c :
  str_leb a b = true -> str_leb b c = true -> str_leb a c = true.
Proof.
  unfold str_leb. rewrite !negb_true_iff. intros Hba Hcb.
  destruct (str_ltb c a) eqn:Eca; [|reflexivity].
  destruct (str_ltb a b) eqn:Eab.
  - pose proof (str_ltb_trans _ _ _ Eca Eab). congruence.
  - pose proof (str_ltb_trichotomy _ _ Eab Hba). subst b. congruence.
Qed.

Lemma insert_path_sorted e l :
  StronglySorted (fun x y => str_leb (fst x) (fst y) = true) l ->
  StronglySorted (fun x y => str_leb (fst x) (fst y) = true) (insert_path e l).
Proof.
  induction 1 as [|y t Ht IH Hy]; simpl.
  - repeat constructor.
  - destruct (str_leb (fst e) (fst y)) eqn:E.
    + constructor; [constructor; assumption|].
      constructor; [exact E|].
      rewrite Forall_forall in *. intros z Hz.
      eapply str_leb_trans; [exact E | apply Hy, Hz].
    + constructor; [exact IH|].
      apply Forall_forall. intros z Hz.
      apply (proj1 (insert_path_In _ _ _)) in Hz. destruct Hz as [-> | Hz].
      * destruct (str_leb_total (fst y) (fst e)); congruence.
      * rewrite Forall_forall in Hy. apply Hy, Hz.
Qed.

Lemma sorted_paths_sorted d :
  StronglySorted (fun x y => str_leb (fst x) (fst y) = true) (sorted_paths d).
Proof.
  induction d as [|e d IH]; simpl; [constructor|].
  apply insert_path_sorted, IH.
Qed.

Lemma StronglySorted_app {B : Type} (R : B -> B -> Prop) (l1 l2 : list B) :
  StronglySorted R l1 -> StronglySorted R l2 ->
  (forall a b, In a l1 -> In b l2 -> R a b) ->
  StronglySorted R (l1 ++ l2).
Proof.
  induction 1 as [|x l1 Hl1 IH Hx]; simpl; intros H2 Hab; [exact H2|].
  constructor.
  - apply IH; [exact H2|]. intros a b Ha Hb. apply Hab; [now right | exact Hb].
  - apply Forall_app. split; [exact Hx|].
    apply Forall_forall. intros b Hb. apply Hab; [now left | exact Hb].
Qed.

Lemma repeat_sorted (x : str) n :
  StronglySorted (fun a b => str_leb a b = true) (repeat x n).
Proof.
  induction n as [|n IH]; simpl; constructor; [exact IH|].
  apply Forall_forall. intros y Hy. apply repeat_spec in Hy. subst y.
  apply str_leb_refl.
Qed.

(** What the loop over the files adds to the two lists. *)
Lemma load_files_inv size : forall md_files all_chunks all_sources chunks srcs,
  load_files size md_files all_chunks all_sources = inr (chunks, srcs) ->
  exists more_chunks more_sources,
    chunks = all_chunks ++ more_chunks
    /\ srcs = all_sources ++ more_sources
    /\ length more_chunks = length more_sources
    /\ Forall (fun s => exists content, In (s, inr content) md_files) more_sources
    /\ (StronglySorted (fun x y => str_leb (fst x) (fst y) = true) md_files ->
        StronglySorted (fun a b => str_leb a b = true) more_sources)
    /\ (Forall blank md_files -> more_chunks = []).
Proof.
  induction md_files as [|[filename [err|content]] rest IH];
    intros all_chunks all_sources chunks srcs E; cbn [load_files] in E.
  - injection E as <- <-. exists [], [].
    rewrite !app_nil_r. repeat split; auto; constructor.
  - discriminate.
  - destruct (_chunk_text content size) as [e|cs] eqn:Ect; [discriminate|].
    apply IH in E.
    destruct E as (mc & ms & -> & -> & Hlen & Hin & Hsort & Hblank).
    exists (cs ++ mc), (repeat filename (length cs) ++ ms).
    rewrite <- !app_assoc. split; [reflexivity|]. split; [reflexivity|].
    split; [rewrite !length_app, repeat_length; lia|].
    split; [|split].
    + apply Forall_app. split.
      * apply Forall_forall. intros s Hs. apply repeat_spec in Hs. subst s.
        exists content. now left.
      * eapply Forall_impl; [|exact Hin]. intros s [ct Hs]. exists ct. now right.
    + intros Hfiles. inversion Hfiles as [|? ? Hrest Hhd]; subst.
      apply StronglySorted_app; [apply repeat_sorted | apply Hsort, Hrest|].
      intros a b Ha Hb. apply repeat_spec in Ha. subst a.
      rewrite Forall_forall in Hin, Hhd.
      destruct (Hin b Hb) as [ct Hct]. exact (Hhd _ Hct).
    + intros Hall. inversion Hall as [|? ? [text [Ht Hc]] Hrest]; subst.
      simpl in Ht. injection Ht as <-.
      unfold _chunk_text in Ect. rewrite Hc in Ect. injection Ect as <-.
      simpl. apply Hblank, Hrest.
Qed.

(** Loading returns only from a directory. *)
Lemma load_returns_directory fs size faq_dir chunks srcs :
  _load_and_chunk_faqs fs size faq_dir = inr (chunks, srcs) ->
  exists d, fs faq_dir = Some (Directory d)
    /\ sorted_paths (glob_md d) <> []
    /\ load_files size (sorted_paths (glob_md d)) [] [] = inr (chunks, srcs).
Proof.
  unfold _load_and_chunk_faqs.
  destruct (fs faq_dir) as [[|d]|]; [discriminate | | discriminate].
  cbn [entries].
  destruct (sorted_paths (glob_md d)) as [|e files] eqn:Esp; [discriminate|].
  intros E. exists d. split; [reflexivity|]. rewrite Esp.
  split; [discriminate | exact E].
Qed.

End LoaderOrder.

(** X15: when loading returns, the path names a directory, every source
    label is the name of an entry of it that ends in [.md] and was read
    as text, and the labels are in ascending order of file name: the
    chunks of one file stay together and the files follow each other in
    sorted order. *)
Theorem load_sources_sorted_md (fs : filesystem) (size : Z) (faq_dir : str)
        (chunks srcs : list str) :
  _load_and_chunk_faqs fs size faq_dir = inr (chunks, srcs) ->
  StronglySorted (fun a b => str_leb a b = true) srcs
  /\ exists d, fs faq_dir = Some (Directory d)
       /\ forall s, In s srcs ->
            endswith s (lit ".md") = true
            /\ exists content, In (s, inr content) d.
Proof.
  intros E. apply load_returns_directory in E.
  destruct E as (d & Hd & _ & E). apply load_files_inv in E.
  destruct E as (mc & ms & _ & -> & _ & Hin & Hsort & _). simpl.
  split.
  - apply Hsort, sorted_paths_sorted.
  - exists d. split; [exact Hd|]. intros s Hs.
    rewrite Forall_forall in Hin. destruct (Hin s Hs) as [content He].
    apply (proj1 (sorted_paths_In _ _)) in He.
    unfold glob_md in He. apply filter_In in He. destruct He as [Hd' Hmd].
    split; [exact Hmd | exists content; exact Hd'].
Qed.

Lemma load_sources_sorted_md_witness :
  StronglySorted (fun a b => str_leb a b = true) [lit "a.md"; lit "b.md"]
  /\ exists d, Demo.faq_fs (lit "faqs") = Some (Directory d)
       /\ forall s, In s [lit "a.md"; lit "b.md"] ->
            endswith s (lit ".md") = true
            /\ exists content, In (s, inr content) d.
Proof.
  apply (load_sources_sorted_md Demo.faq_fs 200 (lit "faqs")
           [lit "Plans start at $5.";
            lit "Returns take 30 days. Keep the receipt."]
           [lit "a.md"; lit "b.md"]).
  reflexivity.
Defined.

(* ================================================================== *)
(** ** Start-up: [_preload] *)

Section PreloadFacts.

Context `{Services}.

Lemma preload_run fs size faq_dir w :
  _preload fs size faq_dir w
  = match _load_and_chunk_faqs fs size faq_dir with
    | inl e => (inl e, w)
    | inr (chunks, srcs) =>
        match chunks with
        | [] =>
            (inr tt, {| globals := {| _CHUNKS := []; _SOURCES := srcs;
                                      _CHUNK_EMBEDS := Some [] |};
                        sent := sent w |})
        | _ :: _ =>
            let w1 :=
              {| globals := {| _CHUNKS := chunks; _SOURCES := srcs;
                               _CHUNK_EMBEDS := _CHUNK_EMBEDS (globals w) |};
                 sent := sent w ++ [EmbeddingsCreate chunks] |} in
            match embeddings_create (sent w) chunks with
            | None => (inl ServiceError, w1)
            | Some embeddings =>
                match np_array embeddings with
                | inl e => (inl e, w1)
                | inr embeds =>
                    (inr tt,
                     {| globals := {| _CHUNKS := chunks; _SOURCES := srcs;
                                      _CHUNK_EMBEDS := Some embeds |};
                        sent := sent w ++ [EmbeddingsCreate chunks] |})
                end
            end
        end
    end.
Proof.
  unfold _preload.
  destruct (_load_and_chunk_faqs fs size faq_dir) as [e|[chunks srcs]];
    [reflexivity|].
  destruct chunks as [|c chunks]; [reflexivity|].
  unfold _embed_texts, bind, write, read, call_embeddings, lift, ret, raise.
  cbn [globals sent _CHUNKS _SOURCES _CHUNK_EMBEDS fst snd].
  destruct (embeddings_create (sent w) (c :: chunks)) as [embeddings|];
    [|reflexivity].
  destruct (np_array embeddings); reflexivity.
Qed.

Lemma load_lengths fs size faq_dir chunks srcs :
  _load_and_chunk_faqs fs size faq_dir = inr (chunks, srcs) ->
  length srcs = length chunks.
Proof.
  intros E. apply load_returns_directory in E.
  destruct E as (d & _ & _ & E). apply load_files_inv in E.
  destruct E as (mc & ms & -> & -> & Hlen & _). simpl. now symmetry.
Qed.

Lemma load_files_blank size : forall md_files all_chunks all_sources,
  Forall blank md_files ->
  load_files size md_files all_chunks all_sources = inr (all_chunks, all_sources).
Proof.
  induction md_files as [|[filename read] rest IH];
    intros all_chunks all_sources Hall; cbn [load_files]; [reflexivity|].
  inversion Hall as [|? ? [text [Ht Hc]] Hrest]; subst. simpl in Ht. subst read.
  unfold _chunk_text. rewrite Hc. simpl. rewrite !app_nil_r. now apply IH.
Qed.

End PreloadFacts.

(** X16: when the embedding service answers with one vector per text, a
    [_preload] that returns leaves a well-formed store holding what the
    loader returned, and it has sent all chunks to the service in a
    single request (no request at all when there is no chunk). *)
Theorem preload_builds_store `{Services}
        (fs : filesystem) (size : Z) (faq_dir : str) (w : world) :
  (forall tr texts vs, embeddings_create tr texts = Some vs ->
                       length vs = length texts) ->
  fst (_preload fs size faq_dir w) = inr tt ->
  exists chunks srcs,
    _load_and_chunk_faqs fs size faq_dir = inr (chunks, srcs)
    /\ _CHUNKS (globals (snd (_preload fs size faq_dir w))) = chunks
    /\ _SOURCES (globals (snd (_preload fs size faq_dir w))) = srcs
    /\ well_formed (globals (snd (_preload fs size faq_dir w)))
    /\ sent (snd (_preload fs size faq_dir w))
       = sent w ++ match chunks with
                   | [] => []
                   | _ :: _ => [EmbeddingsCreate chunks]
                   end.
Proof.
  intros Hsvc. rewrite preload_run.
  destruct (_load_and_chunk_faqs fs size faq_dir) as [e|[chunks srcs]] eqn:El;
    [discriminate|].
  pose proof (load_lengths _ _ _ _ _ El) as Hlen.
  destruct chunks as [|c chunks].
  - intros _. exists [], srcs. cbn [snd globals sent _CHUNKS _SOURCES].
    rewrite app_nil_r. repeat split; try reflexivity; try exact Hlen.
    intros embeds E. cbn in E. injection E as <-. reflexivity.
  - cbn zeta.
    destruct (embeddings_create (sent w) (c :: chunks)) as [embeddings|] eqn:Ee;
      [|discriminate].
    destruct (np_array embeddings) as [e|embeds] eqn:En; [discriminate|].
    apply np_array_inv in En. subst embeds.
    intros _. exists (c :: chunks), srcs. cbn [snd globals sent _CHUNKS _SOURCES].
    repeat split; try reflexivity; try exact Hlen.
    intros embeds' E. cbn in E. injection E as <-. cbn [_CHUNKS].
    exact (Hsvc _ _ _ Ee).
Qed.

Lemma preload_builds_store_witness :
  exists chunks srcs,
    _load_and_chunk_faqs Demo.faq_fs 200 (lit "faqs") = inr (chunks, srcs)
    /\ _CHUNKS (globals (snd (@_preload Demo.platform Demo.services
                                 Demo.faq_fs 200 (lit "faqs") Demo.fresh))) = chunks
    /\ _SOURCES (globals (snd (@_preload Demo.platform Demo.services
                                  Demo.faq_fs 200 (lit "faqs") Demo.fresh))) = srcs
    /\ well_formed (globals (snd (@_preload Demo.platform Demo.services
                                    Demo.faq_fs 200 (lit "faqs") Demo.fresh)))
    /\ sent (snd (@_preload Demo.platform Demo.services
                    Demo.faq_fs 200 (lit "faqs") Demo.fresh))
       = sent Demo.fresh ++ match chunks with
                            | [] => []
                            | _ :: _ => [EmbeddingsCreate chunks]
                            end.
Proof.
  apply (@preload_builds_store Demo.platform Demo.services
           Demo.faq_fs 200 (lit "faqs") Demo.fresh).
  - intros tr texts vs E. injection E as <-. apply length_map.
  - reflexivity.
Defined.

(** X17: a directory whose [.md] files all read as blank text is not an
    error:
    [_preload] returns with an empty corpus and sends nothing, and from
    then on every question that is not blank raises [RuntimeError]. *)
Theorem blank_corpus_starts_but_cannot_answer `{Services}
        (fs : filesystem) (size : Z) (faq_dir : str) (d : directory) (w : world) :
  fs faq_dir = Some (Directory d) ->
  glob_md d <> [] ->
  Forall blank (glob_md d) ->
  fst (_preload fs size faq_dir w) = inr tt
  /\ sent (snd (_preload fs size faq_dir w)) = sent w
  /\ forall question top_k,
       trimmed_question question <> [] ->
       fst (ask_faq_core question top_k (snd (_preload fs size faq_dir w)))
       = inl RuntimeError.
Proof.
  intros Hfs Hne Hblank. rewrite preload_run.
  unfold _load_and_chunk_faqs. rewrite Hfs. cbn [entries].
  destruct (sorted_paths (glob_md d)) as [|e files] eqn:Esp.
  { apply (proj1 (sorted_paths_nil _)) in Esp. contradiction. }
  rewrite load_files_blank.
  - cbn [fst snd sent]. split; [reflexivity|]. split; [reflexivity|].
    intros question top_k Hq. rewrite ask_faq_core_uninit; [reflexivity | exact Hq|].
    right. reflexivity.
  - rewrite <- Esp. apply Forall_forall. intros x Hx.
    apply (proj1 (sorted_paths_In _ _)) in Hx.
    rewrite Forall_forall in Hblank. now apply Hblank.
Qed.

Lemma blank_corpus_starts_but_cannot_answer_witness :
  fst (@_preload Demo.platform Demo.services Demo.blank_fs 200 (lit "faqs")
         Demo.fresh) = inr tt
  /\ sent (snd (@_preload Demo.platform Demo.services Demo.blank_fs 200
                  (lit "faqs") Demo.fresh)) = sent Demo.fresh
  /\ forall question top_k,
       trimmed_question question <> [] ->
       fst (@ask_faq_core Demo.platform Demo.services question top_k
              (snd (@_preload Demo.platform Demo.services Demo.blank_fs 200
                      (lit "faqs") Demo.fresh)))
       = inl RuntimeError.
Proof.
  apply (@blank_corpus_starts_but_cannot_answer Demo.platform Demo.services
           Demo.blank_fs 200 (lit "faqs")
           [(lit "a.md", inr (lit "   ")); (lit "b.md", inr [])] Demo.fresh).
  - reflexivity.
  - discriminate.
  - repeat constructor; eexists; split; reflexivity.
Defined.

(** X18: a [_preload] that raises, in a world that had no embeddings,
    leaves a world in which no question is answered: [ask_faq_core]
    never returns there. *)
Theorem failed_preload_serves_nothing `{Services}
        (fs : filesystem) (size : Z) (faq_dir : str) (w : world) (e : exn) :
  _CHUNK_EMBEDS (globals w) = None ->
  fst (_preload fs size faq_dir w) = inl e ->
  forall question top_k r,
    fst (ask_faq_core question top_k (snd (_preload fs size faq_dir w))) <> inr r.
Proof.
  intros Hnone Hfail question top_k r Hr.
  assert (Hemb : _CHUNK_EMBEDS (globals (snd (_preload fs size faq_dir w))) = None).
  { revert Hfail. rewrite preload_run.
    destruct (_load_and_chunk_faqs fs size faq_dir) as [e'|[chunks srcs]];
      [intros _; exact Hnone|].
    destruct chunks as [|c chunks]; [discriminate|]. cbn zeta.
    destruct (embeddings_create (sent w) (c :: chunks)) as [embeddings|];
      [|intros _; exact Hnone].
    destruct (np_array embeddings); [intros _; exact Hnone | discriminate]. }
  destruct (ask_faq_core question top_k (snd (_preload fs size faq_dir w)))
    as [res w'] eqn:Ea.
  simpl in Hr. subst res.
  destruct (ask_faq_core_inv _ _ _ _ _ Ea)
    as (embeds & _ & _ & _ & _ & _ & He & _).
  congruence.
Qed.

Lemma failed_preload_serves_nothing_witness :
  fst (@ask_faq_core Demo.platform Demo.offline (Some (lit " price? ")) None
         (snd (@_preload Demo.platform Demo.offline Demo.faq_fs 200
                 (lit "faqs") Demo.fresh)))
  <> inr Demo.expected.
Proof.
  apply (@failed_preload_serves_nothing Demo.platform Demo.offline
           Demo.faq_fs 200 (lit "faqs") Demo.fresh ServiceError).
  - reflexivity.
  - reflexivity.
Defined.

(* ================================================================== *)
(** ** The HTTP endpoint *)

(** X19: a request whose question is blank (it may still pass the
    length check of the request body) is answered with status 400 and
    the message of the core's [ValueError]; nothing is sent to a service
    and the store is untouched. *)
Theorem api_blank_question_400 `{Services} (body : Api.AskRequest) (w : world) :
  strip (Api.question body) = [] ->
  Api.ask body w
  = (inl (Api.HTTPException 400 (Api.StrOfValueError QuestionRequired)), w).
Proof.
  intros Hq. unfold Api.ask, ask_faq_core. rewrite strip_idem, Hq. reflexivity.
Qed.

Lemma api_blank_question_400_witness :
  Api.valid {| Api.question := lit " "; Api.top_k := Some 4%Z |} = true
  /\ @Api.ask Demo.platform Demo.services
       {| Api.question := lit " "; Api.top_k := Some 4%Z |} Demo.start
     = (inl (Api.HTTPException 400 (Api.StrOfValueError QuestionRequired)),
        Demo.start).
Proof.
  split; [reflexivity|].
  apply (@api_blank_question_400 Demo.platform Demo.services
           {| Api.question := lit " "; Api.top_k := Some 4%Z |} Demo.start).
  reflexivity.
Defined.

(** The handler answers with status 400 exactly when the core raised a
    [ValueError] or an exception of one of its subclasses. *)
Lemma api_400_is_ValueError `{Services} (body : Api.AskRequest) (w : world) :
  (exists d, fst (Api.ask body w) = inl (Api.HTTPException 400 d))
  <-> exists e,
        fst (ask_faq_core (Some (strip (Api.question body)))
                          (Some (py_or (Api.top_k body) 4)) w) = inl e
        /\ is_ValueError e = true.
Proof.
  unfold Api.ask.
  destruct (ask_faq_core (Some (strip (Api.question body)))
                         (Some (py_or (Api.top_k body) 4)) w)
    as [[e|[a s]] w'] eqn:Ea; cbn [fst].
  - split.
    + intros [d Hd]. exists e. split; [reflexivity|].
      destruct e; try discriminate; reflexivity.
    + intros [e' [He' Hv]]. injection He' as <-.
      destruct e; try discriminate; eexists; reflexivity.
  - split; [intros [d Hd]; discriminate | intros [e [He _]]; discriminate].
Qed.

(** X20: a request whose question is not blank is answered with the
    answer of the core, or with status 500 and the fixed text "Internal
    server error", or with status 400 and the message of a NumPy shape
    error, a [ValueError] to the handler: the last only when the stored
    embeddings are the empty array or have a row of another dimension
    than the embedding of the question.  Where the stored embeddings are
    not empty and agree with that dimension, status 400 is never used
    for such a request. *)
Theorem api_nonblank_status `{Services} (body : Api.AskRequest) (w : world) :
  strip (Api.question body) <> [] ->
  ((exists r, fst (Api.ask body w) = inr r
              /\ fst (ask_faq_core (Some (Api.question body))
                                   (Some (py_or (Api.top_k body) 4)) w) = inr r)
   \/ fst (Api.ask body w) = inl (Api.HTTPException 500 Api.InternalServerError)
   \/ (exists e embeds query_emb data,
         fst (Api.ask body w) = inl (Api.HTTPException 400 (Api.StrOfNumpyError e))
         /\ _CHUNK_EMBEDS (globals w) = Some embeds
         /\ embeddings_create (sent w) [strip (Api.question body)]
            = Some (query_emb :: data)
         /\ ((e = AxisOutOfBounds /\ embeds = [])
             \/ (e = MatmulMismatch
                 /\ exists row, In row embeds /\ dim row <> dim query_emb))))
  /\ ((forall embeds, _CHUNK_EMBEDS (globals w) = Some embeds ->
         embeds <> []
         /\ forall query_emb data,
              embeddings_create (sent w) [strip (Api.question body)]
              = Some (query_emb :: data) ->
              Forall (fun row => dim row = dim query_emb) embeds) ->
      (exists r, fst (Api.ask body w) = inr r)
      \/ fst (Api.ask body w) = inl (Api.HTTPException 500 Api.InternalServerError)).
Proof.
  intros Hq.
  assert (Hq' : trimmed_question (Some (strip (Api.question body)))
                = strip (Api.question body)).
  { unfold trimmed_question. now rewrite strip_idem. }
  assert (Hmain :
    (exists r, fst (Api.ask body w) = inr r
               /\ fst (ask_faq_core (Some (Api.question body))
                                    (Some (py_or (Api.top_k body) 4)) w) = inr r)
    \/ fst (Api.ask body w) = inl (Api.HTTPException 500 Api.InternalServerError)
    \/ (exists e embeds query_emb data,
          fst (Api.ask body w) = inl (Api.HTTPException 400 (Api.StrOfNumpyError e))
          /\ _CHUNK_EMBEDS (globals w) = Some embeds
          /\ embeddings_create (sent w) [strip (Api.question body)]
             = Some (query_emb :: data)
          /\ ((e = AxisOutOfBounds /\ embeds = [])
              \/ (e = MatmulMismatch
                  /\ exists row, In row embeds /\ dim row <> dim query_emb)))).
  { unfold Api.ask.
    pose proof (ask_faq_core_raises
                  (Some (strip (Api.question body)))
                  (Some (py_or (Api.top_k body) 4)) w) as Hraises.
    rewrite Hq' in Hraises.
    rewrite (ask_faq_core_trimmed (Some (Api.question body))
               (Some (strip (Api.question body))))
      by (unfold trimmed_question; now rewrite strip_idem).
    destruct (ask_faq_core (Some (strip (Api.question body)))
                           (Some (py_or (Api.top_k body) 4)) w)
      as [[e|[a s]] w'] eqn:Ea; cbn [fst] in *.
    - destruct (Hraises e eq_refl)
        as [[_ Hnil] | [-> | [-> | [-> | [-> | (es & v & data & He & Hd & Hc)]]]]];
        [contradiction | now right; left | now right; left | now right; left
        | now right; left |].
      right. right.
      destruct (cosine_similarity_error _ _ _ Hc) as [[-> Hnil] | [-> Hrow]].
      + exists AxisOutOfBounds, es, v, data.
        repeat split; try assumption. left. split; [reflexivity | exact Hnil].
      + exists MatmulMismatch, es, v, data.
        repeat split; try assumption. right. split; [reflexivity | exact Hrow].
    - left. eexists. split; reflexivity. }
  split; [exact Hmain|].
  intros Hshape.
  destruct Hmain as [[r [Hr _]] | [H500 | (e & es & v & data & _ & He & Hd & Hcase)]].
  - left. now exists r.
  - now right.
  - exfalso. destruct (Hshape es He) as [Hne Hdim].
    destruct Hcase as [[_ Hnil] | [_ [row [Hin Hneq]]]]; [contradiction|].
    specialize (Hdim v data Hd). rewrite Forall_forall in Hdim.
    exact (Hneq (Hdim row Hin)).
Qed.

Lemma api_nonblank_status_witness :
  ((exists r,
       fst (@Api.ask Demo.platform Demo.services
              {| Api.question := lit " price? "; Api.top_k := None |} Demo.misfit)
       = inr r
       /\ fst (@ask_faq_core Demo.platform Demo.services
                 (Some (lit " price? ")) (Some (py_or None 4)) Demo.misfit) = inr r)
   \/ fst (@Api.ask Demo.platform Demo.services
             {| Api.question := lit " price? "; Api.top_k := None |} Demo.misfit)
      = inl (Api.HTTPException 500 Api.InternalServerError)
   \/ (exists e embeds query_emb data,
         fst (@Api.ask Demo.platform Demo.services
                {| Api.question := lit " price? "; Api.top_k := None |} Demo.misfit)
         = inl (Api.HTTPException 400 (Api.StrOfNumpyError e))
         /\ _CHUNK_EMBEDS (globals Demo.misfit) = Some embeds
         /\ @embeddings_create Demo.platform Demo.services (sent Demo.misfit)
              [strip (lit " price? ")] = Some (query_emb :: data)
         /\ ((e = AxisOutOfBounds /\ embeds = [])
             \/ (e = MatmulMismatch
                 /\ exists row, In row embeds
                                /\ @dim Demo.platform row <> @dim Demo.platform query_emb))))
  /\ fst (@Api.ask Demo.platform Demo.services
            {| Api.question := lit " price? "; Api.top_k := None |} Demo.misfit)
     = inl (Api.HTTPException 400 (Api.StrOfNumpyError MatmulMismatch)).
Proof.
  split; [|reflexivity].
  apply (@api_nonblank_status Demo.platform Demo.services
           {| Api.question := lit " price? "; Api.top_k := None |} Demo.misfit).
  vm_compute. discriminate.
Defined.

(** X21: for a request body that satisfies its field constraints, the
    number of chunks the core retrieves for is the [top_k] of the body,
    or 4 when that is null: the clamp of the core changes nothing,
    whatever default is configured. *)
Theorem api_valid_top_k_unchanged (default : Z) (body : Api.AskRequest) :
  Api.valid body = true ->
  clamp_top_k default (Some (py_or (Api.top_k body) 4))
  = match Api.top_k body with
    | Some n => n
    | None => 4%Z
    end.
Proof.
  unfold Api.valid, clamp_top_k, py_or. intros Hv.
  apply andb_true_iff in Hv. destruct Hv as [_ Hk].
  destruct (Api.top_k body) as [n|]; [|reflexivity].
  apply andb_true_iff in Hk. destruct Hk as [H1 H2].
  apply Z.leb_le in H1, H2.
  destruct (Z.eqb_spec n 0); [lia|]. simpl.
  destruct (Z.eqb_spec n 0); lia.
Qed.

Lemma api_valid_top_k_unchanged_witness :
  clamp_top_k 9 (Some (py_or (Some 7%Z) 4)) = 7%Z.
Proof.
  apply (api_valid_top_k_unchanged 9
           {| Api.question := lit "price?"; Api.top_k := Some 7%Z |}).
  reflexivity.
Defined.

(* ================================================================== *)
(** ** The API key *)

(** X22: [_get_api_key] prompts exactly when the environment holds no
    key or an empty one.  A key it returns is never empty and is the
    value of [OPENAI_API_KEY] afterwards; a key read at the prompt is
    trimmed first, and a blank one raises and leaves the environment as
    it was. *)
Theorem get_api_key_spec (environ : option str) (typed : str) :
  let o := ApiKey._get_api_key environ typed in
  (forall key, ApiKey.returned o = inr key ->
     key <> [] /\ ApiKey.environ_after o = Some key
     /\ (ApiKey.prompted o = true -> key = strip typed))
  /\ (ApiKey.returned o = inl ApiKey.KeyEmpty ->
      ApiKey.prompted o = true /\ strip typed = []
      /\ ApiKey.environ_after o = environ)
  /\ (ApiKey.prompted o = false <-> exists c k, environ = Some (c :: k)).
Proof.
  unfold ApiKey._get_api_key.
  destruct environ as [[|c k]|]; cbn zeta.
  - destruct (strip typed) as [|a s] eqn:Et; cbn.
    + split; [discriminate|]. split; [auto|].
      split; [discriminate | intros (c & k & E); discriminate].
    + split; [intros key E; injection E as <-; repeat split; auto; discriminate|].
      split; [discriminate|].
      split; [discriminate | intros (c & k & E); discriminate].
  - cbn. split; [intros key E; injection E as <-; repeat split;
                 [discriminate | discriminate]|].
    split; [discriminate|]. split; [intros _; eauto | reflexivity].
  - destruct (strip typed) as [|a s] eqn:Et; cbn.
    + split; [discriminate|]. split; [auto|].
      split; [discriminate | intros (c & k & E); discriminate].
    + split; [intros key E; injection E as <-; repeat split; auto; discriminate|].
      split; [discriminate|].
      split; [discriminate | intros (c & k & E); discriminate].
Qed.

Lemma get_api_key_spec_witness :
  ApiKey.returned (ApiKey._get_api_key None (lit "  sk-test  ")) = inr (lit "sk-test")
  /\ ApiKey.environ_after (ApiKey._get_api_key None (lit "  sk-test  "))
     = Some (lit "sk-test")
  /\ ApiKey.returned (ApiKey._get_api_key (Some []) (lit "   "))
     = inl ApiKey.KeyEmpty.
Proof.
  destruct (get_api_key_spec None (lit "  sk-test  ")) as [H1 _].
  destruct (H1 (lit "sk-test") eq_refl) as [_ [H2 _]].
  split; [reflexivity | split; [exact H2 | reflexivity]].
Defined.
